(** * A shallow embedding of the TeMoto action engine's graph executor

    The development follows the C++ sources [umrf.cpp], [action_base.h]
    and [action_executor.cpp].  Mutable objects become explicit states,
    C++ exceptions become the [Thrown] outcome of a small state and
    exception monad, [std::map] and [std::set] become [gmap] and [gset]
    iterated in ascending key order, and [unsigned int] becomes [N] with
    the wrap-around of the only arithmetic on it (the id counter) written
    out.  Console output ([TEMOTO_PRINT], [std::cout]) and the reentrant
    locks are not modelled: every function below runs the body it has
    under its lock guards, as one atomic step. *)

From Stdlib Require Import NArith DecimalString.
From stdpp Require Import gmap strings list fin_maps sorting.

Local Open Scope N_scope.
Local Open Scope string_scope.

(* ===================================================================== *)
(** * Exceptions and the state-and-exception monad                        *)
(* ===================================================================== *)

Module Temoto.

(** One frame of a [TemotoErrorStack]: the layer that raised or forwarded
    the error, and its message. *)
Record ErrorFrame := mkFrame { frame_origin : string; frame_message : string }.

(** The two exception classes the engine's catch clauses distinguish. *)
Inductive Exception :=
| TemotoErrorStack (stack : list ErrorFrame)
| StdException (what : string).

(** Modelled from the spec: the macro [CREATE_TEMOTO_ERROR_STACK] of
    [temoto_error.h], which is not among the sources.  It builds an error
    stack of one frame recording the raising layer and the message. *)
Definition CREATE_TEMOTO_ERROR_STACK (origin message : string) : Exception :=
  TemotoErrorStack [mkFrame origin message].

(** Modelled from the spec: the macro [FORWARD_TEMOTO_ERROR_STACK] of
    [temoto_error.h]: "each layer that re-raises prepends a frame". *)
Definition FORWARD_TEMOTO_ERROR_STACK (origin : string) (stack : list ErrorFrame)
  : Exception :=
  TemotoErrorStack (mkFrame origin "" :: stack).

(** A call on a mutable object of type [S] either returns a value or
    throws; in both cases the mutations made so far stay. *)
Inductive Outcome (A S : Type) :=
| Returned (a : A) (s : S)
| Thrown (e : Exception) (s : S).
Arguments Returned {A S} a s.
Arguments Thrown {A S} e s.

Definition Exec (S A : Type) : Type := S → Outcome A S.

Definition ret {S A} (a : A) : Exec S A := λ s, Returned a s.

Definition throw {S A} (e : Exception) : Exec S A := λ s, Thrown e s.

Definition bind {S A B} (m : Exec S A) (k : A → Exec S B) : Exec S B :=
  λ s, match m s with
       | Returned a s' => k a s'
       | Thrown e s' => Thrown e s'
       end.

Definition get {S} : Exec S S := λ s, Returned s s.

Definition modify {S} (f : S → S) : Exec S unit := λ s, Returned tt (f s).

(** [try m catch handler]: the handler runs on the state the throw left. *)
Definition try_catch {S A} (m : Exec S A) (handler : Exception → Exec S A)
  : Exec S A :=
  λ s, match m s with
       | Returned a s' => Returned a s'
       | Thrown e s' => handler e s'
       end.

(** A range-based [for] whose body may throw. *)
Fixpoint for_each {S B} (body : B → Exec S unit) (l : list B) : Exec S unit :=
  match l with
  | [] => ret tt
  | x :: rest => bind (body x) (λ _, for_each body rest)
  end.

Definition state_of {A S} (o : Outcome A S) : S :=
  match o with Returned _ s => s | Thrown _ s => s end.

Definition has_thrown {A S} (o : Outcome A S) : bool :=
  match o with Returned _ _ => false | Thrown _ _ => true end.

(** [m] keeps [I]: started in a state of [I] it leaves a state of [I],
    whether it returns or throws. *)
Definition keeps {S A} (I : S → Prop) (m : Exec S A) : Prop :=
  ∀ s, I s → I (state_of (m s)).

End Temoto.
Export Temoto.

Declare Scope exec_scope.
Delimit Scope exec_scope with exec.
Notation "x <- m ;; k" := (bind m (λ x, k))
  (at level 100, m at next level, right associativity) : exec_scope.
Notation "m ;;; k" := (bind m (λ _, k))
  (at level 100, right associativity) : exec_scope.

(** Ascending iteration over the keys of a [std::map] or the elements of a
    [std::set]. *)
Definition string_le (a b : string) : Prop := String.leb a b = true.

Global Instance string_le_dec : RelDecision string_le.
Proof. intros a b. unfold string_le. apply _. Defined.

Definition ascending (s : gset N) : list N := merge_sort N.le (elements s).

Definition ascending_names (s : gset string) : list string :=
  merge_sort string_le (elements s).

(** [std::to_string] on an [unsigned int]. *)
Definition to_string (n : N) : string := NilEmpty.string_of_uint (N.to_uint n).

(* ===================================================================== *)
(** * Action parameters                                                   *)
(* ===================================================================== *)

Module ActionParameters.

(** Modelled from the spec: [ActionParameters::ParameterContainer] of
    [action_parameters.h], which is not among the sources.  A parameter is
    the tuple (name, type, required, updatable, allowed_values, data); the
    bag is a [std::set] ordered by name, so a bag is a finite map from the
    name to the other five fields. *)
Record ParameterBody := mkParam {
  pc_type : string;
  pc_required : bool;
  pc_updatable : bool;
  pc_allowed : gset string;
  pc_data : string;   (* opaque bytes; empty when the parameter has no data *)
}.

Definition ParameterContainer : Type := string * ParameterBody.

Definition getName (p : ParameterContainer) : string := p.1.
Definition isRequired (p : ParameterContainer) : bool := pc_required p.2.
Definition isUpdatable (p : ParameterContainer) : bool := pc_updatable p.2.
Definition getDataSize (p : ParameterContainer) : nat := String.length (pc_data p.2).

(** Modelled from the spec: structural-no-update equality, "everything
    except data and updatable". *)
Definition isEqualNoDataNoUpdate (p q : ParameterContainer) : bool :=
  bool_decide (p.1 = q.1)
  && bool_decide (pc_type p.2 = pc_type q.2)
  && bool_decide (pc_required p.2 = pc_required q.2)
  && bool_decide (pc_allowed p.2 = pc_allowed q.2).

(** Modelled from the spec: structural equality, "everything except data". *)
Definition isEqualNoData (p q : ParameterContainer) : bool :=
  isEqualNoDataNoUpdate p q
  && bool_decide (pc_updatable p.2 = pc_updatable q.2).

Abbreviation ActionParameters := (gmap string ParameterBody).

Definition getParameters (ps : ActionParameters) : list ParameterContainer :=
  map_to_list ps.

Definition hasParameter (ps : ActionParameters) (name : string) : bool :=
  bool_decide (is_Some (ps !! name)).

Definition getParameterCount (ps : ActionParameters) : nat := size ps.

(** Modelled from the spec: [set_parameter(p)] is an "upsert by name". *)
Definition setParameter (p : ParameterContainer) (ps : ActionParameters)
  : bool * ActionParameters :=
  (true, <[p.1 := p.2]> ps).

(** Modelled from the spec: [copy_parameters(other)], "for each parameter
    in other present here, overwrite data only". *)
Definition copyParameters (other ps : ActionParameters) : ActionParameters :=
  map_imap (λ name here,
    match other !! name with
    | Some there =>
        Some (mkParam (pc_type here) (pc_required here) (pc_updatable here)
                      (pc_allowed here) (pc_data there))
    | None => Some here
    end) ps.

End ActionParameters.
Export ActionParameters.

(* ===================================================================== *)
(** * UMRF nodes: umrf.cpp                                                *)
(* ===================================================================== *)

Module Umrf.

(** Modelled from the spec: [Umrf::Relation] of [umrf.h], which is not
    among the sources.  A relation names another node by (name, suffix)
    and carries the [required] flag and the runtime [received] marker. *)
Record Relation := mkRelation {
  rel_name : string;
  rel_suffix : N;
  rel_required : bool;
  rel_received : bool;
}.

Definition getRequired (r : Relation) : bool := rel_required r.
Definition getReceived (r : Relation) : bool := rel_received r.

Definition Relation_getFullName (r : Relation) : string :=
  rel_name r ++ "_" ++ to_string (rel_suffix r).

Definition Relation_empty (r : Relation) : bool := bool_decide (rel_name r = "").

(** Modelled from the spec: [Relation::operator==], used by [std::find]
    on the relation vectors.  A relation is "a pair (name, suffix)
    identifying another node"; the two flags do not take part. *)
Definition Relation_eqb (a b : Relation) : bool :=
  bool_decide (rel_name a = rel_name b) && bool_decide (rel_suffix a = rel_suffix b).

(** The pair a relation is compared by. *)
Definition relation_key (r : Relation) : string * N := (rel_name r, rel_suffix r).

(** Modelled from the spec: the two-argument constructor
    [Relation(name, suffix)] called by [asRelation]; the flags it leaves
    are not observable through [Relation_eqb]. *)
Definition Relation_of (name : string) (suffix : N) : Relation :=
  mkRelation name suffix true false.

Record Umrf := mkUmrf {
  name_ : string;
  description_ : string;
  package_name_ : string;
  suffix_ : N;
  notation_ : string;
  effect_ : string;
  library_path_ : string;
  parents_ : list Relation;
  children_ : list Relation;
  id_ : N;
  full_name_ : string;
  input_parameters_ : ActionParameters;
  output_parameters_ : ActionParameters;
}.

Definition set_parents_ (ps : list Relation) (u : Umrf) : Umrf :=
  mkUmrf (name_ u) (description_ u) (package_name_ u) (suffix_ u) (notation_ u)
    (effect_ u) (library_path_ u) ps (children_ u) (id_ u) (full_name_ u)
    (input_parameters_ u) (output_parameters_ u).

Definition set_children_ (cs : list Relation) (u : Umrf) : Umrf :=
  mkUmrf (name_ u) (description_ u) (package_name_ u) (suffix_ u) (notation_ u)
    (effect_ u) (library_path_ u) (parents_ u) cs (id_ u) (full_name_ u)
    (input_parameters_ u) (output_parameters_ u).

Definition set_input_parameters_ (ps : ActionParameters) (u : Umrf) : Umrf :=
  mkUmrf (name_ u) (description_ u) (package_name_ u) (suffix_ u) (notation_ u)
    (effect_ u) (library_path_ u) (parents_ u) (children_ u) (id_ u) (full_name_ u)
    ps (output_parameters_ u).

Definition getFullName (u : Umrf) : string := full_name_ u.
Definition getLibraryPath (u : Umrf) : string := library_path_ u.
Definition getParents (u : Umrf) : list Relation := parents_ u.
Definition getChildren (u : Umrf) : list Relation := children_ u.
Definition getEffect (u : Umrf) : string := effect_ u.
Definition getSuffix (u : Umrf) : N := suffix_ u.
Definition getId (u : Umrf) : N := id_ u.
Definition getInputParameters (u : Umrf) : ActionParameters := input_parameters_ u.
Definition getOutputParameters (u : Umrf) : ActionParameters := output_parameters_ u.

Definition setName (name : string) (u : Umrf) : bool * Umrf :=
  if negb (bool_decide (name = "")) then
    (true,
     mkUmrf name (description_ u) (package_name_ u) (suffix_ u) (notation_ u)
       (effect_ u) (library_path_ u) (parents_ u) (children_ u) (id_ u)
       (name ++ "_" ++ to_string (suffix_ u))
       (input_parameters_ u) (output_parameters_ u))
  else (false, u).

Definition setSuffix (suffix : N) (u : Umrf) : bool * Umrf :=
  (true,
   mkUmrf (name_ u) (description_ u) (package_name_ u) suffix (notation_ u)
     (effect_ u) (library_path_ u) (parents_ u) (children_ u) (id_ u)
     (name_ u ++ "_" ++ to_string suffix)
     (input_parameters_ u) (output_parameters_ u)).

Definition setId (id : N) (u : Umrf) : Umrf :=
  mkUmrf (name_ u) (description_ u) (package_name_ u) (suffix_ u) (notation_ u)
    (effect_ u) (library_path_ u) (parents_ u) (children_ u) id (full_name_ u)
    (input_parameters_ u) (output_parameters_ u).

Definition addParent (parent : Relation) (u : Umrf) : bool * Umrf :=
  if negb (Relation_empty parent) then (true, set_parents_ (parents_ u ++ [parent]) u)
  else (false, u).

Definition addChild (child : Relation) (u : Umrf) : bool * Umrf :=
  if negb (Relation_empty child) then (true, set_children_ (children_ u ++ [child]) u)
  else (false, u).

(** [std::find(v.begin(), v.end(), r)] followed by [v.erase(it)]. *)
Fixpoint erase_first (r : Relation) (v : list Relation) : option (list Relation) :=
  match v with
  | [] => None
  | x :: rest =>
      if Relation_eqb x r then Some rest
      else option_map (cons x) (erase_first r rest)
  end.

Definition removeParent (parent : Relation) (u : Umrf) : bool * Umrf :=
  match erase_first parent (parents_ u) with
  | Some ps => (true, set_parents_ ps u)
  | None => (false, u)
  end.

Definition removeChild (child : Relation) (u : Umrf) : bool * Umrf :=
  match erase_first child (children_ u) with
  | Some cs => (true, set_children_ cs u)
  | None => (false, u)
  end.

Definition isUmrfCorrect (u : Umrf) : bool :=
  negb (bool_decide (name_ u = "")) && negb (bool_decide (getLibraryPath u = "")).

Definition setInputParameter (param_in : ParameterContainer) (u : Umrf) : bool * Umrf :=
  let '(ok, ps) := setParameter param_in (input_parameters_ u) in
  (ok, set_input_parameters_ ps u).

(** The loop leaves at the first required parameter without data. *)
Definition inputParametersReceived (u : Umrf) : bool :=
  forallb (λ input_parameter,
             if negb (isRequired input_parameter) then true
             else negb (Nat.eqb (getDataSize input_parameter) 0))
          (getParameters (input_parameters_ u)).

Definition copyInputParameters (action_parameters : ActionParameters) (u : Umrf)
  : bool * Umrf :=
  let u' := set_input_parameters_
              (copyParameters action_parameters (input_parameters_ u)) u in
  (inputParametersReceived u', u').

(** One turn of the loop of [updateInputParams]; the three [continue]
    statements are the three branches that leave [parameters_updated]
    alone. *)
Definition updateInputParams_body (input_param_in : ParameterContainer)
    (acc : bool * Umrf) : bool * Umrf :=
  let '(parameters_updated, self) := acc in
  match input_parameters_ self !! getName input_param_in with
  | None => (parameters_updated, self)
  | Some input_param_loc =>
      if negb (pc_updatable input_param_loc) then (parameters_updated, self)
      else
        let '(ok, self') := setInputParameter input_param_in self in
        if negb ok then (parameters_updated, self') else (true, self')
  end.

(** [Umrf::updateInputParams].  Nothing in the try block throws (the
    modelled [setParameter] does not), so the forwarding catch clause has
    nothing to forward and the function is total. *)
Definition updateInputParams (umrf_in : Umrf) (self : Umrf) : bool * Umrf :=
  foldl (λ acc input_param_in, updateInputParams_body input_param_in acc)
        (false, self) (getParameters (getInputParameters umrf_in)).

(** [std::find(v.begin(), v.end(), r) != v.end()]. *)
Definition found (v : list Relation) (r : Relation) : bool :=
  existsb (λ x, Relation_eqb x r) v.

Definition isEqual (self umrf_in : Umrf) (check_updatable : bool) : bool :=
  if negb (bool_decide (name_ self = name_ umrf_in))
     || negb (bool_decide (suffix_ self = suffix_ umrf_in))
     || negb (bool_decide (notation_ self = notation_ umrf_in))
     || negb (bool_decide (effect_ self = effect_ umrf_in))
  then false
  else if negb (Nat.eqb (length (children_ self)) (length (children_ umrf_in)))
          || negb (Nat.eqb (length (parents_ self)) (length (parents_ umrf_in)))
  then false
  else if negb (forallb (found (parents_ self)) (parents_ umrf_in)) then false
  else if negb (forallb (found (children_ self)) (children_ umrf_in)) then false
  else
    let input_parameters_in := getInputParameters umrf_in in
    let output_parameters_in := getOutputParameters umrf_in in
    if negb (Nat.eqb (getParameterCount (input_parameters_ self))
                     (getParameterCount input_parameters_in))
       || negb (Nat.eqb (getParameterCount (output_parameters_ self))
                        (getParameterCount output_parameters_in))
    then false
    else if negb (forallb (λ input_param : ParameterContainer,
                    match input_parameters_in !! getName input_param with
                    | Some other =>
                        if check_updatable
                        then isEqualNoData input_param (getName input_param, other)
                        else isEqualNoDataNoUpdate input_param (getName input_param, other)
                    | None => false
                    end) (getParameters (input_parameters_ self)))
    then false
    else forallb (λ output_param : ParameterContainer,
                    match output_parameters_in !! getName output_param with
                    | Some other => isEqualNoData output_param (getName output_param, other)
                    | None => false
                    end) (getParameters (output_parameters_ self)).

Definition asRelation (u : Umrf) : Relation := Relation_of (name_ u) (getSuffix u).

Definition requiredParentsFinished (u : Umrf) : bool :=
  forallb (λ parent, negb (getRequired parent && negb (getReceived parent)))
          (parents_ u).

(** [parent_it->received_ = true] at the first element equal to [parent]. *)
Fixpoint mark_received (parent : Relation) (v : list Relation) : option (list Relation) :=
  match v with
  | [] => None
  | x :: rest =>
      if Relation_eqb x parent
      then Some (mkRelation (rel_name x) (rel_suffix x) (rel_required x) true :: rest)
      else option_map (cons x) (mark_received parent rest)
  end.

Definition setParentReceived (parent : Relation) : Exec Umrf unit :=
  λ self,
    match mark_received parent (parents_ self) with
    | Some ps => Returned tt (set_parents_ ps self)
    | None =>
        Thrown (CREATE_TEMOTO_ERROR_STACK "Umrf::setParentReceived"
                  "The parent does not exist") self
    end.

(** The remaining setters of [umrf.cpp].  A guarded setter refuses the
    empty value and then leaves the node as it is. *)

Definition setPackageName (package_name : string) (u : Umrf) : bool * Umrf :=
  if negb (bool_decide (package_name = "")) then
    (true,
     mkUmrf (name_ u) (description_ u) package_name (suffix_ u) (notation_ u)
       (effect_ u) (library_path_ u) (parents_ u) (children_ u) (id_ u) (full_name_ u)
       (input_parameters_ u) (output_parameters_ u))
  else (false, u).

Definition setLibraryPath (library_path : string) (u : Umrf) : bool * Umrf :=
  if negb (bool_decide (library_path = "")) then
    (true,
     mkUmrf (name_ u) (description_ u) (package_name_ u) (suffix_ u) (notation_ u)
       (effect_ u) library_path (parents_ u) (children_ u) (id_ u) (full_name_ u)
       (input_parameters_ u) (output_parameters_ u))
  else (false, u).

Definition setParents (parents : list Relation) (u : Umrf) : bool * Umrf :=
  match parents with
  | [] => (false, u)
  | _ :: _ => (true, set_parents_ parents u)
  end.

Definition clearParents (u : Umrf) : Umrf := set_parents_ [] u.

Definition setChildren (children : list Relation) (u : Umrf) : bool * Umrf :=
  match children with
  | [] => (false, u)
  | _ :: _ => (true, set_children_ children u)
  end.

Definition clearChildren (u : Umrf) : Umrf := set_children_ [] u.

Definition setEffect (effect : string) (u : Umrf) : bool * Umrf :=
  if negb (bool_decide (effect = "")) then
    (true,
     mkUmrf (name_ u) (description_ u) (package_name_ u) (suffix_ u) (notation_ u)
       effect (library_path_ u) (parents_ u) (children_ u) (id_ u) (full_name_ u)
       (input_parameters_ u) (output_parameters_ u))
  else (false, u).

Definition setNotation (notation : string) (u : Umrf) : bool * Umrf :=
  if negb (bool_decide (notation = "")) then
    (true,
     mkUmrf (name_ u) (description_ u) (package_name_ u) (suffix_ u) notation
       (effect_ u) (library_path_ u) (parents_ u) (children_ u) (id_ u) (full_name_ u)
       (input_parameters_ u) (output_parameters_ u))
  else (false, u).

Definition setInputParameters (params : ActionParameters) (u : Umrf) : bool * Umrf :=
  if negb (Nat.eqb (size params) 0) then (true, set_input_parameters_ params u)
  else (false, u).

Definition setOutputParameters (params : ActionParameters) (u : Umrf) : bool * Umrf :=
  if negb (Nat.eqb (size params) 0) then
    (true,
     mkUmrf (name_ u) (description_ u) (package_name_ u) (suffix_ u) (notation_ u)
       (effect_ u) (library_path_ u) (parents_ u) (children_ u) (id_ u) (full_name_ u)
       (input_parameters_ u) params)
  else (false, u).

(** The setters and relation edits of [umrf.cpp], as calls.  Left out are
    [setDescription], which is declared [bool] and has no return
    statement, and the getters that hand out a reference into the node
    ([getNameNc], [getEffectNc], [getInputParametersNc],
    [getOutputParametersNc]). *)
Inductive Mutation :=
| Call_setName (name : string)
| Call_setPackageName (package_name : string)
| Call_setLibraryPath (library_path : string)
| Call_setParents (parents : list Relation)
| Call_clearParents
| Call_addParent (parent : Relation)
| Call_removeParent (parent : Relation)
| Call_setChildren (children : list Relation)
| Call_clearChildren
| Call_addChild (child : Relation)
| Call_removeChild (child : Relation)
| Call_setEffect (effect : string)
| Call_setSuffix (suffix : N)
| Call_setNotation (notation : string)
| Call_setId (id : N)
| Call_setInputParameters (params : ActionParameters)
| Call_setInputParameter (param_in : ParameterContainer)
| Call_setOutputParameters (params : ActionParameters)
| Call_copyInputParameters (action_parameters : ActionParameters)
| Call_updateInputParams (umrf_in : Umrf)
| Call_setParentReceived (parent : Relation).

(** The node a call leaves, whatever it returns or throws. *)
Definition mutate (u : Umrf) (c : Mutation) : Umrf :=
  match c with
  | Call_setName name => (setName name u).2
  | Call_setPackageName package_name => (setPackageName package_name u).2
  | Call_setLibraryPath library_path => (setLibraryPath library_path u).2
  | Call_setParents parents => (setParents parents u).2
  | Call_clearParents => clearParents u
  | Call_addParent parent => (addParent parent u).2
  | Call_removeParent parent => (removeParent parent u).2
  | Call_setChildren children => (setChildren children u).2
  | Call_clearChildren => clearChildren u
  | Call_addChild child => (addChild child u).2
  | Call_removeChild child => (removeChild child u).2
  | Call_setEffect effect => (setEffect effect u).2
  | Call_setSuffix suffix => (setSuffix suffix u).2
  | Call_setNotation notation => (setNotation notation u).2
  | Call_setId id => setId id u
  | Call_setInputParameters params => (setInputParameters params u).2
  | Call_setInputParameter param_in => (setInputParameter param_in u).2
  | Call_setOutputParameters params => (setOutputParameters params u).2
  | Call_copyInputParameters action_parameters =>
      (copyInputParameters action_parameters u).2
  | Call_updateInputParams umrf_in => (updateInputParams umrf_in u).2
  | Call_setParentReceived parent => state_of (setParentReceived parent u)
  end.

(** The full name as [setName] and [setSuffix] compute it. *)
Definition well_named (u : Umrf) : Prop :=
  full_name_ u = name_ u ++ "_" ++ to_string (suffix_ u).

Definition is_naming (c : Mutation) : bool :=
  match c with
  | Call_setSuffix _ => true
  | Call_setName name => negb (bool_decide (name = ""))
  | _ => false
  end.

(** [received_ = true] on a relation. *)
Definition with_received (x : Relation) : Relation :=
  mkRelation (rel_name x) (rel_suffix x) (rel_required x) true.

End Umrf.
Export Umrf.

(* ===================================================================== *)
(** * The action base class: action_base.h                                *)
(* ===================================================================== *)

Module ActionBase.

(** What [executeAction] let escape, by the catch clause that sees it. *)
Inductive Escaped :=
| EscapedErrorStack (stack : list ErrorFrame)   (* catch(TemotoErrorStack e) *)
| EscapedStdException (what : string)           (* catch(const std::exception& e) *)
| EscapedOther.                                 (* catch(...) *)

Section WithAction.

(** [UmrfNode] is declared in [umrf_node.h], which is not among the
    sources; the base class only stores and hands out a value of it. *)
Variable UmrfNode : Type.
Variable UmrfNode_default : UmrfNode.

(** The pure virtual [executeAction]: an inheriting action reaches the
    object only through [getUmrfNode] and [actionOk], so it is a function
    of the node and the stop flag to a new node and, possibly, something
    thrown. *)
Variable executeAction : UmrfNode → bool → option Escaped * UmrfNode.

Record ActionBase := mkActionBase {
  STOP_REQUESTED_ : bool;
  umrf_node_ : UmrfNode;
  umrf_set_ : bool;
  (* ghost: how many times the body of [executeAction] has been entered *)
  body_entered : nat;
}.

(** The object as its member initialisers leave it. *)
Definition fresh : ActionBase := mkActionBase false UmrfNode_default false 0.

Definition isInitialized (a : ActionBase) : bool := umrf_set_ a.

Definition actionOk (a : ActionBase) : bool := negb (STOP_REQUESTED_ a).

Definition stopAction (a : ActionBase) : bool * ActionBase :=
  (true, mkActionBase true (umrf_node_ a) (umrf_set_ a) (body_entered a)).

Definition setUmrf (umrf : UmrfNode) (a : ActionBase) : ActionBase :=
  mkActionBase (STOP_REQUESTED_ a) umrf true (body_entered a).

Definition executeActionWrapped : Exec ActionBase unit :=
  λ a,
    if negb (isInitialized a) then
      Thrown (CREATE_TEMOTO_ERROR_STACK "ActionBase::executeActionWrapped"
                "Failed to execute the action because the UMRF is uninitialised") a
    else
      let '(escaped, node) := executeAction (umrf_node_ a) (actionOk a) in
      let a' := mkActionBase (STOP_REQUESTED_ a) node (umrf_set_ a)
                             (S (body_entered a)) in
      match escaped with
      | None => Returned tt a'
      | Some (EscapedErrorStack stack) =>
          Thrown (FORWARD_TEMOTO_ERROR_STACK "ActionBase::executeActionWrapped" stack) a'
      | Some (EscapedStdException what) =>
          Thrown (CREATE_TEMOTO_ERROR_STACK "ActionBase::executeActionWrapped" what) a'
      | Some EscapedOther =>
          Thrown (CREATE_TEMOTO_ERROR_STACK "ActionBase::executeActionWrapped"
                    "Caught an unhandled error.") a'
      end.

(** The public interface, as a caller can drive an object. *)
Inductive Call :=
| CallStopAction
| CallSetUmrf (umrf : UmrfNode)
| CallExecuteActionWrapped.

Definition perform (a : ActionBase) (c : Call) : ActionBase :=
  match c with
  | CallStopAction => (stopAction a).2
  | CallSetUmrf umrf => setUmrf umrf a
  | CallExecuteActionWrapped => state_of (executeActionWrapped a)
  end.

Definition after (history : list Call) : ActionBase := foldl perform fresh history.

Definition is_setUmrf (c : Call) : bool :=
  match c with CallSetUmrf _ => true | _ => false end.

End WithAction.

Arguments CallStopAction {UmrfNode}.
Arguments CallSetUmrf {UmrfNode} umrf.
Arguments CallExecuteActionWrapped {UmrfNode}.
Arguments STOP_REQUESTED_ {UmrfNode} _.
Arguments umrf_node_ {UmrfNode} _.
Arguments umrf_set_ {UmrfNode} _.
Arguments body_entered {UmrfNode} _.
Arguments mkActionBase {UmrfNode} _ _ _ _.
Arguments is_setUmrf {UmrfNode} c.

End ActionBase.

(* ===================================================================== *)
(** * UMRF graphs                                                         *)
(* ===================================================================== *)

Module UmrfGraph.

Inductive State := UNINITIALIZED | INITIALIZED | ACTIVE | FINISHED | ERROR.

Global Instance GraphState_eq_dec : EqDecision State.
Proof. solve_decision. Defined.

Module Node.
Inductive State := NOT_STARTED | ACTIVE | FINISHED | ERROR.

Global Instance NodeState_eq_dec : EqDecision State.
Proof. solve_decision. Defined.
End Node.

(** Modelled from the spec: the class [UmrfGraph] of [umrf_graph.h] and
    [umrf_graph.cpp], which are not among the sources.  A graph is its
    name, the nodes by id with their runtime state, and whether its
    construction succeeded; the map from full names to ids and the
    adjacency are derived from the nodes. *)
Record GraphNode := mkNode { umrf_ : Umrf; state_ : Node.State }.

Record UmrfGraph := mkGraph {
  graph_name_ : string;
  graph_nodes_ : gmap N GraphNode;
  initialized_ : bool;
}.

Definition set_graph_nodes_ (nodes : gmap N GraphNode) (g : UmrfGraph) : UmrfGraph :=
  mkGraph (graph_name_ g) nodes (initialized_ g).

(** The nodes are stored under their ids ("nodes: map<id, UmrfNode>"). *)
Definition keyed (g : UmrfGraph) : Prop :=
  map_Forall (λ id n, getId (umrf_ n) = id) (graph_nodes_ g).

Definition getNodeIds (g : UmrfGraph) : list N := ascending (dom (graph_nodes_ g)).

Definition getUmrfOf (id : N) (g : UmrfGraph) : option Umrf :=
  umrf_ <$> graph_nodes_ g !! id.

Definition getUmrfs (g : UmrfGraph) : list Umrf :=
  omap (λ id, getUmrfOf id g) (getNodeIds g).

Definition has_full_name (full_name : string) (g : UmrfGraph) (id : N) : bool :=
  match getUmrfOf id g with
  | Some u => bool_decide (getFullName u = full_name)
  | None => false
  end.

(** Modelled from the spec: the lookup through [name_to_id]. *)
Definition getNodeId (full_name : string) (g : UmrfGraph) : option N :=
  head (List.filter (has_full_name full_name g) (getNodeIds g)).

(** Modelled from the spec: [part_of_graph], by id and by full name. *)
Definition partOfGraph (id : N) (g : UmrfGraph) : bool :=
  bool_decide (is_Some (graph_nodes_ g !! id)).

Definition partOfGraph_name (full_name : string) (g : UmrfGraph) : bool :=
  bool_decide (is_Some (getNodeId full_name g)).

Definition refers_to (full_name : string) (r : Relation) : bool :=
  bool_decide (Relation_getFullName r = full_name).

(** Modelled from the spec: [children_of(id)], the "ids of nodes whose
    parent list references this id's full_name", in ascending id order. *)
Definition getChildrenOf (id : N) (g : UmrfGraph) : list N :=
  match getUmrfOf id g with
  | None => []
  | Some u =>
      List.filter (λ child_id,
                     match getUmrfOf child_id g with
                     | Some c => existsb (refers_to (getFullName u)) (getParents c)
                     | None => false
                     end) (getNodeIds g)
  end.

(** Modelled from the spec: [roots()], the "ids with no parents". *)
Definition getRootNodes (g : UmrfGraph) : list N :=
  List.filter (λ id,
                 match getUmrfOf id g with
                 | Some u => bool_decide (getParents u = [])
                 | None => false
                 end) (getNodeIds g).

Definition node_states (g : UmrfGraph) : list Node.State :=
  omap (λ id, state_ <$> graph_nodes_ g !! id) (getNodeIds g).

(** Modelled from the spec: [check_state()], "derived from aggregated node
    states": a graph whose construction failed is [UNINITIALIZED]; with no
    node started it is [INITIALIZED]; a node in error makes it [ERROR];
    all nodes finished make it [FINISHED]; otherwise it is [ACTIVE]. *)
Definition checkState (g : UmrfGraph) : State :=
  if negb (initialized_ g) then UNINITIALIZED
  else if forallb (λ s, bool_decide (s = Node.NOT_STARTED)) (node_states g) then INITIALIZED
  else if existsb (λ s, bool_decide (s = Node.ERROR)) (node_states g) then ERROR
  else if forallb (λ s, bool_decide (s = Node.FINISHED)) (node_states g) then FINISHED
  else ACTIVE.

Definition set_state (s : Node.State) (id : N) (g : UmrfGraph) : UmrfGraph :=
  set_graph_nodes_ (alter (λ n, mkNode (umrf_ n) s) id (graph_nodes_ g)) g.

(** Modelled from the spec: the three node transitions. *)
Definition setNodeActive (id : N) (g : UmrfGraph) : UmrfGraph := set_state Node.ACTIVE id g.
Definition setNodeFinished (id : N) (g : UmrfGraph) : UmrfGraph := set_state Node.FINISHED id g.
Definition setNodeError (id : N) (g : UmrfGraph) : UmrfGraph := set_state Node.ERROR id g.

(** [getUmrfOfNonconst(id)] followed by member calls on the reference. *)
Definition on_umrf {A} (id : N) (m : Exec Umrf A) : Exec UmrfGraph A :=
  λ g,
    match graph_nodes_ g !! id with
    | None => Thrown (StdException "map::at") g
    | Some n =>
        let put u := set_graph_nodes_ (<[id := mkNode u (state_ n)]> (graph_nodes_ g)) g in
        match m (umrf_ n) with
        | Returned a u => Returned a (put u)
        | Thrown e u => Thrown e (put u)
        end
    end.

(** An edge of the description: [u] lists [v] as a child, or [v] lists
    [u] as a parent. *)
Definition has_edge (u v : Umrf) : bool :=
  existsb (refers_to (getFullName v)) (getChildren u)
  || existsb (refers_to (getFullName u)) (getParents v).

(** Cycle detection: nodes without an incoming edge from the remaining
    nodes are peeled off until none is left (acyclic) or none can be
    peeled (a cycle, or a self-loop). *)
Fixpoint peel (fuel : nat) (remaining : list Umrf) : bool :=
  match remaining, fuel with
  | [], _ => true
  | _, O => false
  | _, S fuel' =>
      let rest := List.filter (λ v, existsb (λ u, has_edge u v) remaining) remaining in
      if Nat.eqb (length rest) (length remaining) then false else peel fuel' rest
  end.

(** Modelled from the spec: construction "rejects: duplicate full_name,
    parent/child references naming non-existent nodes, self-loops, and any
    cycle". *)
Definition valid (umrfs : list Umrf) : bool :=
  let names := getFullName <$> umrfs in
  bool_decide (NoDup names)
  && forallb (λ u, forallb (λ r, bool_decide (Relation_getFullName r ∈ names))
                           (getParents u ++ getChildren u)) umrfs
  && forallb (λ u, forallb (λ r, negb (refers_to (getFullName u) r))
                           (getParents u ++ getChildren u)) umrfs
  && peel (length umrfs) umrfs.

Definition new (graph_name : string) (umrfs : list Umrf) : UmrfGraph :=
  mkGraph graph_name
    (list_to_map ((λ u, (getId u, mkNode u Node.NOT_STARTED)) <$> umrfs))
    (valid umrfs).

Definition on_named (full_name : string) (f : Umrf → Umrf) (g : UmrfGraph) : UmrfGraph :=
  match getNodeId full_name g with
  | Some id => set_graph_nodes_ (alter (λ n, mkNode (f (umrf_ n)) (state_ n)) id (graph_nodes_ g)) g
  | None => g
  end.

Definition with_child (c : Relation) (u : Umrf) : Umrf :=
  if found (getChildren u) c then u else (Umrf.addChild c u).2.

Definition with_parent (p : Relation) (u : Umrf) : Umrf :=
  if found (getParents u) p then u else (Umrf.addParent p u).2.

Definition without_relation (full_name : string) (u : Umrf) : Umrf :=
  set_parents_ (List.filter (λ r, negb (refers_to full_name r)) (getParents u))
    (set_children_ (List.filter (λ r, negb (refers_to full_name r)) (getChildren u)) u).

Definition relation_to (u : Umrf) (required : bool) : Relation :=
  mkRelation (name_ u) (getSuffix u) required false.

(** Modelled from the spec: [add_node(node)] "inserts, re-derives
    adjacency, updates parents'/children's relations.  Fails if full_name
    already present." *)
Definition addUmrf (umrf : Umrf) : Exec UmrfGraph unit :=
  λ g,
    if partOfGraph_name (getFullName umrf) g then
      Thrown (CREATE_TEMOTO_ERROR_STACK "UmrfGraph::addUmrf"
                ("UMRF '" ++ getFullName umrf ++ "' is already part of the graph")) g
    else
      let g1 := set_graph_nodes_
                  (<[getId umrf := mkNode umrf Node.NOT_STARTED]> (graph_nodes_ g)) g in
      let g2 := foldl (λ acc p, on_named (Relation_getFullName p)
                                  (with_child (relation_to umrf (getRequired p))) acc)
                      g1 (getParents umrf) in
      let g3 := foldl (λ acc c, on_named (Relation_getFullName c)
                                  (with_parent (relation_to umrf (getRequired c))) acc)
                      g2 (getChildren umrf) in
      Returned tt g3.

(** Modelled from the spec: [remove_node] "removes the node, prunes
    dangling relations from neighbours, returns the deposed id". *)
Definition removeUmrf (umrf : Umrf) : Exec UmrfGraph N :=
  λ g,
    match getNodeId (getFullName umrf) g with
    | None =>
        Thrown (CREATE_TEMOTO_ERROR_STACK "UmrfGraph::removeUmrf"
                  ("UMRF '" ++ getFullName umrf ++ "' is not part of the graph")) g
    | Some id =>
        Returned id
          (set_graph_nodes_
             ((λ n, mkNode (without_relation (getFullName umrf) (umrf_ n)) (state_ n))
                <$> delete id (graph_nodes_ g)) g)
    end.

(** Modelled from the spec: [add_child(node_descriptor)] and
    [remove_child(node_descriptor)] "edit edges between existing nodes":
    the descriptor names the parent and lists the children concerned. *)
Definition addChild (umrf : Umrf) : Exec UmrfGraph unit :=
  λ g,
    if negb (partOfGraph_name (getFullName umrf) g) then
      Thrown (CREATE_TEMOTO_ERROR_STACK "UmrfGraph::addChild"
                ("UMRF '" ++ getFullName umrf ++ "' is not part of the graph")) g
    else
      Returned tt
        (foldl (λ acc c,
                  on_named (Relation_getFullName c)
                    (with_parent (relation_to umrf (getRequired c)))
                    (on_named (getFullName umrf) (with_child c) acc))
               g (getChildren umrf)).

Definition removeChild (umrf : Umrf) : Exec UmrfGraph unit :=
  λ g,
    if negb (partOfGraph_name (getFullName umrf) g) then
      Thrown (CREATE_TEMOTO_ERROR_STACK "UmrfGraph::removeChild"
                ("UMRF '" ++ getFullName umrf ++ "' is not part of the graph")) g
    else
      Returned tt
        (foldl (λ acc c,
                  on_named (Relation_getFullName c)
                    (λ u, (Umrf.removeParent (relation_to umrf true) u).2)
                    (on_named (getFullName umrf) (λ u, (Umrf.removeChild c u).2) acc))
               g (getChildren umrf)).

End UmrfGraph.

(* ===================================================================== *)
(** * Action handles                                                      *)
(* ===================================================================== *)

Module ActionHandle.

Inductive State := UNINITIALIZED | INITIALIZED | RUNNING | FINISHED | ERROR.

Global Instance HandleState_eq_dec : EqDecision State.
Proof. solve_decision. Defined.

(** Modelled from the spec: the class [ActionHandle] of
    [action_handle.h] and [action_handle.cpp], which are not among the
    sources.  A handle wraps one node: its copy of the UMRF, its state,
    whether a loaded implementation is held, and the completion channel
    (a message once the worker has posted its result). *)
Record ActionHandle := mkHandle {
  umrf_ : Umrf;
  state_ : State;
  action_instance_ : bool;
  future_ : option string;
}.

(** Modelled from the spec: [new(node, back_ref_to_executor)].  It
    "validates that the node is correct; state becomes INITIALIZED"
    (section 4.2), and a handle can "fail to reach INITIALIZED" (section
    4.3.2).  The handles that reach it are those of the nodes that are
    ready: the children "whose required_parents_finished() predicate
    holds", while "a child whose inputs are not yet complete will silently
    stay pending" (section 4.3.4), and "every root must be ready" (section
    4.3.3).  [executeById] tests nothing but the state of the handle, so
    the three predicates of [umrf.cpp] decide here. *)
Definition new (umrf : Umrf) : ActionHandle :=
  mkHandle umrf
    (if isUmrfCorrect umrf && requiredParentsFinished umrf && inputParametersReceived umrf
     then INITIALIZED else UNINITIALIZED)
    false None.

Definition getState (h : ActionHandle) : State := state_ h.
Definition getHandleId (h : ActionHandle) : N := getId (umrf_ h).
Definition getEffect (h : ActionHandle) : string := Umrf.getEffect (umrf_ h).
Definition futureIsReady (h : ActionHandle) : bool := bool_decide (is_Some (future_ h)).

(** Modelled from the spec: [get_future_value()] "consumes the result". *)
Definition getFutureValue : Exec ActionHandle string :=
  λ h,
    match future_ h with
    | Some message => Returned message (mkHandle (umrf_ h) (state_ h) (action_instance_ h) None)
    | None =>
        Thrown (CREATE_TEMOTO_ERROR_STACK "ActionHandle::getFutureValue"
                  "The future is not ready") h
    end.

(** Modelled from the spec: [clear_action()] "joins the worker, drops the
    loaded implementation, releases the library reference". *)
Definition clearAction (h : ActionHandle) : ActionHandle :=
  mkHandle (umrf_ h) (state_ h) false (future_ h).

Section WithLoader.

(** The external loader and the thread launch: for a node, either success
    or the exception they fail with. *)
Variable load_action : Umrf → option Exception.
Variable start_worker : Umrf → option Exception.

(** Modelled from the spec: [instantiate_action()] "may fail with a
    load/link error → state ERROR". *)
Definition instantiateAction : Exec ActionHandle unit :=
  λ h,
    match load_action (umrf_ h) with
    | Some e => Thrown e (mkHandle (umrf_ h) ERROR (action_instance_ h) (future_ h))
    | None => Returned tt (mkHandle (umrf_ h) (state_ h) true (future_ h))
    end.

(** Modelled from the spec: [execute_action_thread()] "spawns a single
    worker ...  Sets state RUNNING". *)
Definition executeActionThread : Exec ActionHandle unit :=
  λ h,
    match start_worker (umrf_ h) with
    | Some e => Thrown e (mkHandle (umrf_ h) ERROR (action_instance_ h) (future_ h))
    | None => Returned tt (mkHandle (umrf_ h) RUNNING (action_instance_ h) (future_ h))
    end.

End WithLoader.

(** Modelled from the spec: [update_umrf(new_node)] "replaces updatable
    input parameter values only"; the parameter-update hook of a running
    action is outside the model. *)
Definition updateUmrf (umrf_in : Umrf) (h : ActionHandle) : ActionHandle :=
  mkHandle (updateInputParams umrf_in (umrf_ h)).2 (state_ h) (action_instance_ h)
           (future_ h).

End ActionHandle.

(* ===================================================================== *)
(** * The executor: action_executor.cpp                                   *)
(* ===================================================================== *)

Module ActionExecutor.

Abbreviation HandleMap := (gmap N ActionHandle.ActionHandle).
Abbreviation GraphMap := (gmap string UmrfGraph.UmrfGraph).

(** Ghost record of the member calls the executor makes on its handles, in
    the order it makes them. *)
Inductive HandleCall :=
| Called_instantiateAction (id : N)
| Called_executeActionThread (id : N)
| Called_clearAction (id : N)
| Called_getFutureValue (id : N).

Record ActionExecutor := mkExecutor {
  named_action_handles_ : HandleMap;
  named_umrf_graphs_ : GraphMap;
  action_handle_id_count_ : N;
  handle_calls_ : list HandleCall;
}.

(** Modelled from the spec: the diff records of [umrf_graph_diff.h], which
    is not among the sources; the operation is a string. *)
Record UmrfGraphDiff := mkDiff { operation : string; umrf : Umrf }.

Module Operation.
Definition add_umrf : string := "add_umrf".
Definition remove_umrf : string := "remove_umrf".
Definition add_child : string := "add_child".
Definition remove_child : string := "remove_child".
End Operation.

(** [std::map::insert] of one pair: a key already present keeps its value. *)
Definition map_insert {K V} `{Countable K} (k : K) (v : V) (m : gmap K V) : gmap K V :=
  match m !! k with
  | Some _ => m
  | None => <[k := v]> m
  end.

(** A node for which the handle constructor does not reach [INITIALIZED],
    or which the graph does not hold. *)
Definition not_ready (id : N) (g : UmrfGraph.UmrfGraph) : Prop :=
  ActionHandle.getState <$> (ActionHandle.new <$> UmrfGraph.getUmrfOf id g)
  ≠ Some ActionHandle.INITIALIZED.

(** An expression statement that builds an exception object and drops it. *)
Definition discard {S} (e : Exception) : Exec S unit := ret tt.

Definition set_handles (h : HandleMap) (s : ActionExecutor) : ActionExecutor :=
  mkExecutor h (named_umrf_graphs_ s) (action_handle_id_count_ s) (handle_calls_ s).

Definition set_graphs (g : GraphMap) (s : ActionExecutor) : ActionExecutor :=
  mkExecutor (named_action_handles_ s) g (action_handle_id_count_ s) (handle_calls_ s).

Definition record_call (c : HandleCall) (s : ActionExecutor) : ActionExecutor :=
  mkExecutor (named_action_handles_ s) (named_umrf_graphs_ s)
             (action_handle_id_count_ s) (handle_calls_ s ++ [c]).

(** The post-increment of the [unsigned int] counter. *)
Definition createId : Exec ActionExecutor N :=
  λ s,
    Returned (action_handle_id_count_ s)
      (mkExecutor (named_action_handles_ s) (named_umrf_graphs_ s)
                  ((action_handle_id_count_ s + 1) mod 2 ^ 32) (handle_calls_ s)).

Definition isActive (s : ActionExecutor) : bool :=
  existsb (λ id, match named_action_handles_ s !! id with
                 | Some h => bool_decide (ActionHandle.getState h = ActionHandle.RUNNING)
                 | None => false
                 end)
          (ascending (dom (named_action_handles_ s))).

Definition getActionCount (s : ActionExecutor) : N :=
  N.of_nat (size (named_action_handles_ s)) mod 2 ^ 32.

Definition graphExists (graph_name : string) (s : ActionExecutor) : bool :=
  bool_decide (is_Some (named_umrf_graphs_ s !! graph_name)).

(** Member calls on [named_umrf_graphs_.at(graph_name)]. *)
Definition on_graph {A} (graph_name : string) (m : Exec UmrfGraph.UmrfGraph A)
  : Exec ActionExecutor A :=
  λ s,
    match named_umrf_graphs_ s !! graph_name with
    | None => Thrown (StdException "map::at") s
    | Some g =>
        match m g with
        | Returned a g' => Returned a (set_graphs (<[graph_name := g']> (named_umrf_graphs_ s)) s)
        | Thrown e g' => Thrown e (set_graphs (<[graph_name := g']> (named_umrf_graphs_ s)) s)
        end
    end.

Fixpoint assign_ids (umrfs_vec : list Umrf) : Exec ActionExecutor (list Umrf) :=
  match umrfs_vec with
  | [] => ret []
  | umrf_json :: rest =>
      (id <- createId ;;
       rest' <- assign_ids rest ;;
       ret (setId id umrf_json :: rest'))%exec
  end.

Definition forward {S A} (origin : string) (e : Exception) : Exec S A :=
  match e with
  | TemotoErrorStack stack => throw (FORWARD_TEMOTO_ERROR_STACK origin stack)
  | StdException _ => throw e   (* no clause catches it *)
  end.

Definition addUmrfGraph (graph_name : string) (umrfs_vec : list Umrf)
  : Exec ActionExecutor unit :=
  try_catch
    (s <- get ;;
     (if graphExists graph_name s
      then discard (CREATE_TEMOTO_ERROR_STACK "ActionExecutor::addUmrfGraph"
                      ("UMRF graph '" ++ graph_name ++ "' is already added"))
      else ret tt) ;;;
     umrfs_vec' <- assign_ids umrfs_vec ;;
     let ugh := UmrfGraph.new graph_name umrfs_vec' in
     if bool_decide (UmrfGraph.checkState ugh = UmrfGraph.UNINITIALIZED)
     then throw (CREATE_TEMOTO_ERROR_STACK "ActionExecutor::addUmrfGraph"
                   "Cannot add UMRF graph because it's uninitialized.")
     else modify (λ s, set_graphs (map_insert graph_name ugh (named_umrf_graphs_ s)) s))%exec
    (forward "ActionExecutor::addUmrfGraph").

(** [ActionExecutor::stopAction].  The modelled [clearAction] does not
    throw, so the two forwarding catch clauses have nothing to forward. *)
Definition stopAction (action_handle_id : N) : Exec ActionExecutor unit :=
  λ s,
    match named_action_handles_ s !! action_handle_id with
    | None => Returned tt s
    | Some h =>
        Returned tt
          (set_handles (delete action_handle_id
                          (<[action_handle_id := ActionHandle.clearAction h]>
                             (named_action_handles_ s)))
             (record_call (Called_clearAction action_handle_id) s))
    end.

Section WithLoader.

Variable load_action : Umrf → option Exception.
Variable start_worker : Umrf → option Exception.

(** The stack frame of [executeById]: the two objects it holds by
    reference (the handle registry and the graph [ugh]), the ghost call
    record, and its three local containers. *)
Record Frame := mkExecFrame {
  handles : HandleMap;
  ugh : UmrfGraph.UmrfGraph;
  calls : list HandleCall;
  action_rollback_list : gset N;
  init_action_ids : gset N;
  named_action_handles_tmp : HandleMap;
}.

(** What the second and the third loop keep, whether they end or throw:
    the ids in the registry and the two id sets. *)
Definition settled (D J : gset N) (fr : Frame) : Prop :=
  dom (handles fr) = D ∧ init_action_ids fr = J ∧ action_rollback_list fr = J.

Definition on_ugh (f : UmrfGraph.UmrfGraph → UmrfGraph.UmrfGraph) : Exec Frame unit :=
  modify (λ fr, mkExecFrame (handles fr) (f (ugh fr)) (calls fr) (action_rollback_list fr)
                        (init_action_ids fr) (named_action_handles_tmp fr)).

Definition rollback_insert (action_id : N) : Exec Frame unit :=
  modify (λ fr, mkExecFrame (handles fr) (ugh fr) (calls fr)
                        ({[action_id]} ∪ action_rollback_list fr)
                        (init_action_ids fr) (named_action_handles_tmp fr)).

Definition erase_handle (action_id : N) : Exec Frame unit :=
  modify (λ fr, mkExecFrame (delete action_id (handles fr)) (ugh fr) (calls fr)
                        (action_rollback_list fr)
                        (init_action_ids fr) (named_action_handles_tmp fr)).

(** [named_action_handles_.at(action_id).method()]: [at] throws
    [std::out_of_range] on a missing key; otherwise the call is recorded
    and the handle keeps what the method did to it. *)
Definition at_handle {A} (action_id : N) (c : HandleCall)
    (method : Exec ActionHandle.ActionHandle A) : Exec Frame A :=
  λ fr,
    match handles fr !! action_id with
    | None => Thrown (StdException "map::at") fr
    | Some h =>
        let put h' := mkExecFrame (<[action_id := h']> (handles fr)) (ugh fr) (calls fr ++ [c])
                              (action_rollback_list fr) (init_action_ids fr)
                              (named_action_handles_tmp fr) in
        match method h with
        | Returned a h' => Returned a (put h')
        | Thrown e h' => Thrown e (put h')
        end
    end.

(** One turn of the first loop: construct the handle and buffer it. *)
Definition load_body (initialized_requrired : bool) (action_id : N) : Exec Frame unit :=
  λ fr,
    match UmrfGraph.getUmrfOf action_id (ugh fr) with
    | None => Thrown (StdException "map::at") fr
    | Some u =>
        let ah := ActionHandle.new u in
        if negb (bool_decide (ActionHandle.getState ah = ActionHandle.INITIALIZED)) then
          if initialized_requrired then
            Thrown (CREATE_TEMOTO_ERROR_STACK "ActionExecutor::executeById"
                      "Cannot execute the actions because all actions were not fully initialized.") fr
          else Returned tt fr
        else
          Returned tt
            (mkExecFrame (handles fr) (ugh fr) (calls fr)
                     ({[ActionHandle.getHandleId ah]} ∪ action_rollback_list fr)
                     ({[ActionHandle.getHandleId ah]} ∪ init_action_ids fr)
                     (map_insert (ActionHandle.getHandleId ah) ah (named_action_handles_tmp fr)))
    end.

(** [named_action_handles_.insert(tmp.begin(), tmp.end())]: ids already in
    the registry keep the handle they have. *)
Definition publish_handles : Exec Frame unit :=
  modify (λ fr, mkExecFrame (handles fr ∪ named_action_handles_tmp fr) (ugh fr) (calls fr)
                        (action_rollback_list fr) (init_action_ids fr)
                        (named_action_handles_tmp fr)).

Definition instantiate_body (action_id : N) : Exec Frame unit :=
  try_catch
    (at_handle action_id (Called_instantiateAction action_id)
       (ActionHandle.instantiateAction load_action) ;;;
     rollback_insert action_id)%exec
    (λ e,
       on_ugh (UmrfGraph.setNodeError action_id) ;;;
       throw (match e with
              | TemotoErrorStack stack =>
                  FORWARD_TEMOTO_ERROR_STACK "ActionExecutor::executeById" stack
              | StdException what =>
                  CREATE_TEMOTO_ERROR_STACK "ActionExecutor::executeById"
                    ("Cannot initialize the actions because: " ++ what)
              end))%exec.

Definition execute_body (action_id : N) : Exec Frame unit :=
  try_catch
    (at_handle action_id (Called_executeActionThread action_id)
       (ActionHandle.executeActionThread start_worker) ;;;
     rollback_insert action_id ;;;
     on_ugh (UmrfGraph.setNodeActive action_id))%exec
    (λ e,
       on_ugh (UmrfGraph.setNodeError action_id) ;;;
       throw (match e with
              | TemotoErrorStack stack =>
                  FORWARD_TEMOTO_ERROR_STACK "ActionExecutor::executeById" stack
              | StdException what =>
                  CREATE_TEMOTO_ERROR_STACK "ActionExecutor::executeById"
                    ("Cannot execute the actions because: " ++ what)
              end))%exec.

(** The three phases of the try block. *)
Definition load_phase (ids : list N) (initialized_requrired : bool) : Exec Frame unit :=
  (for_each (load_body initialized_requrired) ids ;;; publish_handles)%exec.

Definition instantiate_phase : Exec Frame unit :=
  (fr <- get ;; for_each instantiate_body (ascending (init_action_ids fr)))%exec.

Definition execute_phase : Exec Frame unit :=
  (fr <- get ;; for_each execute_body (ascending (init_action_ids fr)))%exec.

Definition rollback_body (action_id : N) : Exec Frame unit :=
  (at_handle action_id (Called_clearAction action_id)
     (λ h, Returned tt (ActionHandle.clearAction h)) ;;;
   erase_handle action_id ;;;
   on_ugh (UmrfGraph.setNodeFinished action_id))%exec.

(** The outer catch clause: only a [TemotoErrorStack] enters it. *)
Definition rollback (e : Exception) : Exec Frame unit :=
  match e with
  | TemotoErrorStack stack =>
      (fr <- get ;;
       for_each rollback_body (ascending (action_rollback_list fr)) ;;;
       throw (FORWARD_TEMOTO_ERROR_STACK "ActionExecutor::executeById" stack))%exec
  | StdException _ => throw e
  end.

Definition executeById_frame (ids : list N) (initialized_requrired : bool)
  : Exec Frame unit :=
  try_catch
    (load_phase ids initialized_requrired ;;; instantiate_phase ;;; execute_phase)%exec
    rollback.

(** What [executeById] works on: the registry, the graph it was handed
    by reference, and the call record. *)
Record Activation := mkActivation {
  act_handles : HandleMap;
  act_ugh : UmrfGraph.UmrfGraph;
  act_calls : list HandleCall;
}.

Definition enter (a : Activation) : Frame :=
  mkExecFrame (act_handles a) (act_ugh a) (act_calls a) ∅ ∅ ∅.

Definition leave (fr : Frame) : Activation :=
  mkActivation (handles fr) (ugh fr) (calls fr).

Definition executeById (ids : list N) (initialized_requrired : bool)
  : Exec Activation unit :=
  λ a,
    match executeById_frame ids initialized_requrired (enter a) with
    | Returned _ fr => Returned tt (leave fr)
    | Thrown e fr => Thrown e (leave fr)
    end.

(** A block that works on the registry and on the graph stored under
    [graph_name], through a reference into [named_umrf_graphs_]. *)
Definition with_graph {A} (graph_name : string) (m : Exec Activation A)
  : Exec ActionExecutor A :=
  λ s,
    match named_umrf_graphs_ s !! graph_name with
    | None => Thrown (StdException "map::at") s
    | Some g =>
        let put a := mkExecutor (act_handles a)
                                (<[graph_name := act_ugh a]> (named_umrf_graphs_ s))
                                (action_handle_id_count_ s) (act_calls a) in
        match m (mkActivation (named_action_handles_ s) g (handle_calls_ s)) with
        | Returned x a => Returned x (put a)
        | Thrown e a => Thrown e (put a)
        end
    end.

Definition on_act_ugh {A} (m : Exec UmrfGraph.UmrfGraph A) : Exec Activation A :=
  λ a,
    match m (act_ugh a) with
    | Returned x g => Returned x (mkActivation (act_handles a) g (act_calls a))
    | Thrown e g => Thrown e (mkActivation (act_handles a) g (act_calls a))
    end.

Definition executeUmrfGraph (graph_name : string) : Exec ActionExecutor unit :=
  try_catch
    (s <- get ;;
     if negb (graphExists graph_name s) then
       throw (CREATE_TEMOTO_ERROR_STACK "ActionExecutor::executeUmrfGraph"
                ("Cannot execute UMRF graph '" ++ graph_name ++ "' because it doesn't exist."))
     else
       with_graph graph_name
         (a <- get ;;
          if negb (bool_decide (UmrfGraph.checkState (act_ugh a) = UmrfGraph.INITIALIZED)) then
            throw (CREATE_TEMOTO_ERROR_STACK "ActionExecutor::executeUmrfGraph"
                     ("Cannot execute UMRF graph '" ++ graph_name
                      ++ "' because it's not in initialized state."))
          else
            let action_ids := UmrfGraph.getRootNodes (act_ugh a) in
            executeById action_ids true))%exec
    (forward "ActionExecutor::executeUmrfGraph").

(** The body of the loop of [notifyFinished] for one stored graph.  The
    third argument of [executeById] is left to its default, [false]. *)
Definition notify_graph (parent_action_id : N) (parent_action_parameters : ActionParameters)
  : Exec Activation unit :=
  (a <- get ;;
   if negb (bool_decide (UmrfGraph.checkState (act_ugh a) = UmrfGraph.ACTIVE))
      || bool_decide (UmrfGraph.getChildrenOf parent_action_id (act_ugh a) = [])
   then ret tt
   else
     for_each
       (λ child_id,
          on_act_ugh
            (UmrfGraph.on_umrf child_id
               (modify (λ child_umrf,
                          (copyInputParameters parent_action_parameters child_umrf).2))) ;;;
          on_act_ugh
            (g <- get ;;
             match UmrfGraph.getUmrfOf parent_action_id g with
             | None => throw (StdException "map::at")
             | Some parent =>
                 UmrfGraph.on_umrf child_id (setParentReceived (asRelation parent))
             end))
       (UmrfGraph.getChildrenOf parent_action_id (act_ugh a)) ;;;
     a' <- get ;;
     executeById (UmrfGraph.getChildrenOf parent_action_id (act_ugh a')) false)%exec.

Definition notifyFinished (parent_action_id : N) (parent_action_parameters : ActionParameters)
  : Exec ActionExecutor unit :=
  try_catch
    (s <- get ;;
     for_each (λ graph_name,
                 with_graph graph_name
                   (notify_graph parent_action_id parent_action_parameters))
              (ascending_names (dom (named_umrf_graphs_ s))))%exec
    (λ e, match e with
          | TemotoErrorStack stack =>
              throw (FORWARD_TEMOTO_ERROR_STACK "ActionExecutor::notifyFinished" stack)
          | StdException what =>
              throw (CREATE_TEMOTO_ERROR_STACK "ActionExecutor::notifyFinished" what)
          end).

(** The first loop of [modifyGraph]: the check of one diff against the
    graph as it is before any diff is applied. *)
Definition validate_diff (graph_name : string) (graph_diff : UmrfGraphDiff)
  : Exec ActionExecutor unit :=
  λ s,
    match named_umrf_graphs_ s !! graph_name with
    | None => Thrown (StdException "map::at") s
    | Some ugh =>
        if bool_decide (operation graph_diff = Operation.add_umrf) then
          if UmrfGraph.partOfGraph_name (getFullName (umrf graph_diff)) ugh then
            Thrown (CREATE_TEMOTO_ERROR_STACK "ActionExecutor::modifyGraph"
                      ("Cannot add UMRF '" ++ getFullName (umrf graph_diff)
                       ++ "', as it is already part of graph '" ++ graph_name ++ "'")) s
          else Returned tt s
        else
          if negb (UmrfGraph.partOfGraph_name (getFullName (umrf graph_diff)) ugh) then
            Thrown (CREATE_TEMOTO_ERROR_STACK "ActionExecutor::modifyGraph"
                      ("Cannot perform operation '" ++ operation graph_diff
                       ++ "' because UMRF graph '" ++ graph_name
                       ++ "' does not contain node named '"
                       ++ getFullName (umrf graph_diff) ++ "'")) s
          else Returned tt s
    end.

(** The second loop of [modifyGraph]: one diff applied. *)
Definition apply_diff (graph_name : string) (graph_diff : UmrfGraphDiff)
  : Exec ActionExecutor unit :=
  if bool_decide (operation graph_diff = Operation.add_umrf) then
    (id <- createId ;;
     on_graph graph_name (UmrfGraph.addUmrf (setId id (umrf graph_diff))))%exec
  else if bool_decide (operation graph_diff = Operation.remove_umrf) then
    (action_handle_id <- on_graph graph_name (UmrfGraph.removeUmrf (umrf graph_diff)) ;;
     stopAction action_handle_id)%exec
  else if bool_decide (operation graph_diff = Operation.add_child) then
    on_graph graph_name (UmrfGraph.addChild (umrf graph_diff))
  else if bool_decide (operation graph_diff = Operation.remove_child) then
    on_graph graph_name (UmrfGraph.removeChild (umrf graph_diff))
  else
    throw (CREATE_TEMOTO_ERROR_STACK "ActionExecutor::modifyGraph"
             ("No such operation as " ++ operation graph_diff)).

Definition modifyGraph (graph_name : string) (graph_diffs : list UmrfGraphDiff)
  : Exec ActionExecutor unit :=
  λ s,
    if negb (graphExists graph_name s) then Returned tt s
    else
      (for_each (validate_diff graph_name) graph_diffs ;;;
       for_each (apply_diff graph_name) graph_diffs)%exec s.

(** [nah_it->second.method()] in the reaper. *)
Definition at_registry {A} (id : N) (c : HandleCall)
    (method : Exec ActionHandle.ActionHandle A) : Exec ActionExecutor A :=
  λ s,
    match named_action_handles_ s !! id with
    | None => Thrown (StdException "map::at") s
    | Some h =>
        let put h' := set_handles (<[id := h']> (named_action_handles_ s)) (record_call c s) in
        match method h with
        | Returned a h' => Returned a (put h')
        | Thrown e h' => Thrown e (put h')
        end
    end.

(** The reaper's treatment of one handle.  The statement that would erase
    the handle is commented out in the source, so nothing here removes the
    entry from the registry. *)
Definition reap_handle (id : N) : Exec ActionExecutor unit :=
  λ s,
    match named_action_handles_ s !! id with
    | None => Returned tt s
    | Some h =>
        if bool_decide (ActionHandle.getState h = ActionHandle.FINISHED)
           && ActionHandle.futureIsReady h
           && bool_decide (ActionHandle.getEffect h = "synchronous")
        then
          try_catch
            (error_message <- at_registry id (Called_getFutureValue id)
                                ActionHandle.getFutureValue ;;
             s' <- get ;;
             for_each
               (λ graph_name,
                  on_graph graph_name
                    (modify (λ g, if negb (UmrfGraph.partOfGraph id g) then g
                                  else UmrfGraph.setNodeFinished id g)))
               (ascending_names (dom (named_umrf_graphs_ s'))) ;;;
             at_registry id (Called_clearAction id)
               (λ h', Returned tt (ActionHandle.clearAction h')))%exec
            (λ e, match e with
                  | TemotoErrorStack _ => ret tt
                  | StdException _ => throw e
                  end) s
        else Returned tt s
    end.

(** One turn of the [while] loop of [cleanupLoop], without the sleep. *)
Definition cleanupLoop_turn : Exec ActionExecutor unit :=
  λ s,
    if negb (bool_decide (named_action_handles_ s = ∅)) then
      (for_each reap_handle (ascending (dom (named_action_handles_ s))) ;;;
       modify (λ s', set_graphs
                       (filter (λ kv, UmrfGraph.checkState kv.2 ≠ UmrfGraph.FINISHED)
                               (named_umrf_graphs_ s')) s'))%exec s
    else Returned tt s.

End WithLoader.

(** One turn of the loop of [stopUmrfGraph]. *)
Definition stop_node (u : Umrf) : Exec ActionExecutor unit :=
  try_catch (stopAction (getId u))
    (λ e, match e with
          | TemotoErrorStack stack =>
              throw (FORWARD_TEMOTO_ERROR_STACK "ActionExecutor::stopUmrfGraph" stack)
          | StdException what =>
              throw (CREATE_TEMOTO_ERROR_STACK "ActionExecutor::stopUmrfGraph" what)
          end).

Definition stopUmrfGraph (graph_name : string) : Exec ActionExecutor unit :=
  λ s,
    match named_umrf_graphs_ s !! graph_name with
    | None =>
        Thrown (CREATE_TEMOTO_ERROR_STACK "ActionExecutor::stopUmrfGraph"
                  ("Cannot stop UMRF graph '" ++ graph_name
                   ++ "' because it doesn't exist.")) s
    | Some g =>
        (for_each stop_node (UmrfGraph.getUmrfs g) ;;;
         modify (λ s', set_graphs (delete graph_name (named_umrf_graphs_ s')) s'))%exec s
    end.

(** One turn of the loop of [updateActionHandles].  Modelled from the
    spec: [getNodeId] on a full name the graph does not hold, which the
    absent [umrf_graph.cpp] decides, is taken to throw an error stack. *)
Definition update_handle (ugh : UmrfGraph.UmrfGraph) (umrf_in : Umrf)
  : Exec ActionExecutor unit :=
  λ s,
    match UmrfGraph.getNodeId (getFullName umrf_in) ugh with
    | None =>
        Thrown (CREATE_TEMOTO_ERROR_STACK "UmrfGraph::getNodeId"
                  ("No node named '" ++ getFullName umrf_in ++ "'")) s
    | Some handle_id =>
        match named_action_handles_ s !! handle_id with
        | None => Returned tt s
        | Some ah =>
            Returned tt
              (set_handles (<[handle_id := ActionHandle.updateUmrf umrf_in ah]>
                              (named_action_handles_ s)) s)
        end
    end.

Definition updateActionHandles (ugh : UmrfGraph.UmrfGraph) (umrf_vec : list Umrf)
  : Exec ActionExecutor unit :=
  try_catch (for_each (update_handle ugh) umrf_vec)
            (forward "ActionExecutor::updateActionHandles").

(** The comparison loop of [updateUmrfGraph] for one stored node. *)
Definition find_equal (graph_name : string) (umrfs_vec : list Umrf) (umrf_existing : Umrf)
  : Exec ActionExecutor unit :=
  if existsb (λ umrf_in, isEqual umrf_existing umrf_in false) umrfs_vec then ret tt
  else
    throw (CREATE_TEMOTO_ERROR_STACK "ActionExecutor::updateUmrfGraph"
             ("Could not update UMRF graph '" ++ graph_name
              ++ "' because incoming graph does not contain UMRF '"
              ++ getFullName umrf_existing ++ "'")).

Definition updateUmrfGraph (graph_name : string) (umrfs_vec : list Umrf)
  : Exec ActionExecutor unit :=
  try_catch
    (λ s,
       match named_umrf_graphs_ s !! graph_name with
       | None =>
           Thrown (CREATE_TEMOTO_ERROR_STACK "ActionExecutor::updateUmrfGraph"
                     ("Could not find UMRF graph '" ++ graph_name ++ "'")) s
       | Some ugh =>
           if negb (Nat.eqb (length umrfs_vec) (length (UmrfGraph.getUmrfs ugh))) then
             Thrown (CREATE_TEMOTO_ERROR_STACK "ActionExecutor::updateUmrfGraph"
                       ("Could not update UMRF graph '" ++ graph_name
                        ++ "' because umrf sizes do not match.")) s
           else
             (for_each (find_equal graph_name umrfs_vec) (UmrfGraph.getUmrfs ugh) ;;;
              updateActionHandles ugh umrfs_vec)%exec s
       end)
    (forward "ActionExecutor::updateUmrfGraph").

(** A diff the first loop of [modifyGraph] refuses on the graph [ugh]. *)
Definition refused (ugh : UmrfGraph.UmrfGraph) (graph_diff : UmrfGraphDiff) : bool :=
  if bool_decide (operation graph_diff = Operation.add_umrf)
  then UmrfGraph.partOfGraph_name (getFullName (umrf graph_diff)) ugh
  else negb (UmrfGraph.partOfGraph_name (getFullName (umrf graph_diff)) ugh).

(** The id a recorded handle call was made on. *)
Definition call_id (c : HandleCall) : N :=
  match c with
  | Called_instantiateAction id => id
  | Called_executeActionThread id => id
  | Called_clearAction id => id
  | Called_getFutureValue id => id
  end.

(** The ids [executeById(ids, ugh, _)] can buffer: the handle ids of the
    nodes of [ids] whose handle reaches [INITIALIZED]. *)
Definition launchable (ids : list N) (g : UmrfGraph.UmrfGraph) (id : N) : Prop :=
  ∃ action_id u,
    action_id ∈ ids
    ∧ UmrfGraph.getUmrfOf action_id g = Some u
    ∧ ActionHandle.getState (ActionHandle.new u) = ActionHandle.INITIALIZED
    ∧ getId u = id.

(** What a call of [executeById] that started on [a] has touched, given
    the ids [R] it can buffer: its three containers hold ids of [R] only;
    the calls recorded since [a] are calls on ids of [R]; outside [R] the
    registry and the node entries of the graph are those of [a]; and no
    node description has changed. *)
Definition confined (R : N → Prop) (a : Activation) (fr : Frame) : Prop :=
  (∀ id, id ∈ init_action_ids fr → R id)
  ∧ (∀ id, id ∈ action_rollback_list fr → R id)
  ∧ (∀ id, id ∈ dom (named_action_handles_tmp fr) → R id)
  ∧ (∃ new_calls,
       calls fr = (act_calls a ++ new_calls)%list ∧ ∀ c, c ∈ new_calls → R (call_id c))
  ∧ (∀ id, ¬ R id → handles fr !! id = act_handles a !! id)
  ∧ (∀ id, ¬ R id →
       UmrfGraph.graph_nodes_ (ugh fr) !! id = UmrfGraph.graph_nodes_ (act_ugh a) !! id)
  ∧ (∀ id, UmrfGraph.getUmrfOf id (ugh fr) = UmrfGraph.getUmrfOf id (act_ugh a)).

(** [id] is the id of a child of [parent_action_id] in [g] all of whose
    required parents have been received. *)
Definition ready_child (parent_action_id : N) (g : UmrfGraph.UmrfGraph) (id : N) : bool :=
  existsb (λ child_id,
             match UmrfGraph.getUmrfOf child_id g with
             | Some child => bool_decide (getId child = id) && requiredParentsFinished child
             | None => false
             end)
          (UmrfGraph.getChildrenOf parent_action_id g).

(** What the loop of [notifyFinished] that hands the parent's output to
    the children keeps of [a]: the registry, the call record, and the
    runtime state and the id of every node. *)
Definition untouched (a a1 : Activation) : Prop :=
  act_handles a1 = act_handles a
  ∧ act_calls a1 = act_calls a
  ∧ (∀ id, UmrfGraph.state_ <$> UmrfGraph.graph_nodes_ (act_ugh a1) !! id
           = UmrfGraph.state_ <$> UmrfGraph.graph_nodes_ (act_ugh a) !! id)
  ∧ (∀ id, getId <$> UmrfGraph.getUmrfOf id (act_ugh a1)
           = getId <$> UmrfGraph.getUmrfOf id (act_ugh a)).

(** [id] is, in one of the graphs [names] that was [ACTIVE] in [s], the
    id of a child of [parent_action_id] that is ready in [s']. *)
Definition ready_child_in (names : list string) (parent_action_id : N)
    (s s' : ActionExecutor) (id : N) : Prop :=
  ∃ graph_name g g',
    graph_name ∈ names
    ∧ named_umrf_graphs_ s !! graph_name = Some g
    ∧ UmrfGraph.checkState g = UmrfGraph.ACTIVE
    ∧ named_umrf_graphs_ s' !! graph_name = Some g'
    ∧ ready_child parent_action_id g' id = true.

(** What the loop of [notifyFinished] over the graphs [names] has done
    when it leaves [s'] from [s]: the other graphs are as they were; the
    handle calls it recorded, and the changes it made to the registry, are
    on ids of ready children; in each graph the runtime state of a node
    has changed only under the id of a ready child; and no node has
    changed its id. *)
Definition notified (names : list string) (parent_action_id : N)
    (s s' : ActionExecutor) : Prop :=
  (∀ graph_name, graph_name ∉ names →
     named_umrf_graphs_ s' !! graph_name = named_umrf_graphs_ s !! graph_name)
  ∧ (∃ new_calls,
       handle_calls_ s' = (handle_calls_ s ++ new_calls)%list
       ∧ ∀ c, c ∈ new_calls → ready_child_in names parent_action_id s s' (call_id c))
  ∧ (∀ id, ¬ ready_child_in names parent_action_id s s' id →
       named_action_handles_ s' !! id = named_action_handles_ s !! id)
  ∧ (∀ graph_name g g' id,
       named_umrf_graphs_ s !! graph_name = Some g →
       named_umrf_graphs_ s' !! graph_name = Some g' →
       (ready_child parent_action_id g' id = false →
        UmrfGraph.state_ <$> UmrfGraph.graph_nodes_ g' !! id
        = UmrfGraph.state_ <$> UmrfGraph.graph_nodes_ g !! id)
       ∧ getId <$> UmrfGraph.getUmrfOf id g' = getId <$> UmrfGraph.getUmrfOf id g).

End ActionExecutor.

(* ===================================================================== *)
(** * Concrete nodes, graphs and executors                                *)
(* ===================================================================== *)

Module Examples.

Import ActionExecutor.

(** A synchronous node without parameters, with a name and a library. *)
Definition node (name : string) (id : N) (parents children : list Relation) : Umrf :=
  mkUmrf name "" "" 0 "" "synchronous" ("lib" ++ name ++ ".so")
         parents children id (name ++ "_0") ∅ ∅.

Definition rel (name : string) : Relation := mkRelation name 0 true false.

(** A loader and a thread launch that never fail. *)
Definition loads : Umrf → option Exception := λ _, None.
Definition starts : Umrf → option Exception := λ _, None.

(** Two running parents [p] and [q], both required by the child [d]. *)
Definition p_node : Umrf := node "p" 0 [] [rel "d"].
Definition q_node : Umrf := node "q" 1 [] [rel "d"].
Definition d_node : Umrf := node "d" 2 [rel "p"; rel "q"] [].

Definition join_graph : UmrfGraph.UmrfGraph :=
  UmrfGraph.setNodeActive 1
    (UmrfGraph.setNodeActive 0 (UmrfGraph.new "join" [p_node; q_node; d_node])).

Definition running (u : Umrf) : ActionHandle.ActionHandle :=
  ActionHandle.mkHandle u ActionHandle.RUNNING true None.

Definition join_executor : ActionExecutor :=
  mkExecutor {[ 0 := running p_node; 1 := running q_node ]}
             {[ "join" := join_graph ]} 3 [].

(** A loader that cannot open any library. *)
Definition refuses : Umrf → option Exception :=
  λ _, Some (CREATE_TEMOTO_ERROR_STACK "ActionHandle::instantiateAction"
               "Failed to load the action library").

(** An executor that stores the one-node graph ["g"]. *)
Definition a_node : Umrf := node "a" 0 [] [].
Definition b_node : Umrf := node "b" 0 [] [].

Definition stored_executor : ActionExecutor :=
  mkExecutor ∅ {[ "g" := UmrfGraph.new "g" [a_node] ]} 1 [].

Definition stored_activation : Activation :=
  mkActivation ∅ (UmrfGraph.new "g" [a_node]) [].

(** An executor whose graph ["g"] has one root, without a library path. *)
Definition bare_node : Umrf :=
  mkUmrf "r" "" "" 0 "" "synchronous" "" [] [] 0 "r_0" ∅ ∅.

Definition bare_executor : ActionExecutor :=
  mkExecutor ∅ {[ "g" := UmrfGraph.new "g" [bare_node] ]} 1 [].

(** Two diffs: a supported one, then one whose operation does not exist. *)
Definition mixed_diffs : list UmrfGraphDiff :=
  [mkDiff Operation.add_umrf b_node; mkDiff "rename_umrf" a_node].

(** A one-node graph whose synchronous node has finished and posted an
    empty (success) message. *)
Definition finished (u : Umrf) : ActionHandle.ActionHandle :=
  ActionHandle.mkHandle u ActionHandle.FINISHED true (Some "").

Definition done_executor : ActionExecutor :=
  mkExecutor {[ 0 := finished a_node ]}
             {[ "g" := UmrfGraph.setNodeActive 0 (UmrfGraph.new "g" [a_node]) ]} 1 [].

(** An updatable number parameter, and an incoming string parameter of
    the same name. *)
Definition speed_number : ParameterBody := mkParam "number" true true ∅ "1".
Definition speed_string : ParameterBody := mkParam "string" false false {["fast"]} "fast".

Definition with_inputs (ps : ActionParameters) : Umrf :=
  set_input_parameters_ ps a_node.

(** Two nodes that differ only in their parent vectors: [p, q] and [p, p]. *)
Definition pq_node : Umrf := node "n" 0 [rel "p"; rel "q"] [].
Definition pp_node : Umrf := node "n" 0 [rel "p"; rel "p"] [].
Definition qp_node : Umrf := node "n" 0 [rel "q"; rel "p"] [].

(** A graph whose first root is ready and whose second is not. *)
Definition half_ready_activation : Activation :=
  mkActivation ∅ (UmrfGraph.new "h" [a_node; setId 1 bare_node]) [].

(** An incoming node whose only parameter has no updatable namesake. *)
Definition speed_fixed : ParameterBody := mkParam "number" true false ∅ "1".

End Examples.

(* ===================================================================== *)
(** * Properties                                                          *)
(* ===================================================================== *)

Import ActionExecutor Examples.
Local Open Scope list_scope.

(* ===================================================================== *)
(** * Relations and the parent marker                                     *)
(* ===================================================================== *)

Section RelationFacts.

Implicit Types (r x y z : Relation) (v : list Relation).

Lemma Relation_eqb_refl r : Relation_eqb r r = true.
Proof. unfold Relation_eqb. by rewrite !bool_decide_eq_true_2. Qed.

Lemma Relation_eqb_true x y :
  Relation_eqb x y = true ↔ rel_name x = rel_name y ∧ rel_suffix x = rel_suffix y.
Proof.
  unfold Relation_eqb. rewrite andb_true_iff, !bool_decide_eq_true. tauto.
Qed.

Lemma Relation_eqb_sym x y : Relation_eqb x y = Relation_eqb y x.
Proof.
  apply eq_true_iff_eq. rewrite !Relation_eqb_true. intuition congruence.
Qed.

Lemma Relation_eqb_trans x y z :
  Relation_eqb x y = true → Relation_eqb y z = true → Relation_eqb x z = true.
Proof. rewrite !Relation_eqb_true. intuition congruence. Qed.

Lemma found_true v r : found v r = true ↔ ∃ x, x ∈ v ∧ Relation_eqb x r = true.
Proof.
  unfold found. rewrite existsb_exists.
  split; intros (x & Hx & He); exists x; split; auto; by apply list_elem_of_In.
Qed.

Lemma mark_received_none v r : found v r = false → mark_received r v = None.
Proof.
  induction v as [|x v IH]; simpl; [done|].
  destruct (Relation_eqb x r); simpl; [done|].
  intros H. by rewrite IH.
Qed.

Lemma mark_received_some v r :
  found v r = true →
  ∃ before p after,
    v = before ++ p :: after
    ∧ Forall (λ x, Relation_eqb x r = false) before
    ∧ Relation_eqb p r = true
    ∧ mark_received r v
      = Some (before ++ mkRelation (rel_name p) (rel_suffix p) (rel_required p) true :: after).
Proof.
  induction v as [|x v IH]; simpl; [done|].
  destruct (Relation_eqb x r) eqn:Hx; simpl.
  - intros _. by exists [], x, v.
  - intros H. destruct (IH H) as (before & p & after & -> & Hb & Hp & Hm).
    exists (x :: before), p, after. rewrite Hm. split_and!; auto.
Qed.

Lemma mark_received_again before p after r :
  Forall (λ x, Relation_eqb x r = false) before →
  Relation_eqb p r = true →
  let p' := mkRelation (rel_name p) (rel_suffix p) (rel_required p) true in
  mark_received r (before ++ p' :: after) = Some (before ++ p' :: after).
Proof.
  intros Hb Hp. induction Hb as [|x before Hx Hb IH]; simpl.
  - assert (Relation_eqb (mkRelation (rel_name p) (rel_suffix p) (rel_required p) true) r
            = true) as ->; [|done].
    apply Relation_eqb_true. by apply Relation_eqb_true in Hp.
  - rewrite Hx. simpl in IH. by rewrite IH.
Qed.

End RelationFacts.

(** C10.  [setParentReceived(parent)] on a node whose parents vector holds
    a relation equal to [parent] returns normally, sets [received] on the
    first such relation and on nothing else, and a second call with the
    same relation changes nothing; on a node without such a relation it
    throws "The parent does not exist" and leaves the node as it was. *)
Theorem setParentReceived_marks_first_or_throws (self : Umrf) (parent : Relation) :
  (found (parents_ self) parent = true →
   ∃ before p after,
     parents_ self = before ++ p :: after
     ∧ Forall (λ x, Relation_eqb x parent = false) before
     ∧ Relation_eqb p parent = true
     ∧ let self' :=
         set_parents_
           (before ++ mkRelation (rel_name p) (rel_suffix p) (rel_required p) true :: after)
           self in
       setParentReceived parent self = Returned tt self'
       ∧ setParentReceived parent self' = Returned tt self')
  ∧ (found (parents_ self) parent = false →
     setParentReceived parent self
     = Thrown (CREATE_TEMOTO_ERROR_STACK "Umrf::setParentReceived"
                 "The parent does not exist") self).
Proof.
  split; intros H.
  - destruct (mark_received_some _ _ H) as (before & p & after & Hv & Hb & Hp & Hm).
    exists before, p, after. do 3 (split; [done|]). cbv zeta. split.
    + unfold setParentReceived. by rewrite Hm.
    + unfold setParentReceived. simpl. by rewrite mark_received_again.
  - unfold setParentReceived. by rewrite mark_received_none.
Qed.

Lemma setParentReceived_marks_first_or_throws_witness :
  (∃ before p after,
     parents_ d_node = before ++ p :: after
     ∧ Forall (λ x, Relation_eqb x (rel "q") = false) before
     ∧ Relation_eqb p (rel "q") = true
     ∧ let self' :=
         set_parents_
           (before ++ mkRelation (rel_name p) (rel_suffix p) (rel_required p) true :: after)
           d_node in
       setParentReceived (rel "q") d_node = Returned tt self'
       ∧ setParentReceived (rel "q") self' = Returned tt self')
  ∧ setParentReceived (rel "x") d_node
    = Thrown (CREATE_TEMOTO_ERROR_STACK "Umrf::setParentReceived"
                "The parent does not exist") d_node.
Proof.
  split.
  - apply (setParentReceived_marks_first_or_throws d_node (rel "q")). reflexivity.
  - apply (setParentReceived_marks_first_or_throws d_node (rel "x")). reflexivity.
Defined.

(* ===================================================================== *)
(** * Structural equality of nodes                                        *)
(* ===================================================================== *)

Section ParameterFacts.

Implicit Types (p q r : ParameterContainer) (a b c : ActionParameters).

Lemma isEqualNoDataNoUpdate_true p q :
  isEqualNoDataNoUpdate p q = true
  ↔ p.1 = q.1 ∧ pc_type p.2 = pc_type q.2 ∧ pc_required p.2 = pc_required q.2
    ∧ pc_allowed p.2 = pc_allowed q.2.
Proof.
  unfold isEqualNoDataNoUpdate. rewrite !andb_true_iff, !bool_decide_eq_true. tauto.
Qed.

Lemma isEqualNoData_true p q :
  isEqualNoData p q = true
  ↔ isEqualNoDataNoUpdate p q = true ∧ pc_updatable p.2 = pc_updatable q.2.
Proof. unfold isEqualNoData. by rewrite andb_true_iff, bool_decide_eq_true. Qed.

(** The comparison [isEqual] picks for input parameters. *)
Lemma shape_eq_refl (check_updatable : bool) p :
  (if check_updatable then isEqualNoData p p else isEqualNoDataNoUpdate p p) = true.
Proof.
  destruct check_updatable; rewrite ?isEqualNoData_true, ?isEqualNoDataNoUpdate_true; auto.
Qed.

Lemma shape_eq_sym (check_updatable : bool) p q :
  (if check_updatable then isEqualNoData p q else isEqualNoDataNoUpdate p q) = true →
  (if check_updatable then isEqualNoData q p else isEqualNoDataNoUpdate q p) = true.
Proof.
  destruct check_updatable; rewrite ?isEqualNoData_true, ?isEqualNoDataNoUpdate_true;
    intuition congruence.
Qed.

Lemma shape_eq_trans (check_updatable : bool) p q r :
  (if check_updatable then isEqualNoData p q else isEqualNoDataNoUpdate p q) = true →
  (if check_updatable then isEqualNoData q r else isEqualNoDataNoUpdate q r) = true →
  (if check_updatable then isEqualNoData p r else isEqualNoDataNoUpdate p r) = true.
Proof.
  destruct check_updatable; rewrite ?isEqualNoData_true, ?isEqualNoDataNoUpdate_true;
    intuition congruence.
Qed.

(** A loop over a parameter bag that returns [false] at the first failing
    parameter succeeds iff every stored parameter passes. *)
Lemma forallb_getParameters (f : ParameterContainer → bool) a :
  forallb f (getParameters a) = true ↔ ∀ n body, a !! n = Some body → f (n, body) = true.
Proof.
  unfold getParameters. rewrite forallb_forall. split.
  - intros H n body Hn. apply H, list_elem_of_In. by apply elem_of_map_to_list.
  - intros H [n body] Hin. apply H. by apply elem_of_map_to_list, list_elem_of_In.
Qed.

(** Two bags of the same size, the first contained in the second by name,
    have the same names. *)
Lemma same_names a b n :
  size a = size b →
  (∀ k, is_Some (a !! k) → is_Some (b !! k)) →
  is_Some (b !! n) → is_Some (a !! n).
Proof.
  intros Hsize Hsub Hn.
  assert (dom a ≡ dom b) as Hdom.
  { apply set_subseteq_size_equiv.
    - intros k. rewrite !elem_of_dom. apply Hsub.
    - rewrite !size_dom. lia. }
  apply elem_of_dom. rewrite Hdom. by apply elem_of_dom.
Qed.

End ParameterFacts.

Lemma if_negb_false (c x : bool) : (if negb c then false else x) = c && x.
Proof. by destruct c. Qed.

(** [isEqual] unfolded: what has to hold for it to reach [return true]. *)
Lemma isEqual_true (self umrf_in : Umrf) (check_updatable : bool) :
  isEqual self umrf_in check_updatable = true
  ↔ (name_ self = name_ umrf_in ∧ suffix_ self = suffix_ umrf_in
     ∧ notation_ self = notation_ umrf_in ∧ effect_ self = effect_ umrf_in)
    ∧ (length (children_ self) = length (children_ umrf_in)
       ∧ length (parents_ self) = length (parents_ umrf_in))
    ∧ (∀ r, r ∈ parents_ umrf_in → found (parents_ self) r = true)
    ∧ (∀ r, r ∈ children_ umrf_in → found (children_ self) r = true)
    ∧ (size (input_parameters_ self) = size (input_parameters_ umrf_in)
       ∧ size (output_parameters_ self) = size (output_parameters_ umrf_in))
    ∧ (∀ n body, input_parameters_ self !! n = Some body →
         ∃ other, input_parameters_ umrf_in !! n = Some other
                  ∧ (if check_updatable then isEqualNoData (n, body) (n, other)
                     else isEqualNoDataNoUpdate (n, body) (n, other)) = true)
    ∧ (∀ n body, output_parameters_ self !! n = Some body →
         ∃ other, output_parameters_ umrf_in !! n = Some other
                  ∧ isEqualNoData (n, body) (n, other) = true).
Proof.
  unfold isEqual, getParameterCount, getInputParameters, getOutputParameters.
  rewrite <- !negb_andb, !if_negb_false, !andb_true_iff.
  rewrite !bool_decide_eq_true, !Nat.eqb_eq, !forallb_getParameters, !forallb_forall.
  split.
  - intros ((((? & ?) & ?) & ?) & ? & Hp & Hc & ? & Hi & Ho).
    do 2 (split; [done|]). split; [|split; [|split; [done|split]]].
    + intros r Hr. by apply Hp, list_elem_of_In.
    + intros r Hr. by apply Hc, list_elem_of_In.
    + intros n body Hn. specialize (Hi n body Hn). simpl in Hi.
      destruct (input_parameters_ umrf_in !! n); [eauto|done].
    + intros n body Hn. specialize (Ho n body Hn). simpl in Ho.
      destruct (output_parameters_ umrf_in !! n); [eauto|done].
  - intros ((? & ? & ? & ?) & ? & Hp & Hc & ? & Hi & Ho).
    do 2 (split; [done|]). split; [|split; [|split; [done|split]]].
    + intros r Hr. by apply Hp, list_elem_of_In.
    + intros r Hr. by apply Hc, list_elem_of_In.
    + intros n body Hn. destruct (Hi n body Hn) as (other & Ho' & He).
      simpl. by rewrite Ho'.
    + intros n body Hn. destruct (Ho n body Hn) as (other & Ho' & He).
      simpl. by rewrite Ho'.
Qed.

Section IsEqualFacts.

Variable check_updatable : bool.

Lemma isEqual_refl (a : Umrf) : isEqual a a check_updatable = true.
Proof.
  apply isEqual_true. do 2 (split; [done|]). split; [|split; [|split; [done|split]]].
  - intros r Hr. apply found_true. exists r. split; [done|apply Relation_eqb_refl].
  - intros r Hr. apply found_true. exists r. split; [done|apply Relation_eqb_refl].
  - intros n body Hn. exists body. split; [done|apply shape_eq_refl].
  - intros n body Hn. exists body. split; [done|apply (shape_eq_refl true)].
Qed.

Lemma found_trans (u v w : list Relation) :
  (∀ r, r ∈ v → found u r = true) → (∀ r, r ∈ w → found v r = true) →
  ∀ r, r ∈ w → found u r = true.
Proof.
  intros Huv Hvw r Hr.
  destruct (proj1 (found_true _ _) (Hvw r Hr)) as (y & Hy & Hyr).
  destruct (proj1 (found_true _ _) (Huv y Hy)) as (x & Hx & Hxy).
  apply found_true. exists x. split; [done|]. by eapply Relation_eqb_trans.
Qed.

Lemma isEqual_trans (a b c : Umrf) :
  isEqual a b check_updatable = true → isEqual b c check_updatable = true →
  isEqual a c check_updatable = true.
Proof.
  rewrite !isEqual_true.
  intros ((? & ? & ? & ?) & (? & ?) & Hp1 & Hc1 & (? & ?) & Hi1 & Ho1)
         ((? & ? & ? & ?) & (? & ?) & Hp2 & Hc2 & (? & ?) & Hi2 & Ho2).
  split; [split_and!; congruence|]. split; [split; congruence|].
  split; [by eapply found_trans|]. split; [by eapply found_trans|].
  split; [split; congruence|]. split.
  - intros n body Hn. destruct (Hi1 n body Hn) as (q & Hq & E1).
    destruct (Hi2 n q Hq) as (r & Hr & E2). exists r. split; [done|].
    by eapply shape_eq_trans.
  - intros n body Hn. destruct (Ho1 n body Hn) as (q & Hq & E1).
    destruct (Ho2 n q Hq) as (r & Hr & E2). exists r. split; [done|].
    by eapply (shape_eq_trans true).
Qed.

(** A vector without two relations of the same key, contained in a vector
    of the same length, contains it. *)
Lemma found_sym (u v : list Relation) :
  NoDup (relation_key <$> v) → length u = length v →
  (∀ r, r ∈ v → found u r = true) → ∀ r, r ∈ u → found v r = true.
Proof.
  intros Hnd Hlen Hvu r Hr.
  assert (∀ k, In k (relation_key <$> v) → In k (relation_key <$> u)) as Hincl.
  { intros k Hk. apply list_elem_of_In, list_elem_of_fmap in Hk as (y & -> & Hy).
    destruct (proj1 (found_true _ _) (Hvu y Hy)) as (x & Hx & Hxy).
    apply list_elem_of_In, list_elem_of_fmap. exists x. split; [|done].
    apply Relation_eqb_true in Hxy as [? ?]. unfold relation_key. congruence. }
  assert (In (relation_key r) (relation_key <$> v)) as Hin.
  { eapply (NoDup_length_incl (l := relation_key <$> v)); [| |exact Hincl|].
    - by apply NoDup_ListNoDup.
    - rewrite !length_fmap. lia.
    - apply list_elem_of_In, list_elem_of_fmap. eauto. }
  apply list_elem_of_In, list_elem_of_fmap in Hin as (y & Hk & Hy).
  apply found_true. exists y. split; [done|].
  apply Relation_eqb_true. unfold relation_key in Hk. by inversion Hk.
Qed.

Lemma parameters_sym (E : ParameterContainer → ParameterContainer → bool)
    (a b : ActionParameters) :
  (∀ n p q, E (n, p) (n, q) = true → E (n, q) (n, p) = true) →
  size a = size b →
  (∀ n p, a !! n = Some p → ∃ q, b !! n = Some q ∧ E (n, p) (n, q) = true) →
  ∀ n q, b !! n = Some q → ∃ p, a !! n = Some p ∧ E (n, q) (n, p) = true.
Proof.
  intros HE Hsize Hab n q Hq.
  destruct (same_names a b n Hsize) as [p Hp]; [|eauto|].
  { intros k [p Hp]. destruct (Hab k p Hp) as (? & ? & ?). eauto. }
  exists p. split; [done|]. destruct (Hab n p Hp) as (q' & Hq' & He).
  apply HE. congruence.
Qed.

Lemma isEqual_sym (a b : Umrf) :
  NoDup (relation_key <$> parents_ b) → NoDup (relation_key <$> children_ b) →
  isEqual a b check_updatable = true → isEqual b a check_updatable = true.
Proof.
  intros Hndp Hndc. rewrite !isEqual_true.
  intros ((? & ? & ? & ?) & (? & ?) & Hp & Hc & (? & ?) & Hi & Ho).
  split; [split_and!; congruence|]. split; [split; congruence|].
  split; [by apply found_sym|]. split; [by apply found_sym|].
  split; [split; congruence|]. split.
  - apply (parameters_sym
             (λ p q, if check_updatable then isEqualNoData p q
                     else isEqualNoDataNoUpdate p q)); auto.
    intros n p q. apply shape_eq_sym.
  - apply (parameters_sym isEqualNoData); auto.
    intros n p q. apply (shape_eq_sym true).
Qed.

End IsEqualFacts.

(** C8.  [isEqual] is not symmetric.  The nodes [pq_node] and [pp_node]
    agree on everything but their parents vectors, [p, q] and [p, p].
    Both vectors have two elements and each element of [p, p] is found in
    [p, q], so [pq_node.isEqual(pp_node)] is true; [q] is not found in
    [p, p], so [pp_node.isEqual(pq_node)] is false.  This holds with and
    without the updatability check. *)
Theorem isEqual_not_symmetric :
  isEqual pq_node pp_node true = true ∧ isEqual pp_node pq_node true = false
  ∧ isEqual pq_node pp_node false = true ∧ isEqual pp_node pq_node false = false.
Proof. vm_compute. by repeat split. Qed.

(** X22.  What holds of the equivalence: with and without the
    updatability check, [isEqual] is reflexive and transitive on all
    nodes, and [isEqual a b] implies [isEqual b a] whenever neither the
    parents vector nor the children vector of [b] holds two relations
    with the same name and suffix. *)
Theorem isEqual_equivalence_without_duplicate_relations (check_updatable : bool) :
  (∀ a, isEqual a a check_updatable = true)
  ∧ (∀ a b,
       NoDup (relation_key <$> parents_ b) → NoDup (relation_key <$> children_ b) →
       isEqual a b check_updatable = true → isEqual b a check_updatable = true)
  ∧ (∀ a b c,
       isEqual a b check_updatable = true → isEqual b c check_updatable = true →
       isEqual a c check_updatable = true).
Proof.
  split; [apply isEqual_refl|]. split; [apply isEqual_sym|apply isEqual_trans].
Qed.

Lemma isEqual_equivalence_without_duplicate_relations_witness :
  isEqual pq_node qp_node false = true ∧ isEqual pq_node pq_node false = true.
Proof.
  split.
  - apply (proj1 (proj2 (isEqual_equivalence_without_duplicate_relations false))
             qp_node pq_node).
    + apply (bool_decide_unpack _). by vm_compute.
    + apply (bool_decide_unpack _). by vm_compute.
    + reflexivity.
  - apply (proj2 (proj2 (isEqual_equivalence_without_duplicate_relations false))
             pq_node qp_node pq_node); reflexivity.
Defined.

(* ===================================================================== *)
(** * Parameter updates                                                   *)
(* ===================================================================== *)

Section UpdateFacts.

Implicit Types (self : Umrf) (l : list ParameterContainer).

(** What the loop of [updateInputParams] leaves under each name, for any
    list of incoming parameters with distinct names. *)
Lemma update_loop_lookup l :
  NoDup l.*1 → ∀ updated self name,
  input_parameters_
    (foldl (λ acc p, updateInputParams_body p acc) (updated, self) l).2 !! name
  = match input_parameters_ self !! name, (list_to_map l : ActionParameters) !! name with
    | Some existing, Some incoming =>
        if pc_updatable existing then Some incoming else Some existing
    | existing, _ => existing
    end.
Proof.
  induction l as [|[k incoming] l IH]; intros Hnd updated self name; simpl.
  { rewrite lookup_empty. by destruct (_ !! name). }
  apply NoDup_cons in Hnd as [Hk Hnd].
  assert ((list_to_map l : ActionParameters) !! k = None) as Hfresh.
  { by apply not_elem_of_list_to_map_1. }
  unfold getName; simpl.
  destruct (input_parameters_ self !! k) as [existing|] eqn:Hself.
  - destruct (pc_updatable existing) eqn:Hupd; simpl; rewrite IH by done; simpl.
    + destruct (decide (k = name)) as [->|Hne].
      * rewrite !lookup_insert_eq, Hfresh, Hself, Hupd. by destruct (pc_updatable _).
      * by rewrite !lookup_insert_ne.
    + destruct (decide (k = name)) as [->|Hne].
      * by rewrite Hfresh, Hself, Hupd, lookup_insert_eq.
      * by rewrite lookup_insert_ne.
  - rewrite IH by done. destruct (decide (k = name)) as [->|Hne].
    + by rewrite Hfresh, Hself.
    + by rewrite lookup_insert_ne.
Qed.

(** The returned flag: set as soon as one incoming parameter finds an
    updatable parameter of its name. *)
Lemma update_loop_flag l :
  NoDup l.*1 → ∀ updated self,
  (foldl (λ acc p, updateInputParams_body p acc) (updated, self) l).1
  = updated
    || existsb (λ p : ParameterContainer,
                  match input_parameters_ self !! p.1 with
                  | Some existing => pc_updatable existing
                  | None => false
                  end) l.
Proof.
  induction l as [|[k incoming] l IH]; intros Hnd updated self; simpl.
  { by rewrite orb_false_r. }
  apply NoDup_cons in Hnd as [Hk Hnd]. unfold getName.
  simpl.
  destruct (input_parameters_ self !! k) as [existing|] eqn:Hself.
  - destruct (pc_updatable existing) eqn:Hupd; simpl; rewrite IH by done; simpl.
    + by destruct updated.
    + done.
  - by rewrite IH.
Qed.

(** The loop touches nothing but the input parameters. *)
Lemma update_loop_frame l updated self :
  let self' := (foldl (λ acc p, updateInputParams_body p acc) (updated, self) l).2 in
  self' = set_input_parameters_ (input_parameters_ self') self.
Proof.
  revert updated self. induction l as [|[k incoming] l IH]; intros updated self; simpl.
  { by destruct self. }
  unfold getName; simpl.
  destruct (input_parameters_ self !! k) as [existing|]; [|apply IH].
  destruct (pc_updatable existing); simpl; [|apply IH].
  etrans; [apply IH|]. by destruct self.
Qed.

End UpdateFacts.

(** The counterexample: an incoming string parameter silently replaces
    the updatable number parameter of the same name, and the call returns
    normally. *)
Lemma updateInputParams_replaces_across_shapes :
  let self := with_inputs {[ "speed" := speed_number ]} in
  let umrf_in := with_inputs {[ "speed" := speed_string ]} in
  isEqualNoDataNoUpdate ("speed", speed_number) ("speed", speed_string) = false
  ∧ updateInputParams umrf_in self = (true, umrf_in).
Proof. vm_compute. by split. Qed.

(** C6, as amended.  [updateInputParams] replaces an existing input
    parameter by the incoming parameter of the same name exactly when the
    existing one is updatable, whatever the shape of the incoming one; it
    leaves every other parameter and every other field of the node alone,
    and returns whether some parameter was replaced. *)
Theorem updateInputParams_replaces_updatable_namesakes (umrf_in self : Umrf) :
  let result := updateInputParams umrf_in self in
  (∀ name,
     input_parameters_ result.2 !! name
     = match input_parameters_ self !! name, input_parameters_ umrf_in !! name with
       | Some existing, Some incoming =>
           if pc_updatable existing then Some incoming else Some existing
       | existing, _ => existing
       end)
  ∧ (result.1 = true
     ↔ ∃ name existing incoming,
         input_parameters_ self !! name = Some existing
         ∧ pc_updatable existing = true
         ∧ input_parameters_ umrf_in !! name = Some incoming)
  ∧ result.2 = set_input_parameters_ (input_parameters_ result.2) self.
Proof.
  unfold updateInputParams, getParameters, getInputParameters. cbv zeta.
  pose proof (NoDup_fst_map_to_list (input_parameters_ umrf_in)) as Hnd.
  split; [|split].
  - intros name. rewrite update_loop_lookup by done. by rewrite list_to_map_to_list.
  - rewrite update_loop_flag by done. simpl. rewrite existsb_exists. split.
    + intros ([name incoming] & Hin & Hupd). simpl in Hupd.
      destruct (input_parameters_ self !! name) as [existing|] eqn:Hself; [|done].
      exists name, existing, incoming. split_and!; auto.
      by apply elem_of_map_to_list, list_elem_of_In.
    + intros (name & existing & incoming & Hself & Hupd & Hin).
      exists (name, incoming). simpl. rewrite Hself. split; [|done].
      by apply list_elem_of_In, elem_of_map_to_list.
  - apply update_loop_frame.
Qed.

(* ===================================================================== *)
(** * The wrapped execution of an action                                  *)
(* ===================================================================== *)

Section ActionBaseFacts.

Context {UmrfNode : Type} (UmrfNode_default : UmrfNode).
Variable executeAction : UmrfNode → bool → option ActionBase.Escaped * UmrfNode.

Local Abbreviation after := (ActionBase.after UmrfNode UmrfNode_default executeAction).
Local Abbreviation perform := (ActionBase.perform UmrfNode executeAction).
Local Abbreviation executeActionWrapped := (ActionBase.executeActionWrapped UmrfNode executeAction).

Lemma after_snoc history c : after (history ++ [c]) = perform (after history) c.
Proof. unfold ActionBase.after. by rewrite foldl_app. Qed.

(** Without a call of [setUmrf] the object stays uninitialised and the
    body of [executeAction] is never entered. *)
Lemma never_set_invariant history :
  forallb (λ c, negb (ActionBase.is_setUmrf c)) history = true →
  ActionBase.umrf_set_ (after history) = false
  ∧ ActionBase.body_entered (after history) = 0%nat.
Proof.
  induction history as [|c history IH] using rev_ind; [done|].
  rewrite forallb_app, andb_true_iff. simpl. rewrite andb_true_r.
  intros [Hh Hc]. destruct (IH Hh) as [Hset Hbody]. rewrite after_snoc.
  destruct c; simpl in *; try done.
  unfold ActionBase.executeActionWrapped, ActionBase.isInitialized.
  by rewrite Hset.
Qed.

(** Once [setUmrf] has been called the object stays initialised. *)
Lemma once_set_invariant history :
  existsb ActionBase.is_setUmrf history = true →
  ActionBase.umrf_set_ (after history) = true.
Proof.
  induction history as [|c history IH] using rev_ind; [done|].
  rewrite existsb_app, orb_true_iff, after_snoc. simpl. rewrite orb_false_r.
  destruct c; simpl; try done.
  - intros [Hh|?]; [|done]. by apply IH.
  - intros [Hh|?]; [|done]. specialize (IH Hh).
    unfold ActionBase.executeActionWrapped, ActionBase.isInitialized. rewrite IH. simpl.
    destruct (executeAction _ _) as [[[]|] node]; simpl; done.
Qed.

End ActionBaseFacts.

(** C9.  On an object that has seen no call of [setUmrf],
    [executeActionWrapped] throws the "UMRF is uninitialised" error stack
    and the body of [executeAction] has never been entered; on an object
    that has seen one, it enters the body once, returns when the body
    returns, and throws an error stack, never the raw exception, when
    the body throws: the escaped stack with a frame prepended, or a fresh
    stack carrying [what()] or "Caught an unhandled error.". *)
Theorem executeActionWrapped_guards_and_wraps
    (UmrfNode : Type) (UmrfNode_default : UmrfNode)
    (executeAction : UmrfNode → bool → option ActionBase.Escaped * UmrfNode)
    (history : list (ActionBase.Call UmrfNode)) :
  let a := ActionBase.after UmrfNode UmrfNode_default executeAction history in
  let run := ActionBase.executeActionWrapped UmrfNode executeAction a in
  (forallb (λ c, negb (ActionBase.is_setUmrf c)) history = true →
   run = Thrown (CREATE_TEMOTO_ERROR_STACK "ActionBase::executeActionWrapped"
                   "Failed to execute the action because the UMRF is uninitialised") a
   ∧ ActionBase.body_entered (state_of run) = 0%nat)
  ∧ (existsb ActionBase.is_setUmrf history = true →
     let body := executeAction (ActionBase.umrf_node_ a) (negb (ActionBase.STOP_REQUESTED_ a)) in
     let a' := ActionBase.mkActionBase (ActionBase.STOP_REQUESTED_ a) body.2 true
                 (S (ActionBase.body_entered a)) in
     run = match body.1 with
           | None => Returned tt a'
           | Some (ActionBase.EscapedErrorStack stack) =>
               Thrown (TemotoErrorStack
                         (mkFrame "ActionBase::executeActionWrapped" "" :: stack)) a'
           | Some (ActionBase.EscapedStdException what) =>
               Thrown (TemotoErrorStack
                         [mkFrame "ActionBase::executeActionWrapped" what]) a'
           | Some ActionBase.EscapedOther =>
               Thrown (TemotoErrorStack
                         [mkFrame "ActionBase::executeActionWrapped"
                                  "Caught an unhandled error."]) a'
           end).
Proof.
  intros a run. split.
  - intros H. destruct (never_set_invariant UmrfNode_default executeAction history H)
      as [Hset Hbody].
    subst run. unfold ActionBase.executeActionWrapped, ActionBase.isInitialized.
    fold a in Hset, Hbody. rewrite Hset. simpl. done.
  - intros H. pose proof (once_set_invariant UmrfNode_default executeAction history H) as Hset.
    fold a in Hset. subst run. cbv zeta.
    unfold ActionBase.executeActionWrapped, ActionBase.isInitialized, ActionBase.actionOk.
    rewrite Hset. simpl.
    destruct (executeAction _ _) as [[[]|] node]; simpl; done.
Qed.

Lemma executeActionWrapped_guards_and_wraps_witness :
  let body : () → bool → option ActionBase.Escaped * () :=
    λ _ _, (Some ActionBase.EscapedOther, ()) in
  has_thrown (ActionBase.executeActionWrapped () body (ActionBase.after () () body [])) = true
  ∧ ActionBase.executeActionWrapped () body
      (ActionBase.after () () body [ActionBase.CallSetUmrf ()])
    = Thrown (TemotoErrorStack [mkFrame "ActionBase::executeActionWrapped"
                                        "Caught an unhandled error."])
             (ActionBase.mkActionBase false () true 1).
Proof.
  intros body. split.
  - destruct (proj1 (executeActionWrapped_guards_and_wraps () () body []) eq_refl)
      as [-> _].
    reflexivity.
  - apply (proj2 (executeActionWrapped_guards_and_wraps () () body
                    [ActionBase.CallSetUmrf ()]) eq_refl).
Defined.

(* ===================================================================== *)
(** * Loops and ascending iteration                                       *)
(* ===================================================================== *)

Lemma elem_of_ascending (s : gset N) (id : N) : id ∈ ascending s ↔ id ∈ s.
Proof. unfold ascending. by rewrite merge_sort_Permutation, elem_of_elements. Qed.

Lemma NoDup_ascending (s : gset N) : NoDup (ascending s).
Proof. unfold ascending. rewrite merge_sort_Permutation. apply NoDup_elements. Qed.

(** A loop keeps what each turn keeps, whether it ends or throws, and
    throws only what a turn throws. *)
Lemma for_each_invariant {S B} (body : B → Exec S unit) (l : list B)
    (I : S → Prop) (Q : Exception → Prop) :
  (∀ x s, x ∈ l → I s →
     match body x s with
     | Returned _ s' => I s'
     | Thrown e s' => I s' ∧ Q e
     end) →
  ∀ s, I s →
    match for_each body l s with
    | Returned _ s' => I s'
    | Thrown e s' => I s' ∧ Q e
    end.
Proof.
  induction l as [|x l IH]; intros Hbody s Hs; simpl; [done|].
  unfold bind. pose proof (Hbody x s (list_elem_of_here _ _) Hs) as Hx.
  destruct (body x s) as [[] s'|e s']; [|done].
  apply IH; [|done]. intros y t Hy. apply Hbody. by right.
Qed.

(* ===================================================================== *)
(** * The transactional activation                                        *)
(* ===================================================================== *)

Lemma dom_map_insert {V} (k : N) (v : V) (m : gmap N V) :
  dom (map_insert k v m) = {[k]} ∪ dom m.
Proof.
  unfold map_insert. destruct (m !! k) eqn:Hk.
  - apply (elem_of_dom_2 (D := gset N)) in Hk. set_solver.
  - by rewrite dom_insert_L.
Qed.

Section ExecuteByIdFacts.

Variable load_action : Umrf → option Exception.
Variable start_worker : Umrf → option Exception.

Local Abbreviation instantiate_body := (ActionExecutor.instantiate_body load_action).
Local Abbreviation execute_body := (ActionExecutor.execute_body start_worker).
Local Abbreviation instantiate_phase := (ActionExecutor.instantiate_phase load_action).
Local Abbreviation execute_phase := (ActionExecutor.execute_phase start_worker).
Local Abbreviation executeById := (ActionExecutor.executeById load_action start_worker).

(** The first loop only fills the three local containers, and fills them
    with the same ids. *)
Lemma load_loop_spec (initialized_requrired : bool) (ids : list N) (fr : Frame) :
  action_rollback_list fr = init_action_ids fr →
  dom (named_action_handles_tmp fr) = init_action_ids fr →
  let fr' := state_of (for_each (load_body initialized_requrired) ids fr) in
  handles fr' = handles fr ∧ ugh fr' = ugh fr ∧ calls fr' = calls fr
  ∧ action_rollback_list fr' = init_action_ids fr'
  ∧ dom (named_action_handles_tmp fr') = init_action_ids fr'.
Proof.
  intros Hrb Htmp. cbv zeta.
  set (I := λ fr', handles fr' = handles fr ∧ ugh fr' = ugh fr ∧ calls fr' = calls fr
                   ∧ action_rollback_list fr' = init_action_ids fr'
                   ∧ dom (named_action_handles_tmp fr') = init_action_ids fr').
  assert (∀ id s, id ∈ ids → I s →
            match load_body initialized_requrired id s with
            | Returned _ s' => I s'
            | Thrown e s' => I s' ∧ True
            end) as Hbody.
  { intros id s _ (Hh & Hg & Hc & Hr & Ht). unfold load_body.
    destruct (UmrfGraph.getUmrfOf id (ugh s)) as [u|]; [|done].
    destruct (negb _); [by destruct initialized_requrired|].
    unfold I. simpl. by rewrite dom_map_insert, Hr, Ht. }
  pose proof (for_each_invariant (load_body initialized_requrired) ids I (λ _, True) Hbody fr)
    as Hloop.
  destruct (for_each (load_body initialized_requrired) ids fr) as [[] fr'|e fr']; simpl.
  - by apply Hloop.
  - by destruct Hloop.
Qed.

(** The frame as the first phase leaves it when it ends normally. *)
Lemma load_phase_spec (ids : list N) (initialized_requrired : bool)
    (a : Activation) (fr1 : Frame) :
  load_phase ids initialized_requrired (enter a) = Returned tt fr1 →
  action_rollback_list fr1 = init_action_ids fr1
  ∧ init_action_ids fr1 ⊆ dom (handles fr1)
  ∧ ugh fr1 = act_ugh a ∧ calls fr1 = act_calls a
  ∧ handles fr1 = act_handles a ∪ named_action_handles_tmp fr1.
Proof.
  unfold load_phase, bind.
  pose proof (load_loop_spec initialized_requrired ids (enter a) eq_refl
                ltac:(simpl; by rewrite dom_empty_L)) as Hloop.
  cbv zeta in Hloop.
  destruct (for_each (load_body initialized_requrired) ids (enter a)) as [[] fr|e fr];
    [|done].
  simpl in Hloop. destruct Hloop as (Hh & Hg & Hc & Hr & Ht).
  unfold publish_handles, modify. intros [= <-]. simpl.
  rewrite Hh. split_and!; auto. rewrite dom_union_L. set_solver.
Qed.

Lemma at_handle_dom {A} (id : N) (c : HandleCall)
    (method : Exec ActionHandle.ActionHandle A) (fr : Frame) :
  id ∈ dom (handles fr) →
  ∃ h, handles fr !! id = Some h
       ∧ at_handle id c method fr
         = match method h with
           | Returned x h' =>
               Returned x (mkExecFrame (<[id := h']> (handles fr)) (ugh fr) (calls fr ++ [c])
                             (action_rollback_list fr) (init_action_ids fr)
                             (named_action_handles_tmp fr))
           | Thrown e h' =>
               Thrown e (mkExecFrame (<[id := h']> (handles fr)) (ugh fr) (calls fr ++ [c])
                           (action_rollback_list fr) (init_action_ids fr)
                           (named_action_handles_tmp fr))
           end.
Proof.
  intros [h Hh]%elem_of_dom. exists h. split; [done|].
  unfold at_handle. by rewrite Hh.
Qed.

Lemma dom_insert_present {V} (id : N) (v : V) (m : gmap N V) :
  id ∈ dom m → dom (<[id := v]> m) = dom m.
Proof. intros H. rewrite dom_insert_L. set_solver. Qed.

Lemma instantiate_body_settled (D J : gset N) (id : N) (fr : Frame) :
  J ⊆ D → id ∈ J → settled D J fr →
  match instantiate_body id fr with
  | Returned _ fr' => settled D J fr'
  | Thrown e fr' => settled D J fr' ∧ ∃ stack, e = TemotoErrorStack stack
  end.
Proof.
  intros HJD Hid (Hd & Hi & Hr).
  assert (id ∈ dom (handles fr)) as Hin by set_solver.
  destruct (at_handle_dom id (Called_instantiateAction id)
              (ActionHandle.instantiateAction load_action) fr Hin) as (h & Hh & Hat).
  unfold ActionExecutor.instantiate_body, try_catch, bind. rewrite Hat.
  destruct (ActionHandle.instantiateAction load_action h) as [[] h'|e h']; simpl.
  - unfold settled. simpl. rewrite dom_insert_present by done. split_and!; auto.
    set_solver.
  - split; [|destruct e; eauto].
    unfold settled. simpl. by rewrite dom_insert_present.
Qed.

Lemma execute_body_settled (D J : gset N) (id : N) (fr : Frame) :
  J ⊆ D → id ∈ J → settled D J fr →
  match execute_body id fr with
  | Returned _ fr' => settled D J fr'
  | Thrown e fr' => settled D J fr' ∧ ∃ stack, e = TemotoErrorStack stack
  end.
Proof.
  intros HJD Hid (Hd & Hi & Hr).
  assert (id ∈ dom (handles fr)) as Hin by set_solver.
  destruct (at_handle_dom id (Called_executeActionThread id)
              (ActionHandle.executeActionThread start_worker) fr Hin) as (h & Hh & Hat).
  unfold ActionExecutor.execute_body, try_catch, bind. rewrite Hat.
  destruct (ActionHandle.executeActionThread start_worker h) as [[] h'|e h']; simpl.
  - unfold settled. simpl. rewrite dom_insert_present by done. split_and!; auto.
    set_solver.
  - split; [|destruct e; eauto].
    unfold settled. simpl. by rewrite dom_insert_present.
Qed.

Lemma instantiate_phase_settled (D J : gset N) (fr : Frame) :
  J ⊆ D → settled D J fr →
  match instantiate_phase fr with
  | Returned _ fr' => settled D J fr'
  | Thrown e fr' => settled D J fr' ∧ ∃ stack, e = TemotoErrorStack stack
  end.
Proof.
  intros HJD Hs. unfold ActionExecutor.instantiate_phase, bind, get.
  apply (for_each_invariant instantiate_body _ (settled D J)
           (λ e, ∃ stack, e = TemotoErrorStack stack)); [|done].
  intros id s Hid Hsettled. apply instantiate_body_settled; auto.
  apply elem_of_ascending in Hid. destruct Hs as (_ & <- & _). done.
Qed.

Lemma execute_phase_settled (D J : gset N) (fr : Frame) :
  J ⊆ D → settled D J fr →
  match execute_phase fr with
  | Returned _ fr' => settled D J fr'
  | Thrown e fr' => settled D J fr' ∧ ∃ stack, e = TemotoErrorStack stack
  end.
Proof.
  intros HJD Hs. unfold ActionExecutor.execute_phase, bind, get.
  apply (for_each_invariant execute_body _ (settled D J)
           (λ e, ∃ stack, e = TemotoErrorStack stack)); [|done].
  intros id s Hid Hsettled. apply execute_body_settled; auto.
  apply elem_of_ascending in Hid. destruct Hs as (_ & <- & _). done.
Qed.

(** The loop of the catch clause over ids that are all in the registry:
    it ends normally, having cleared and erased each handle and applied
    [setNodeFinished] to each node, in order. *)
Lemma rollback_loop_spec (l : list N) (fr : Frame) :
  NoDup l → (∀ id, id ∈ l → is_Some (handles fr !! id)) →
  for_each rollback_body l fr
  = Returned tt
      (mkExecFrame (foldl (λ h id, delete id h) (handles fr) l)
                   (foldl (λ g id, UmrfGraph.setNodeFinished id g) (ugh fr) l)
                   (calls fr ++ (Called_clearAction <$> l))
                   (action_rollback_list fr) (init_action_ids fr)
                   (named_action_handles_tmp fr)).
Proof.
  revert fr. induction l as [|id l IH]; intros fr Hnd Hin; simpl.
  { rewrite app_nil_r. by destruct fr. }
  apply NoDup_cons in Hnd as [Hid Hnd].
  destruct (Hin id (list_elem_of_here _ _)) as [h Hh].
  unfold bind at 1. unfold rollback_body at 1. unfold bind, at_handle. rewrite Hh. simpl.
  rewrite IH; [|done|].
  - simpl. rewrite delete_insert_eq. by rewrite <- app_assoc.
  - intros id' Hid'. simpl. rewrite delete_insert_eq.
    rewrite lookup_delete_ne by (intros ->; done). apply Hin. by right.
Qed.


Lemma lookup_erased (l : list N) (m : HandleMap) (id : N) :
  id ∈ l → foldl (λ h id', delete id' h) m l !! id = None.
Proof.
  revert m. induction l as [|x l IH]; intros m Hid; [by apply elem_of_nil in Hid|].
  simpl. destruct (decide (id ∈ l)) as [Hl|Hl]; [by apply IH|].
  apply elem_of_cons in Hid as [->|?]; [|done].
  clear IH. revert m. induction l as [|y l IH]; intros m; simpl.
  - apply lookup_delete_eq.
  - apply not_elem_of_cons in Hl as [Hne Hl]. rewrite delete_delete. by apply IH.
Qed.

(** C4.  When the try block of [executeById] throws after its first loop
    has ended, that is in the instantiation loop or in the execution
    loop, the exception is an error stack, the rollback list holds the
    ids buffered by the first loop, and the call as a whole: calls
    [clearAction] on the handle of every id of the rollback list, in
    ascending order; erases each of these handles from the registry;
    applies [setNodeFinished] to each of these ids on the graph; and
    throws the same error stack with one frame prepended. *)
Theorem executeById_rolls_back_on_failure
    (ids : list N) (initialized_requrired : bool) (a : Activation)
    (fr1 fr2 : Frame) (e : Exception) :
  load_phase ids initialized_requrired (enter a) = Returned tt fr1 →
  (instantiate_phase ;;; execute_phase)%exec fr1 = Thrown e fr2 →
  let rollback_set := ascending (action_rollback_list fr2) in
  ∃ stack,
    e = TemotoErrorStack stack
    ∧ action_rollback_list fr2 = init_action_ids fr1
    ∧ executeById ids initialized_requrired a
      = Thrown (FORWARD_TEMOTO_ERROR_STACK "ActionExecutor::executeById" stack)
          (mkActivation
             (foldl (λ h id, delete id h) (handles fr2) rollback_set)
             (foldl (λ g id, UmrfGraph.setNodeFinished id g) (ugh fr2) rollback_set)
             (calls fr2 ++ (Called_clearAction <$> rollback_set)))
    ∧ ∀ id, id ∈ action_rollback_list fr2 →
        is_Some (handles fr2 !! id)
        ∧ foldl (λ h id', delete id' h) (handles fr2) rollback_set !! id = None.
Proof.
  intros Hload Hthrow rollback_set.
  destruct (load_phase_spec _ _ _ _ Hload) as (Hrb & Hsub & _).
  assert (settled (dom (handles fr1)) (init_action_ids fr1) fr1) as Hs1 by done.
  assert (settled (dom (handles fr1)) (init_action_ids fr1) fr2
          ∧ ∃ stack, e = TemotoErrorStack stack) as [Hs2 [stack ->]].
  { unfold bind in Hthrow.
    pose proof (instantiate_phase_settled _ _ fr1 Hsub Hs1) as Hi.
    destruct (instantiate_phase fr1) as [[] fr'|e' fr'].
    - pose proof (execute_phase_settled _ _ fr' Hsub Hi) as He.
      rewrite Hthrow in He. done.
    - by injection Hthrow as -> ->. }
  destruct Hs2 as (Hd & Hi & Hr).
  assert (∀ id, id ∈ action_rollback_list fr2 → is_Some (handles fr2 !! id)) as Hin.
  { intros id Hid. apply elem_of_dom. rewrite Hd. apply Hsub. by rewrite <- Hr. }
  exists stack. split; [done|]. split; [done|]. split.
  - unfold ActionExecutor.executeById, executeById_frame, try_catch.
    unfold bind at 1. rewrite Hload.
    change ((instantiate_phase ;;; execute_phase)%exec fr1) with
      (bind instantiate_phase (λ _, execute_phase) fr1) in Hthrow.
    rewrite Hthrow. unfold rollback, bind, get.
    rewrite rollback_loop_spec; [done|apply NoDup_ascending|].
    intros id Hid. by apply Hin, elem_of_ascending.
  - intros id Hid. split; [by apply Hin|].
    by apply lookup_erased, elem_of_ascending.
Qed.

End ExecuteByIdFacts.

(* ===================================================================== *)
(** * Launching the roots of a graph                                      *)
(* ===================================================================== *)

Section LaunchFacts.

Variable load_action : Umrf → option Exception.
Variable start_worker : Umrf → option Exception.

Local Abbreviation executeById := (ActionExecutor.executeById load_action start_worker).
Local Abbreviation executeUmrfGraph :=
  (ActionExecutor.executeUmrfGraph load_action start_worker).

(** With [initialized_requrired] set, the first loop throws as soon as it
    meets a node that is not ready. *)
Lemma load_loop_aborts (ids : list N) (fr : Frame) :
  (∃ id, id ∈ ids ∧ not_ready id (ugh fr)) →
  has_thrown (for_each (load_body true) ids fr) = true.
Proof.
  revert fr. induction ids as [|x ids IH]; intros fr (id & Hid & Hnr).
  { by apply elem_of_nil in Hid. }
  simpl. unfold bind.
  destruct (load_body true x fr) as [[] fr'|e fr'] eqn:Hx; [|done].
  assert (ugh fr' = ugh fr ∧ ¬ not_ready x (ugh fr)) as [Hg Hready].
  { unfold load_body in Hx. unfold not_ready.
    destruct (UmrfGraph.getUmrfOf x (ugh fr)) as [u|]; [|done].
    destruct (bool_decide (ActionHandle.getState (ActionHandle.new u)
                           = ActionHandle.INITIALIZED)) eqn:Hst; simpl in Hx; [|done].
    apply bool_decide_eq_true in Hst. injection Hx as <-. split; [done|].
    intros H. apply H. simpl. by f_equal. }
  apply IH. exists id. rewrite Hg. split; [|done].
  apply elem_of_cons in Hid as [->|?]; done.
Qed.

(** The catch clause always ends by throwing, and adds no handle. *)
Lemma rollback_throws (e : Exception) (fr : Frame) :
  has_thrown (rollback e fr) = true
  ∧ dom (handles (state_of (rollback e fr))) ⊆ dom (handles fr).
Proof.
  destruct e as [stack|what]; [|done].
  unfold rollback, bind, get.
  pose proof (for_each_invariant rollback_body (ascending (action_rollback_list fr))
                (λ fr', dom (handles fr') ⊆ dom (handles fr)) (λ _, True)) as Hloop.
  assert (∀ id s, id ∈ ascending (action_rollback_list fr) →
            dom (handles s) ⊆ dom (handles fr) →
            match rollback_body id s with
            | Returned _ s' => dom (handles s') ⊆ dom (handles fr)
            | Thrown _ s' => dom (handles s') ⊆ dom (handles fr) ∧ True
            end) as Hbody.
  { intros id s _ Hs. unfold rollback_body, bind, at_handle.
    destruct (handles s !! id) as [h|] eqn:Hh; [|done]. simpl.
    rewrite delete_insert_eq, dom_delete_L. set_solver. }
  assert (dom (handles fr) ⊆ dom (handles fr)) as Hstart by set_solver.
  specialize (Hloop Hbody fr Hstart).
  destruct (for_each rollback_body _ fr) as [[] fr'|e' fr']; unfold throw; simpl;
    (split; [done|]); tauto.
Qed.

(** A launch that requires every node to be ready throws when one is not,
    and registers no handle. *)
Lemma executeById_aborts (ids : list N) (a : Activation) :
  (∃ id, id ∈ ids ∧ not_ready id (act_ugh a)) →
  has_thrown (executeById ids true a) = true
  ∧ dom (act_handles (state_of (executeById ids true a))) ⊆ dom (act_handles a).
Proof.
  intros Hnr. unfold ActionExecutor.executeById, executeById_frame, try_catch.
  unfold load_phase, bind.
  pose proof (load_loop_aborts ids (enter a) Hnr) as Hthrown.
  assert (dom (named_action_handles_tmp (enter a)) = init_action_ids (enter a)) as Htmp.
  { simpl. by rewrite dom_empty_L. }
  destruct (load_loop_spec true ids (enter a) eq_refl Htmp) as (Hh & _).
  destruct (for_each (load_body true) ids (enter a)) as [[] fr|e fr]; [done|].
  simpl in Hh. destruct (rollback_throws e fr) as [Ht Hd]. rewrite Hh in Hd.
  destruct (rollback e fr) as [[] fr'|e' fr']; [done|]. by split.
Qed.

End LaunchFacts.

Lemma executeById_rolls_back_on_failure_witness :
  executeById refuses starts [0] true stored_activation
  = Thrown (TemotoErrorStack
              [mkFrame "ActionExecutor::executeById" "";
               mkFrame "ActionExecutor::executeById" "";
               mkFrame "ActionHandle::instantiateAction" "Failed to load the action library"])
      (mkActivation ∅
         (UmrfGraph.setNodeFinished 0 (UmrfGraph.setNodeError 0 (UmrfGraph.new "g" [a_node])))
         [Called_instantiateAction 0; Called_clearAction 0]).
Proof.
  edestruct (executeById_rolls_back_on_failure refuses starts [0] true stored_activation)
    as (stack & Hstack & _ & Hrun & _).
  - vm_compute. reflexivity.
  - vm_compute. reflexivity.
  - rewrite Hrun. injection Hstack as <-. vm_compute. reflexivity.
Defined.


(* ===================================================================== *)
(** * Completion, admission, mutation and the reaper on concrete states   *)
(* ===================================================================== *)

(** C2.  The executor already stores a graph named ["g"]; adding another
    graph under that name returns normally.  The error object is built
    and dropped, an id is consumed, and [std::map::insert] keeps the
    stored graph. *)
Theorem addUmrfGraph_accepts_duplicate_name :
  graphExists "g" stored_executor = true
  ∧ addUmrfGraph "g" [b_node] stored_executor
    = Returned tt (mkExecutor ∅ (named_umrf_graphs_ stored_executor) 2 []).
Proof. vm_compute. by split. Qed.

(** C3.  Both diffs pass the validation loop, the first is applied, and
    only then the unsupported operation of the second is noticed: the
    call throws with the node [b] already added to the graph. *)
Theorem modifyGraph_applies_before_unsupported_operation :
  let run := modifyGraph "g" mixed_diffs stored_executor in
  for_each (validate_diff "g") mixed_diffs stored_executor = Returned tt stored_executor
  ∧ (∃ s', run = Thrown (CREATE_TEMOTO_ERROR_STACK "ActionExecutor::modifyGraph"
                           "No such operation as rename_umrf") s')
  ∧ UmrfGraph.getNodeIds <$> (named_umrf_graphs_ stored_executor !! "g") = Some [0]
  ∧ UmrfGraph.getNodeIds <$> (named_umrf_graphs_ (state_of run) !! "g") = Some [0; 1]
  ∧ (named_umrf_graphs_ (state_of run) !! "g") ≫= UmrfGraph.getUmrfOf 1
    = Some (setId 1 b_node).
Proof. vm_compute. split_and!; eauto. Qed.

(** The validation loop of [modifyGraph] reads the graph and writes
    nothing: when it throws, the executor is as it was. *)
Lemma validation_changes_nothing (graph_name : string)
    (graph_diffs : list UmrfGraphDiff) (s : ActionExecutor) :
  state_of (for_each (validate_diff graph_name) graph_diffs s) = s.
Proof.
  induction graph_diffs as [|graph_diff graph_diffs IH]; simpl; [done|].
  unfold bind. unfold validate_diff at 1.
  destruct (named_umrf_graphs_ s !! graph_name) as [ugh|]; [|done].
  destruct (bool_decide (operation graph_diff = Operation.add_umrf)).
  - destruct (UmrfGraph.partOfGraph_name _ ugh); [done|apply IH].
  - destruct (negb _); [done|apply IH].
Qed.

(** On a stored graph, a list of diffs that the validation loop rejects
    makes [modifyGraph] throw without any change. *)
Lemma modifyGraph_rejected_by_validation (graph_name : string)
    (graph_diffs : list UmrfGraphDiff) (s : ActionExecutor) :
  graphExists graph_name s = true →
  has_thrown (for_each (validate_diff graph_name) graph_diffs s) = true →
  has_thrown (modifyGraph graph_name graph_diffs s) = true
  ∧ state_of (modifyGraph graph_name graph_diffs s) = s.
Proof.
  intros Hex Hthrown.
  pose proof (validation_changes_nothing graph_name graph_diffs s) as Hs.
  unfold modifyGraph, bind. rewrite Hex. simpl.
  by destruct (for_each (validate_diff graph_name) graph_diffs s).
Qed.

Section ReaperFacts.

Lemma at_registry_dom {A} (id : N) (c : HandleCall)
    (method : Exec ActionHandle.ActionHandle A) (s : ActionExecutor) :
  dom (named_action_handles_ (state_of (at_registry id c method s)))
  = dom (named_action_handles_ s).
Proof.
  unfold at_registry. destruct (named_action_handles_ s !! id) as [h|] eqn:Hh; [|done].
  assert (id ∈ dom (named_action_handles_ s)) by (apply elem_of_dom; eauto).
  destruct (method h); simpl; by apply dom_insert_present.
Qed.

Lemma on_graph_handles {A} (graph_name : string) (m : Exec UmrfGraph.UmrfGraph A)
    (s : ActionExecutor) :
  named_action_handles_ (state_of (on_graph graph_name m s)) = named_action_handles_ s.
Proof.
  unfold on_graph. destruct (named_umrf_graphs_ s !! graph_name); [|done].
  by destruct (m _).
Qed.

(** The reaper's treatment of a handle leaves the ids of the registry as
    they are. *)
Lemma reap_handle_dom (id : N) (s : ActionExecutor) :
  dom (named_action_handles_ (state_of (reap_handle id s)))
  = dom (named_action_handles_ s).
Proof.
  unfold reap_handle.
  destruct (named_action_handles_ s !! id) as [h|]; [|done].
  destruct (_ && _); [|done].
  unfold try_catch, bind at 1.
  pose proof (at_registry_dom id (Called_getFutureValue id) ActionHandle.getFutureValue s)
    as H1.
  destruct (at_registry id _ ActionHandle.getFutureValue s) as [msg s1|e s1]; simpl in H1.
  2:{ destruct e; simpl; done. }
  unfold bind at 1, get. unfold bind at 1.
  pose proof (for_each_invariant
    (λ graph_name,
       on_graph graph_name
         (modify (λ g, if negb (UmrfGraph.partOfGraph id g) then g
                       else UmrfGraph.setNodeFinished id g)))
    (ascending_names (dom (named_umrf_graphs_ s1)))
    (λ s', dom (named_action_handles_ s') = dom (named_action_handles_ s))
    (λ _, True)) as Hloop.
  assert (∀ (x : string) (t : ActionExecutor),
            x ∈ ascending_names (dom (named_umrf_graphs_ s1)) →
            dom (named_action_handles_ t) = dom (named_action_handles_ s) →
            match on_graph x (modify (λ g, if negb (UmrfGraph.partOfGraph id g) then g
                                           else UmrfGraph.setNodeFinished id g)) t with
            | Returned _ s' => dom (named_action_handles_ s') = dom (named_action_handles_ s)
            | Thrown _ s' =>
                dom (named_action_handles_ s') = dom (named_action_handles_ s) ∧ True
            end) as Hbody.
  { intros x t _ Ht.
    pose proof (on_graph_handles x (modify (λ g, if negb (UmrfGraph.partOfGraph id g) then g
                                           else UmrfGraph.setNodeFinished id g)) t) as Hx.
    destruct (on_graph x _ t); simpl in Hx; rewrite Hx; auto. }
  specialize (Hloop Hbody s1 H1).
  destruct (for_each _ _ s1) as [[] s2|e s2].
  - pose proof (at_registry_dom id (Called_clearAction id)
                  (λ h', Returned tt (ActionHandle.clearAction h')) s2) as H3.
    destruct (at_registry id _ _ s2) as [[] s3|e s3]; simpl in *.
    + congruence.
    + destruct e; simpl; congruence.
  - destruct Hloop as [Hloop _]. destruct e; simpl; congruence.
Qed.

(** X18.  One turn of the cleanup loop never changes the number of
    handles [getActionCount()] reports, whatever the states of the handles
    and of the graphs. *)
Lemma cleanupLoop_turn_keeps_every_handle (s : ActionExecutor) :
  getActionCount (state_of (cleanupLoop_turn s)) = getActionCount s.
Proof.
  assert (dom (named_action_handles_ (state_of (cleanupLoop_turn s)))
          = dom (named_action_handles_ s)) as Hdom.
  { unfold cleanupLoop_turn. destruct (negb _); [|done].
    unfold bind.
    pose proof (for_each_invariant reap_handle (ascending (dom (named_action_handles_ s)))
      (λ s', dom (named_action_handles_ s') = dom (named_action_handles_ s))
      (λ _, True)) as Hloop.
    assert (∀ (x : N) (t : ActionExecutor),
              x ∈ ascending (dom (named_action_handles_ s)) →
              dom (named_action_handles_ t) = dom (named_action_handles_ s) →
              match reap_handle x t with
              | Returned _ s' => dom (named_action_handles_ s') = dom (named_action_handles_ s)
              | Thrown _ s' =>
                  dom (named_action_handles_ s') = dom (named_action_handles_ s) ∧ True
              end) as Hbody.
    { intros x t _ Ht. pose proof (reap_handle_dom x t) as Hx.
      destruct (reap_handle x t); simpl in Hx; rewrite Hx; auto. }
    specialize (Hloop Hbody s eq_refl).
    destruct (for_each reap_handle _ s) as [[] s'|e s']; simpl; [done|tauto]. }
  unfold getActionCount. by rewrite <- !size_dom, Hdom.
Qed.

End ReaperFacts.

(** C5.  The only handle is [FINISHED], its future is ready and its node
    is synchronous.  One turn of the reaper reads the result, marks the
    node finished, clears the handle and drops the finished graph, but
    the handle stays in the registry: the handle count is still 1. *)
Theorem cleanupLoop_keeps_reaped_handle :
  let run := cleanupLoop_turn done_executor in
  has_thrown run = false
  ∧ handle_calls_ (state_of run) = [Called_getFutureValue 0; Called_clearAction 0]
  ∧ named_umrf_graphs_ (state_of run) = ∅
  ∧ named_action_handles_ (state_of run) !! 0
    = Some (ActionHandle.mkHandle a_node ActionHandle.FINISHED false None)
  ∧ getActionCount (state_of run) = 1.
Proof. vm_compute. by repeat split. Qed.

(* ===================================================================== *)
(** * Further properties of UMRF nodes                                    *)
(* ===================================================================== *)

Section MutationFacts.

Implicit Types (u : Umrf) (c : Mutation) (calls : list Mutation).

(** What a call can do to the four fields the naming and the correctness
    of a node rest on. *)
Lemma mutate_naming_fields u c :
  (is_naming c = true ∧ well_named (mutate u c)
   ∧ library_path_ (mutate u c) = library_path_ u
   ∧ (name_ (mutate u c) = name_ u ∨ name_ (mutate u c) ≠ ""))
  ∨ (name_ (mutate u c) = name_ u ∧ suffix_ (mutate u c) = suffix_ u
     ∧ full_name_ (mutate u c) = full_name_ u
     ∧ (library_path_ (mutate u c) = library_path_ u
        ∨ library_path_ (mutate u c) ≠ "")).
Proof.
  destruct c; simpl;
    try (right; split_and!; auto; fail).
  - unfold setName. destruct (bool_decide (name = "")) eqn:Hn; simpl.
    + right. split_and!; auto.
    + left. apply bool_decide_eq_false in Hn. split_and!; auto. done.
  - unfold setPackageName. destruct (negb _); simpl; right; split_and!; auto.
  - unfold setLibraryPath. destruct (bool_decide (library_path = "")) eqn:Hl; simpl;
      right; split_and!; auto.
    apply bool_decide_eq_false in Hl. auto.
  - unfold setParents. destruct parents; simpl; right; split_and!; auto.
  - unfold addParent. destruct (negb _); simpl; right; split_and!; auto.
  - unfold removeParent. destruct (erase_first _ _); simpl; right; split_and!; auto.
  - unfold setChildren. destruct children; simpl; right; split_and!; auto.
  - unfold addChild. destruct (negb _); simpl; right; split_and!; auto.
  - unfold removeChild. destruct (erase_first _ _); simpl; right; split_and!; auto.
  - unfold setEffect. destruct (negb _); simpl; right; split_and!; auto.
  - left. split_and!; auto. done.
  - unfold setNotation. destruct (negb _); simpl; right; split_and!; auto.
  - unfold setInputParameters. destruct (negb _); simpl; right; split_and!; auto.
  - unfold setOutputParameters. destruct (negb _); simpl; right; split_and!; auto.
  - pose proof (update_loop_frame (getParameters (getInputParameters umrf_in)) false u) as H.
    cbv zeta in H. unfold updateInputParams. rewrite H. right. split_and!; auto.
  - unfold setParentReceived. destruct (mark_received _ _); simpl; right; split_and!; auto.
Qed.

Lemma mutate_keeps_correct u c :
  isUmrfCorrect u = true → isUmrfCorrect (mutate u c) = true.
Proof.
  unfold isUmrfCorrect, getLibraryPath.
  rewrite !andb_true_iff, !negb_true_iff, !bool_decide_eq_false.
  intros [Hn Hl].
  destruct (mutate_naming_fields u c) as [(_ & _ & Hlib & Hname)|(Hname & _ & _ & Hlib)].
  - rewrite Hlib. split; [|done]. destruct Hname as [->|?]; done.
  - rewrite Hname. split; [done|]. destruct Hlib as [->|?]; done.
Qed.

Lemma mutate_keeps_well_named u c : well_named u → well_named (mutate u c).
Proof.
  intros Hu.
  destruct (mutate_naming_fields u c) as [(_ & H & _)|(Hn & Hs & Hf & _)]; [done|].
  unfold well_named. by rewrite Hn, Hs, Hf.
Qed.

End MutationFacts.

(** X1.  Through the setters and relation edits of [umrf.cpp] a correct node (name
    and library path not empty) stays correct, and a node whose full name
    is [name_suffix] keeps such a full name, whatever calls are made and
    whatever they return; and once [setSuffix], or [setName] with a name
    that is not empty, has been called, the full name is [name_suffix]. *)
Theorem setters_keep_node_correct_and_named (u : Umrf) (calls : list Mutation) :
  (isUmrfCorrect u = true → isUmrfCorrect (foldl mutate u calls) = true)
  ∧ (well_named u → well_named (foldl mutate u calls))
  ∧ (existsb is_naming calls = true → well_named (foldl mutate u calls)).
Proof.
  split; [|split].
  - revert u. induction calls as [|c calls IH]; intros u Hu; simpl; [done|].
    by apply IH, mutate_keeps_correct.
  - revert u. induction calls as [|c calls IH]; intros u Hu; simpl; [done|].
    by apply IH, mutate_keeps_well_named.
  - induction calls as [|c calls IH] using rev_ind; [done|].
    rewrite existsb_app, foldl_app. simpl. rewrite orb_false_r.
    destruct (is_naming c) eqn:Hc.
    + intros _. destruct (mutate_naming_fields (foldl mutate u calls) c)
        as [(_ & H & _)|(Hn & Hs & Hf & _)]; [done|].
      destruct c; try done. simpl in Hc. unfold mutate, setName in *.
      destruct (bool_decide (name = "")); done.
    + rewrite orb_false_r. intros H. by apply mutate_keeps_well_named, IH.
Qed.

Lemma setters_keep_node_correct_and_named_witness :
  let calls := [Call_setLibraryPath ""; Call_setName ""; Call_setName "b";
                Call_clearParents; Call_setId 7] in
  isUmrfCorrect (foldl mutate a_node calls) = true
  ∧ well_named (foldl mutate bare_node calls).
Proof.
  intros calls. split.
  - apply (proj1 (setters_keep_node_correct_and_named a_node calls)). reflexivity.
  - apply (proj2 (proj2 (setters_keep_node_correct_and_named bare_node calls))).
    reflexivity.
Defined.

Section RelationVectorFacts.

Implicit Types (r x : Relation) (v : list Relation) (u : Umrf).

Lemma erase_first_none v r : found v r = false → erase_first r v = None.
Proof.
  induction v as [|x v IH]; simpl; [done|].
  destruct (Relation_eqb x r); simpl; [done|]. intros H. by rewrite IH.
Qed.

Lemma erase_first_pushed v r : found v r = false → erase_first r (v ++ [r]) = Some v.
Proof.
  induction v as [|x v IH]; simpl.
  - by rewrite Relation_eqb_refl.
  - destruct (Relation_eqb x r); simpl; [done|]. intros H. by rewrite IH.
Qed.

Lemma erase_first_length v r v' : erase_first r v = Some v' → length v = S (length v').
Proof.
  revert v'. induction v as [|x v IH]; intros v'; simpl; [done|].
  destruct (Relation_eqb x r); [by intros [= ->]|].
  destruct (erase_first r v) as [w|]; simpl; [|done].
  intros [= <-]. simpl. by rewrite (IH w).
Qed.

End RelationVectorFacts.

(** X2.  [removeParent] undoes [addParent], and [removeChild] undoes
    [addChild]: for a relation with a name, which the vector does not hold
    yet, adding and then removing it returns [true] twice and gives the
    node back.  Removing a relation the vector does not hold returns
    [false] and changes nothing; a successful removal shortens the vector
    by exactly one element. *)
Theorem remove_undoes_add (u : Umrf) (r : Relation) :
  (Relation_empty r = false → found (parents_ u) r = false →
   (addParent r u).1 = true ∧ removeParent r (addParent r u).2 = (true, u))
  ∧ (Relation_empty r = false → found (children_ u) r = false →
     (addChild r u).1 = true ∧ removeChild r (addChild r u).2 = (true, u))
  ∧ (found (parents_ u) r = false → removeParent r u = (false, u))
  ∧ (found (children_ u) r = false → removeChild r u = (false, u))
  ∧ ((removeParent r u).1 = true →
     length (parents_ u) = S (length (parents_ (removeParent r u).2)))
  ∧ ((removeChild r u).1 = true →
     length (children_ u) = S (length (children_ (removeChild r u).2))).
Proof.
  split_and!.
  - intros Hr Hf. unfold addParent, removeParent. rewrite Hr. simpl.
    rewrite erase_first_pushed by done. split; [done|]. by destruct u.
  - intros Hr Hf. unfold addChild, removeChild. rewrite Hr. simpl.
    rewrite erase_first_pushed by done. split; [done|]. by destruct u.
  - intros Hf. unfold removeParent. by rewrite erase_first_none.
  - intros Hf. unfold removeChild. by rewrite erase_first_none.
  - unfold removeParent. destruct (erase_first r (parents_ u)) as [v|] eqn:He; [|done].
    intros _. simpl. by apply erase_first_length in He.
  - unfold removeChild. destruct (erase_first r (children_ u)) as [v|] eqn:He; [|done].
    intros _. simpl. by apply erase_first_length in He.
Qed.

Lemma remove_undoes_add_witness :
  removeParent (rel "q") (addParent (rel "q") p_node).2 = (true, p_node)
  ∧ removeChild (rel "q") p_node = (false, p_node).
Proof.
  split.
  - apply (proj1 (remove_undoes_add p_node (rel "q"))); reflexivity.
  - apply (proj1 (proj2 (proj2 (proj2 (remove_undoes_add p_node (rel "q")))))).
    reflexivity.
Defined.

Section ReceivedFacts.

Implicit Types (r x : Relation) (v l : list Relation).

(** In a vector without two relations of the same key, the first relation
    equal to [r] is the only one. *)
Lemma mark_received_map v r :
  NoDup (relation_key <$> v) → found v r = true →
  mark_received r v
  = Some ((λ x, if Relation_eqb x r then with_received x else x) <$> v).
Proof.
  induction v as [|x v IH]; simpl; [done|].
  intros Hnd. apply NoDup_cons in Hnd as [Hx Hnd].
  destruct (Relation_eqb x r) eqn:Hxr; simpl.
  - intros _. f_equal. f_equal.
    assert (∀ y, y ∈ v → Relation_eqb y r = false) as Hrest.
    { intros y Hy. destruct (Relation_eqb y r) eqn:Hyr; [|done].
      exfalso. apply Hx. apply list_elem_of_fmap. exists y. split; [|done].
      apply Relation_eqb_true in Hxr, Hyr. unfold relation_key.
      destruct Hxr, Hyr. congruence. }
    clear -Hrest. induction v as [|y v IH]; simpl; [done|].
    rewrite Hrest by left. f_equal. apply IH. intros z Hz. apply Hrest. by right.
  - intros Hf. by rewrite IH.
Qed.

Lemma marked_keys v r :
  relation_key <$> ((λ x, if Relation_eqb x r then with_received x else x) <$> v)
  = relation_key <$> v.
Proof.
  rewrite <- list_fmap_compose. apply list_fmap_ext. intros i x _. simpl.
  by destruct (Relation_eqb x r).
Qed.

Lemma found_marked v r r' :
  found ((λ x, if Relation_eqb x r then with_received x else x) <$> v) r' = found v r'.
Proof.
  unfold found. induction v as [|x v IH]; [done|].
  rewrite fmap_cons. cbn [existsb]. rewrite IH. f_equal.
  by destruct (Relation_eqb x r).
Qed.

Lemma found_with_received l x : found l (with_received x) = found l x.
Proof. done. Qed.

(** Marking the relations of [l] one after the other marks exactly the
    parents that [l] holds. *)
Lemma mark_each (l : list Relation) (u : Umrf) :
  NoDup (relation_key <$> parents_ u) →
  (∀ r, r ∈ l → found (parents_ u) r = true) →
  for_each setParentReceived l u
  = Returned tt
      (set_parents_ ((λ x, if found l x then with_received x else x) <$> parents_ u) u).
Proof.
  revert u. induction l as [|r l IH]; intros u Hnd Hin; simpl.
  { unfold ret. f_equal. rewrite list_fmap_id. by destruct u. }
  unfold bind. unfold setParentReceived at 1.
  rewrite mark_received_map by (try done; apply Hin; left).
  rewrite IH; simpl.
  - f_equal. destruct u; simpl. unfold set_parents_; simpl. f_equal.
    rewrite <- list_fmap_compose. apply list_fmap_ext. intros i x _. simpl.
    rewrite (Relation_eqb_sym r x).
    destruct (Relation_eqb x r); simpl; [|done].
    rewrite found_with_received. by destruct (found l x).
  - by rewrite marked_keys.
  - intros r' Hr'. rewrite found_marked. apply Hin. by right.
Qed.

End ReceivedFacts.

(** X3.  On a node whose parents vector holds no two relations of the
    same name and suffix, calling [setParentReceived] for every relation
    of a list of parents returns normally and marks exactly the parents
    the list holds; called for every parent, it leaves every parent
    received, whereupon [requiredParentsFinished] is true. *)
Theorem marking_every_parent_finishes (u : Umrf) (l : list Relation) :
  NoDup (relation_key <$> parents_ u) →
  (∀ r, r ∈ l → found (parents_ u) r = true) →
  for_each setParentReceived l u
  = Returned tt
      (set_parents_ ((λ x, if found l x then with_received x else x) <$> parents_ u) u)
  ∧ (l = parents_ u →
     for_each setParentReceived l u
     = Returned tt (set_parents_ (with_received <$> parents_ u) u)
     ∧ requiredParentsFinished (state_of (for_each setParentReceived l u)) = true).
Proof.
  intros Hnd Hin. split; [by apply mark_each|]. intros ->.
  rewrite mark_each by done.
  assert ((λ x, if found (parents_ u) x then with_received x else x) <$> parents_ u
          = with_received <$> parents_ u) as ->.
  { apply list_fmap_ext. intros i x Hx. simpl.
    rewrite Hin; [done|]. by eapply list_elem_of_lookup_2. }
  split; [done|]. simpl. unfold requiredParentsFinished. simpl.
  apply forallb_forall. intros x Hx.
  apply list_elem_of_In, list_elem_of_fmap in Hx as (y & -> & _).
  unfold getRequired, getReceived. simpl. by rewrite andb_false_r.
Qed.

Lemma marking_every_parent_finishes_witness :
  for_each setParentReceived (parents_ d_node) d_node
  = Returned tt (set_parents_ (with_received <$> parents_ d_node) d_node)
  ∧ requiredParentsFinished
      (state_of (for_each setParentReceived (parents_ d_node) d_node)) = true.
Proof.
  apply (marking_every_parent_finishes d_node (parents_ d_node)).
  - apply (bool_decide_unpack _). by vm_compute.
  - intros r Hr. apply found_true. exists r. split; [done|apply Relation_eqb_refl].
  - reflexivity.
Defined.

Section UpdateAgainFacts.

Implicit Types (self umrf_in : Umrf).

Lemma updateInputParams_lookup umrf_in self (name : string) :
  input_parameters_ (updateInputParams umrf_in self).2 !! name
  = match input_parameters_ self !! name, input_parameters_ umrf_in !! name with
    | Some existing, Some incoming =>
        if pc_updatable existing then Some incoming else Some existing
    | existing, _ => existing
    end.
Proof.
  unfold updateInputParams, getParameters, getInputParameters.
  rewrite update_loop_lookup by apply NoDup_fst_map_to_list.
  by rewrite list_to_map_to_list.
Qed.

Lemma updateInputParams_frame umrf_in self :
  (updateInputParams umrf_in self).2
  = set_input_parameters_ (input_parameters_ (updateInputParams umrf_in self).2) self.
Proof. apply update_loop_frame. Qed.

Lemma updateInputParams_names umrf_in self :
  dom (input_parameters_ (updateInputParams umrf_in self).2) = dom (input_parameters_ self).
Proof.
  apply set_eq. intros name. rewrite !elem_of_dom, updateInputParams_lookup.
  destruct (input_parameters_ self !! name) as [existing|]; [|done].
  destruct (input_parameters_ umrf_in !! name); [|done].
  destruct (pc_updatable existing); split; eauto.
Qed.

End UpdateAgainFacts.

(** X5.  [updateInputParams] never adds or removes a parameter, and is
    idempotent on the node: a second call with the same incoming node
    leaves the node the first call produced. *)
Theorem updateInputParams_idempotent (umrf_in self : Umrf) :
  let once := (updateInputParams umrf_in self).2 in
  dom (input_parameters_ once) = dom (input_parameters_ self)
  ∧ (updateInputParams umrf_in once).2 = once.
Proof.
  cbv zeta. split; [apply updateInputParams_names|].
  set (once := (updateInputParams umrf_in self).2).
  rewrite (updateInputParams_frame umrf_in once).
  assert (input_parameters_ (updateInputParams umrf_in once).2 = input_parameters_ once)
    as ->; [|by destruct once].
  apply map_eq. intros name. rewrite updateInputParams_lookup.
  unfold once. rewrite updateInputParams_lookup.
  destruct (input_parameters_ self !! name) as [existing|]; [|done].
  destruct (input_parameters_ umrf_in !! name) as [incoming|]; [|done].
  destruct (pc_updatable existing) eqn:Hupd; simpl; rewrite ?Hupd; [|done].
  by destruct (pc_updatable incoming).
Qed.

(** X6.  When [updateInputParams] returns [false] the node is unchanged. *)
Theorem updateInputParams_false_changes_nothing (umrf_in self : Umrf) :
  (updateInputParams umrf_in self).1 = false → (updateInputParams umrf_in self).2 = self.
Proof.
  intros Hflag. rewrite updateInputParams_frame.
  assert (input_parameters_ (updateInputParams umrf_in self).2 = input_parameters_ self)
    as ->; [|by destruct self].
  apply map_eq. intros name. rewrite updateInputParams_lookup.
  destruct (input_parameters_ self !! name) as [existing|] eqn:Hself; [|done].
  destruct (input_parameters_ umrf_in !! name) as [incoming|] eqn:Hin; [|done].
  destruct (pc_updatable existing) eqn:Hupd; [|done].
  exfalso. revert Hflag. apply not_false_iff_true.
  unfold updateInputParams, getParameters, getInputParameters.
  rewrite update_loop_flag by apply NoDup_fst_map_to_list. simpl.
  apply existsb_exists. exists (name, incoming). simpl. rewrite Hself. split; [|done].
  by apply list_elem_of_In, elem_of_map_to_list.
Qed.

Lemma updateInputParams_false_changes_nothing_witness :
  (updateInputParams (with_inputs {[ "speed" := speed_string ]})
     (with_inputs {[ "speed" := speed_fixed ]})).2
  = with_inputs {[ "speed" := speed_fixed ]}.
Proof. apply updateInputParams_false_changes_nothing. reflexivity. Defined.

(** X7.  An update between structurally equal nodes keeps them so: if
    [self.isEqual(umrf_in, false)] holds, as [updateUmrfGraph] requires,
    then the node [updateInputParams] leaves still passes
    [isEqual(umrf_in, false)]. *)
Theorem updateInputParams_keeps_structure (umrf_in self : Umrf) :
  isEqual self umrf_in false = true →
  isEqual (updateInputParams umrf_in self).2 umrf_in false = true.
Proof.
  rewrite !isEqual_true.
  intros (H1 & H2 & H3 & H4 & (Hsi & Hso) & Hi & Ho).
  rewrite (updateInputParams_frame umrf_in self). simpl.
  do 4 (split; [done|]). split; [split; [|done]|split; [|done]].
  - rewrite <- Hsi, <- !size_dom. by rewrite updateInputParams_names.
  - intros n body. rewrite updateInputParams_lookup.
    destruct (input_parameters_ self !! n) as [existing|] eqn:Hself; [|done].
    destruct (Hi n existing Hself) as (other & Hother & He). rewrite Hother.
    destruct (pc_updatable existing); intros [= <-]; exists other; split; try done.
    apply isEqualNoDataNoUpdate_true. done.
Qed.

Lemma updateInputParams_keeps_structure_witness :
  isEqual (updateInputParams (with_inputs {[ "speed" := speed_fixed ]})
             (with_inputs {[ "speed" := speed_number ]})).2
          (with_inputs {[ "speed" := speed_fixed ]}) false = true.
Proof. apply updateInputParams_keeps_structure. reflexivity. Defined.

(* ===================================================================== *)
(** * Stopping actions and graphs                                         *)
(* ===================================================================== *)

Lemma stopAction_spec (id : N) (s : ActionExecutor) :
  ∃ s',
    stopAction id s = Returned tt s'
    ∧ named_action_handles_ s' = delete id (named_action_handles_ s)
    ∧ named_umrf_graphs_ s' = named_umrf_graphs_ s
    ∧ action_handle_id_count_ s' = action_handle_id_count_ s.
Proof.
  unfold stopAction. destruct (named_action_handles_ s !! id) as [h|] eqn:Hh.
  - eexists. split; [done|]. simpl. by rewrite delete_insert_eq.
  - exists s. by rewrite delete_id.
Qed.

Section StopGraphFacts.

Lemma stop_nodes_spec (l : list Umrf) (s : ActionExecutor) :
  ∃ s',
    for_each stop_node l s = Returned tt s'
    ∧ named_action_handles_ s'
      = foldl (λ h id, delete id h) (named_action_handles_ s) (getId <$> l)
    ∧ named_umrf_graphs_ s' = named_umrf_graphs_ s
    ∧ action_handle_id_count_ s' = action_handle_id_count_ s.
Proof.
  revert s. induction l as [|u l IH]; intros s; simpl.
  { by exists s. }
  unfold bind. unfold stop_node at 1. unfold try_catch.
  destruct (stopAction_spec (getId u) s) as (s1 & -> & Hh & Hg & Hc).
  destruct (IH s1) as (s' & Hrun & Hh' & Hg' & Hc').
  exists s'. rewrite Hrun, Hh', Hg', Hc', Hh, Hg, Hc. done.
Qed.

Lemma lookup_erased_other (l : list N) (m : HandleMap) (id : N) :
  id ∉ l → foldl (λ h id', delete id' h) m l !! id = m !! id.
Proof.
  revert m. induction l as [|x l IH]; intros m Hid; [done|].
  apply not_elem_of_cons in Hid as [Hne Hid]. simpl.
  rewrite IH by done. by rewrite lookup_delete_ne.
Qed.

End StopGraphFacts.

(** X10.  [stopUmrfGraph(name)] throws "doesn't exist", changing nothing,
    when no graph is stored under the name.  Otherwise it returns, the
    graph is erased and the other graphs stay; no node id of the graph has
    a handle any more, and the handles of all other ids are the ones
    stored before. *)
Theorem stopUmrfGraph_erases_graph_and_handles (graph_name : string) (s : ActionExecutor) :
  match named_umrf_graphs_ s !! graph_name with
  | None =>
      stopUmrfGraph graph_name s
      = Thrown (CREATE_TEMOTO_ERROR_STACK "ActionExecutor::stopUmrfGraph"
                  ("Cannot stop UMRF graph '" ++ graph_name
                   ++ "' because it doesn't exist.")%string) s
  | Some g =>
      ∃ s',
        stopUmrfGraph graph_name s = Returned tt s'
        ∧ named_umrf_graphs_ s' = delete graph_name (named_umrf_graphs_ s)
        ∧ action_handle_id_count_ s' = action_handle_id_count_ s
        ∧ ∀ id,
            named_action_handles_ s' !! id
            = if bool_decide (id ∈ getId <$> UmrfGraph.getUmrfs g) then None
              else named_action_handles_ s !! id
  end.
Proof.
  unfold stopUmrfGraph.
  destruct (named_umrf_graphs_ s !! graph_name) as [g|]; [|done].
  unfold bind. destruct (stop_nodes_spec (UmrfGraph.getUmrfs g) s)
    as (s1 & -> & Hh & Hg & Hc).
  eexists. split; [done|]. simpl. rewrite Hg, Hc, Hh. split_and!; try done.
  intros id. case_bool_decide as Hid.
  - by apply lookup_erased.
  - by apply lookup_erased_other.
Qed.

(* ===================================================================== *)
(** * Ids and admission                                                   *)
(* ===================================================================== *)

Section IdFacts.

Lemma assign_ids_spec (umrfs : list Umrf) (s : ActionExecutor) :
  action_handle_id_count_ s < 2 ^ 32 →
  assign_ids umrfs s
  = Returned
      (imap (λ i u, setId ((action_handle_id_count_ s + N.of_nat i) mod 2 ^ 32) u) umrfs)
      (mkExecutor (named_action_handles_ s) (named_umrf_graphs_ s)
         ((action_handle_id_count_ s + N.of_nat (length umrfs)) mod 2 ^ 32)
         (handle_calls_ s)).
Proof.
  revert s. induction umrfs as [|u umrfs IH]; intros s Hc; simpl.
  { unfold ret. f_equal. destruct s; simpl in *. f_equal.
    rewrite N.add_0_r. symmetry. by apply N.mod_small. }
  unfold bind, createId. rewrite IH; simpl.
  - unfold ret. f_equal.
    + f_equal.
      * f_equal. rewrite N.add_0_r. symmetry. by apply N.mod_small.
      * apply imap_ext. intros i x _. simpl. f_equal.
        rewrite N.Div0.add_mod_idemp_l. f_equal. lia.
    + f_equal. rewrite N.Div0.add_mod_idemp_l. f_equal. lia.
  - apply N.mod_lt. done.
Qed.

Lemma wrapped_ids_distinct (c : N) (i j : nat) :
  N.of_nat i < 2 ^ 32 → N.of_nat j < 2 ^ 32 →
  (c + N.of_nat i) mod 2 ^ 32 = (c + N.of_nat j) mod 2 ^ 32 → i = j.
Proof.
  change (2 ^ 32) with 4294967296. intros Hi Hj H.
  pose proof (N.Div0.div_mod (c + N.of_nat i) 4294967296) as Ei.
  pose proof (N.Div0.div_mod (c + N.of_nat j) 4294967296) as Ej.
  rewrite H in Ei.
  set (qi := (c + N.of_nat i) / 4294967296) in *.
  set (qj := (c + N.of_nat j) / 4294967296) in *.
  set (r := (c + N.of_nat j) mod 4294967296) in *.
  lia.
Qed.

End IdFacts.

(** X11.  Starting from a counter below 2^32, [assign_ids] (the loop of
    [addUmrfGraph] around [createId]) gives the i-th node the id
    (counter + i) mod 2^32 and nothing else, and leaves the counter at
    (counter + n) mod 2^32; for at most 2^32 nodes the ids are pairwise
    distinct. *)
Theorem assign_ids_are_consecutive (umrfs : list Umrf) (s : ActionExecutor) :
  action_handle_id_count_ s < 2 ^ 32 →
  ∃ assigned s',
    assign_ids umrfs s = Returned assigned s'
    ∧ length assigned = length umrfs
    ∧ (∀ i u, umrfs !! i = Some u →
         assigned !! i
         = Some (setId ((action_handle_id_count_ s + N.of_nat i) mod 2 ^ 32) u))
    ∧ action_handle_id_count_ s'
      = (action_handle_id_count_ s + N.of_nat (length umrfs)) mod 2 ^ 32
    ∧ named_action_handles_ s' = named_action_handles_ s
    ∧ named_umrf_graphs_ s' = named_umrf_graphs_ s
    ∧ ((N.of_nat (length umrfs) ≤ 2 ^ 32)%N → NoDup (getId <$> assigned)).
Proof.
  intros Hc. eexists _, _. split; [by apply assign_ids_spec|].
  split; [by rewrite length_imap|]. split; [|split; [done|split; [done|split; [done|]]]].
  - intros i u Hu. rewrite list_lookup_imap, Hu. done.
  - intros Hlen. apply NoDup_alt. intros i j id.
    rewrite !list_lookup_fmap, !list_lookup_imap.
    destruct (umrfs !! i) as [ui|] eqn:Hi; [|done].
    destruct (umrfs !! j) as [uj|] eqn:Hj; [|done]. simpl.
    intros [= <-] [= Heq]. apply lookup_lt_Some in Hi, Hj.
    apply (wrapped_ids_distinct (action_handle_id_count_ s)); [lia|lia|done].
Qed.

Lemma assign_ids_are_consecutive_witness :
  ∃ assigned s',
    assign_ids [a_node; b_node] stored_executor = Returned assigned s'
    ∧ length assigned = 2%nat
    ∧ (∀ i u, [a_node; b_node] !! i = Some u →
         assigned !! i = Some (setId ((1 + N.of_nat i) mod 2 ^ 32) u))
    ∧ action_handle_id_count_ s' = (1 + 2) mod 2 ^ 32
    ∧ named_action_handles_ s' = named_action_handles_ stored_executor
    ∧ named_umrf_graphs_ s' = named_umrf_graphs_ stored_executor
    ∧ ((2 ≤ 2 ^ 32)%N → NoDup (getId <$> assigned)).
Proof. apply (assign_ids_are_consecutive [a_node; b_node] stored_executor). done. Defined.

(** X12.  [addUmrfGraph] first consumes one id per node, whatever
    follows.  If the graph built from the renumbered nodes is
    [UNINITIALIZED] it throws "Cannot add UMRF graph because it's
    uninitialized." under one forwarding frame and stores nothing;
    otherwise it returns and the graph is stored under its name unless a
    graph of that name is stored already, which then stays.  Handles and
    the other graphs are never touched. *)
Theorem addUmrfGraph_consumes_ids_then_stores
    (graph_name : string) (umrfs_vec : list Umrf) (s : ActionExecutor) :
  ∃ assigned s1,
    assign_ids umrfs_vec s = Returned assigned s1
    ∧ named_action_handles_ s1 = named_action_handles_ s
    ∧ named_umrf_graphs_ s1 = named_umrf_graphs_ s
    ∧ handle_calls_ s1 = handle_calls_ s
    ∧ let ugh := UmrfGraph.new graph_name assigned in
      addUmrfGraph graph_name umrfs_vec s
      = if bool_decide (UmrfGraph.checkState ugh = UmrfGraph.UNINITIALIZED)
        then
          Thrown (TemotoErrorStack
                    [mkFrame "ActionExecutor::addUmrfGraph" "";
                     mkFrame "ActionExecutor::addUmrfGraph"
                       "Cannot add UMRF graph because it's uninitialized."]) s1
        else
          Returned tt
            (set_graphs
               (match named_umrf_graphs_ s !! graph_name with
                | Some _ => named_umrf_graphs_ s
                | None => <[graph_name := ugh]> (named_umrf_graphs_ s)
                end) s1).
Proof.
  assert (∀ l t, ∃ assigned t1,
            assign_ids l t = Returned assigned t1
            ∧ named_action_handles_ t1 = named_action_handles_ t
            ∧ named_umrf_graphs_ t1 = named_umrf_graphs_ t
            ∧ handle_calls_ t1 = handle_calls_ t) as Hassign.
  { induction l as [|u l IH]; intros t; simpl; [by exists [], t|].
    unfold bind, createId.
    destruct (IH (mkExecutor (named_action_handles_ t) (named_umrf_graphs_ t)
                    ((action_handle_id_count_ t + 1) mod 2 ^ 32) (handle_calls_ t)))
      as (assigned & t1 & -> & ? & ? & ?).
    by eexists _, t1. }
  destruct (Hassign umrfs_vec s) as (assigned & s1 & Hrun & Hh & Hg & Hc).
  exists assigned, s1. split; [done|]. do 3 (split; [done|]). cbv zeta.
  unfold addUmrfGraph, try_catch, bind, get.
  assert ((if graphExists graph_name s
           then discard (CREATE_TEMOTO_ERROR_STACK "ActionExecutor::addUmrfGraph"
                           ("UMRF graph '" +:+ graph_name +:+ "' is already added"))
           else ret ()) s = Returned tt s) as -> by by destruct (graphExists graph_name s).
  rewrite Hrun.
  destruct (bool_decide (UmrfGraph.checkState (UmrfGraph.new graph_name assigned)
                         = UmrfGraph.UNINITIALIZED)); [done|].
  unfold modify, map_insert. by rewrite Hg.
Qed.

(* ===================================================================== *)
(** * The two loops of modifyGraph                                        *)
(* ===================================================================== *)

Lemma validation_outcome (graph_name : string) (ugh : UmrfGraph.UmrfGraph)
    (graph_diffs : list UmrfGraphDiff) (s : ActionExecutor) :
  named_umrf_graphs_ s !! graph_name = Some ugh →
  if existsb (refused ugh) graph_diffs
  then ∃ stack, for_each (validate_diff graph_name) graph_diffs s
                = Thrown (TemotoErrorStack stack) s
  else for_each (validate_diff graph_name) graph_diffs s = Returned tt s.
Proof.
  intros Hg. induction graph_diffs as [|d l IH]; simpl; [done|].
  unfold bind. unfold validate_diff at 1 3. rewrite Hg. unfold refused at 1.
  destruct (bool_decide (operation d = Operation.add_umrf)).
  - destruct (UmrfGraph.partOfGraph_name _ ugh); simpl; [eauto|done].
  - destruct (UmrfGraph.partOfGraph_name _ ugh); simpl; [done|eauto].
Qed.

(** X13.  [modifyGraph] on a name without a stored graph returns normally
    and changes nothing.  On a stored graph, if some diff adds a node the
    graph holds, or names (under any other operation) a node the graph
    does not hold, it throws an error stack and changes nothing;
    otherwise the validation loop passes and the call is the loop that
    applies the diffs one after the other. *)
Theorem modifyGraph_validates_then_applies
    (graph_name : string) (graph_diffs : list UmrfGraphDiff) (s : ActionExecutor) :
  match named_umrf_graphs_ s !! graph_name with
  | None => modifyGraph graph_name graph_diffs s = Returned tt s
  | Some ugh =>
      if existsb (refused ugh) graph_diffs
      then ∃ stack, modifyGraph graph_name graph_diffs s = Thrown (TemotoErrorStack stack) s
      else modifyGraph graph_name graph_diffs s
           = for_each (apply_diff graph_name) graph_diffs s
  end.
Proof.
  unfold modifyGraph, graphExists, bind.
  destruct (named_umrf_graphs_ s !! graph_name) as [ugh|] eqn:Hg; simpl; [|done].
  pose proof (validation_outcome graph_name ugh graph_diffs s Hg) as Hv.
  destruct (existsb (refused ugh) graph_diffs).
  - destruct Hv as [stack ->]. eauto.
  - by rewrite Hv.
Qed.

(* ===================================================================== *)
(** * More on the transactional activation                                *)
(* ===================================================================== *)

Lemma ascending_empty : ascending ∅ = [].
Proof. done. Qed.

Section MoreExecuteByIdFacts.

Variable load_action : Umrf → option Exception.
Variable start_worker : Umrf → option Exception.

Local Abbreviation instantiate_body := (ActionExecutor.instantiate_body load_action).
Local Abbreviation execute_body := (ActionExecutor.execute_body start_worker).
Local Abbreviation instantiate_phase := (ActionExecutor.instantiate_phase load_action).
Local Abbreviation execute_phase := (ActionExecutor.execute_phase start_worker).
Local Abbreviation executeById := (ActionExecutor.executeById load_action start_worker).

(** Nodes the graph holds but for which no handle reaches [INITIALIZED]
    are passed over when readiness is not required. *)
Lemma load_loop_skips (ids : list N) (fr : Frame) :
  (∀ id, id ∈ ids → is_Some (UmrfGraph.getUmrfOf id (ugh fr)) ∧ not_ready id (ugh fr)) →
  for_each (load_body false) ids fr = Returned tt fr.
Proof.
  induction ids as [|id ids IH]; intros Hids; simpl; [done|].
  unfold bind. unfold load_body at 1.
  destruct (Hids id (list_elem_of_here _ _)) as [[u Hu] Hnr].
  unfold not_ready in Hnr. rewrite Hu in *.
  rewrite bool_decide_eq_false_2; [|intros H; apply Hnr; simpl; by f_equal]. simpl.
  apply IH. intros id' Hid'. apply Hids. by right.
Qed.

(** X14.  [executeById] with [initialized_requrired = false] on nodes of
    the graph none of which is ready, in particular on no node at all,
    returns normally and changes neither the registry, nor the graph, nor
    the record of calls. *)
Theorem executeById_launches_nothing_when_none_ready (ids : list N) (a : Activation) :
  (∀ id, id ∈ ids →
     is_Some (UmrfGraph.getUmrfOf id (act_ugh a)) ∧ not_ready id (act_ugh a)) →
  executeById ids false a = Returned tt a.
Proof.
  intros Hids.
  unfold ActionExecutor.executeById, executeById_frame, try_catch, load_phase, bind.
  rewrite load_loop_skips by done.
  unfold publish_handles, modify, ActionExecutor.instantiate_phase,
    ActionExecutor.execute_phase, bind, get. simpl.
  rewrite ascending_empty. simpl. unfold leave. simpl.
  rewrite (right_id_L ∅ (∪)). by destruct a.
Qed.


(** X15.  The rollback after a failure of the first loop.  When the first
    loop throws its error stack with ids already buffered, none of which
    has a handle in the registry (the buffered handles are published only
    after the loop), the catch clause fails at its first
    [named_action_handles_.at(id)]: the call leaves with
    [std::out_of_range] in place of the error stack, and nothing has
    changed. *)
Theorem executeById_first_loop_failure_escapes_as_out_of_range
    (ids : list N) (initialized_requrired : bool) (a : Activation)
    (stack : list ErrorFrame) (fr : Frame) :
  for_each (load_body initialized_requrired) ids (enter a)
  = Thrown (TemotoErrorStack stack) fr →
  action_rollback_list fr ≠ ∅ →
  (∀ id, id ∈ action_rollback_list fr → act_handles a !! id = None) →
  executeById ids initialized_requrired a = Thrown (StdException "map::at") a.
Proof.
  intros Hload Hne Hfresh.
  assert (dom (named_action_handles_tmp (enter a)) = init_action_ids (enter a)) as Htmp.
  { simpl. by rewrite dom_empty_L. }
  destruct (load_loop_spec initialized_requrired ids (enter a) eq_refl Htmp)
    as (Hh & Hg & Hc & _).
  rewrite Hload in Hh, Hg, Hc. simpl in Hh, Hg, Hc.
  unfold ActionExecutor.executeById, executeById_frame, try_catch, load_phase, bind.
  rewrite Hload. unfold rollback, bind, get.
  destruct (ascending (action_rollback_list fr)) as [|id l] eqn:Hl.
  - exfalso. apply Hne. apply set_eq. intros id.
    rewrite <- elem_of_ascending, Hl. set_solver.
  - assert (id ∈ action_rollback_list fr) as Hid.
    { apply elem_of_ascending. rewrite Hl. left. }
    simpl. unfold bind. unfold rollback_body at 1. unfold bind, at_handle.
    rewrite Hh, (Hfresh id Hid). unfold leave. rewrite Hh, Hg, Hc. by destruct a.
Qed.


End MoreExecuteByIdFacts.

Lemma executeById_launches_nothing_when_none_ready_witness :
  ActionExecutor.executeById loads starts [0] false
    (mkActivation ∅ (UmrfGraph.new "g" [bare_node]) [])
  = Returned tt (mkActivation ∅ (UmrfGraph.new "g" [bare_node]) []).
Proof.
  apply (executeById_launches_nothing_when_none_ready loads starts).
  intros id ->%list_elem_of_singleton. split; [by eexists|by vm_compute].
Defined.

Lemma executeById_first_loop_failure_escapes_as_out_of_range_witness :
  ActionExecutor.executeById loads starts [0; 1] true half_ready_activation
  = Thrown (StdException "map::at") half_ready_activation.
Proof.
  eapply (executeById_first_loop_failure_escapes_as_out_of_range loads starts).
  - vm_compute. reflexivity.
  - apply (bool_decide_unpack _). by vm_compute.
  - intros id _. done.
Defined.

Section LaunchOrderFacts.

Variable load_action : Umrf → option Exception.
Variable start_worker : Umrf → option Exception.

Local Abbreviation instantiate_body := (ActionExecutor.instantiate_body load_action).
Local Abbreviation execute_body := (ActionExecutor.execute_body start_worker).
Local Abbreviation instantiate_phase := (ActionExecutor.instantiate_phase load_action).
Local Abbreviation execute_phase := (ActionExecutor.execute_phase start_worker).
Local Abbreviation executeById := (ActionExecutor.executeById load_action start_worker).

(** The second loop, when it ends normally: one recorded
    [instantiateAction] per id, in order, and an untouched graph. *)
Lemma instantiate_loop_returns (D J : gset N) (l : list N) (fr fr' : Frame) :
  J ⊆ D → (∀ id, id ∈ l → id ∈ J) → settled D J fr →
  for_each instantiate_body l fr = Returned tt fr' →
  settled D J fr'
  ∧ calls fr' = calls fr ++ (Called_instantiateAction <$> l)
  ∧ ugh fr' = ugh fr.
Proof.
  intros HJD. revert fr. induction l as [|id l IH]; intros fr Hl Hs; simpl.
  { intros [= <-]. by rewrite app_nil_r. }
  unfold bind.
  assert (id ∈ dom (handles fr)) as Hin.
  { destruct Hs as (-> & _). apply HJD, Hl. left. }
  pose proof (instantiate_body_settled load_action D J id fr HJD
                (Hl id (list_elem_of_here _ _)) Hs) as Hs1.
  destruct (at_handle_dom id (Called_instantiateAction id)
              (ActionHandle.instantiateAction load_action) fr Hin) as (h & Hh & Hat).
  unfold ActionExecutor.instantiate_body, try_catch, bind in Hs1 |- *. rewrite Hat in Hs1 |- *.
  destruct (ActionHandle.instantiateAction load_action h) as [[] h'|e h']; simpl in *;
    [|done].
  intros Hrun. apply IH in Hrun as (Hs' & Hc & Hg); [|intros; apply Hl; by right|done].
  split; [done|]. simpl in Hc, Hg. rewrite Hc, Hg, <- app_assoc. done.
Qed.

(** The third loop, when it ends normally: one recorded
    [executeActionThread] per id, in order, each followed by
    [setNodeActive]. *)
Lemma execute_loop_returns (D J : gset N) (l : list N) (fr fr' : Frame) :
  J ⊆ D → (∀ id, id ∈ l → id ∈ J) → settled D J fr →
  for_each execute_body l fr = Returned tt fr' →
  settled D J fr'
  ∧ calls fr' = calls fr ++ (Called_executeActionThread <$> l)
  ∧ ugh fr' = foldl (λ g id, UmrfGraph.setNodeActive id g) (ugh fr) l.
Proof.
  intros HJD. revert fr. induction l as [|id l IH]; intros fr Hl Hs; simpl.
  { intros [= <-]. by rewrite app_nil_r. }
  unfold bind.
  assert (id ∈ dom (handles fr)) as Hin.
  { destruct Hs as (-> & _). apply HJD, Hl. left. }
  pose proof (execute_body_settled start_worker D J id fr HJD
                (Hl id (list_elem_of_here _ _)) Hs) as Hs1.
  destruct (at_handle_dom id (Called_executeActionThread id)
              (ActionHandle.executeActionThread start_worker) fr Hin) as (h & Hh & Hat).
  unfold ActionExecutor.execute_body, try_catch, bind in Hs1 |- *. rewrite Hat in Hs1 |- *.
  destruct (ActionHandle.executeActionThread start_worker h) as [[] h'|e h']; simpl in *;
    [|done].
  intros Hrun. apply IH in Hrun as (Hs' & Hc & Hg); [|intros; apply Hl; by right|done].
  split; [done|]. simpl in Hc, Hg. rewrite Hc, Hg, <- app_assoc. done.
Qed.

(** X16.  When [executeById] returns normally, its first loop has ended
    normally and, for the ids it buffered taken in ascending order: every
    [instantiateAction] was called before any [executeActionThread], each
    exactly once and in that order; the graph received exactly one
    [setNodeActive] per id; and the registry holds the ids it held before
    and the buffered ones. *)
Theorem executeById_success_order (ids : list N) (initialized_requrired : bool)
    (a a' : Activation) :
  executeById ids initialized_requrired a = Returned tt a' →
  ∃ fr1,
    load_phase ids initialized_requrired (enter a) = Returned tt fr1
    ∧ let launched := ascending (init_action_ids fr1) in
      act_calls a'
      = act_calls a ++ (Called_instantiateAction <$> launched)
                    ++ (Called_executeActionThread <$> launched)
      ∧ act_ugh a'
        = foldl (λ g id, UmrfGraph.setNodeActive id g) (act_ugh a) launched
      ∧ dom (act_handles a') = dom (act_handles a) ∪ init_action_ids fr1.
Proof.
  unfold ActionExecutor.executeById, executeById_frame, try_catch. unfold bind at 1.
  destruct (load_phase ids initialized_requrired (enter a)) as [[] fr1|e fr1] eqn:Hload.
  2:{ destruct (rollback_throws e fr1) as [Ht _].
      destruct (rollback e fr1); [done|]. done. }
  destruct (load_phase_spec _ _ _ _ Hload) as (Hrb & Hsub & Hg1 & Hc1 & Hh1).
  assert (settled (dom (handles fr1)) (init_action_ids fr1) fr1) as Hs1 by done.
  unfold bind.
  destruct (instantiate_phase fr1) as [[] fr2|e fr2] eqn:Hinst.
  2:{ destruct (rollback_throws e fr2) as [Ht _].
      destruct (rollback e fr2); [done|]. done. }
  destruct (execute_phase fr2) as [[] fr3|e fr3] eqn:Hexec.
  2:{ destruct (rollback_throws e fr3) as [Ht _].
      destruct (rollback e fr3); [done|]. done. }
  intros [= <-]. exists fr1. split; [done|]. cbv zeta.
  unfold ActionExecutor.instantiate_phase, bind, get in Hinst.
  apply (instantiate_loop_returns (dom (handles fr1)) (init_action_ids fr1)) in Hinst
    as (Hs2 & Hc2 & Hg2); [|done|by intros id ?%elem_of_ascending|done].
  unfold ActionExecutor.execute_phase, bind, get in Hexec.
  destruct Hs2 as (Hd2 & Hi2 & Hr2).
  rewrite Hi2 in Hexec.
  apply (execute_loop_returns (dom (handles fr1)) (init_action_ids fr1)) in Hexec
    as ((Hd3 & _) & Hc3 & Hg3); [|done|by intros id ?%elem_of_ascending|done].
  simpl. rewrite Hc3, Hc2, Hc1, Hg3, Hg2, Hg1, Hd3, Hh1. split_and!; try done.
  - by rewrite app_assoc.
  - destruct (load_loop_spec initialized_requrired ids (enter a) eq_refl) as (_ & _ & _ & _ & Ht).
    { simpl. by rewrite dom_empty_L. }
    rewrite dom_union_L. f_equal.
    unfold load_phase, bind in Hload.
    destruct (for_each (load_body initialized_requrired) ids (enter a)) as [[] fr0|]; [|done].
    unfold publish_handles, modify in Hload. injection Hload as <-. done.
Qed.

End LaunchOrderFacts.

Lemma executeById_success_order_witness :
  ∃ fr1,
    load_phase [0] true (enter stored_activation) = Returned tt fr1
    ∧ let launched := ascending (init_action_ids fr1) in
      act_calls (state_of (ActionExecutor.executeById loads starts [0] true stored_activation))
      = act_calls stored_activation ++ (Called_instantiateAction <$> launched)
                    ++ (Called_executeActionThread <$> launched)
      ∧ act_ugh (state_of (ActionExecutor.executeById loads starts [0] true stored_activation))
        = foldl (λ g id, UmrfGraph.setNodeActive id g) (act_ugh stored_activation) launched
      ∧ dom (act_handles
               (state_of (ActionExecutor.executeById loads starts [0] true stored_activation)))
        = dom (act_handles stored_activation) ∪ init_action_ids fr1.
Proof.
  apply (executeById_success_order loads starts [0] true stored_activation).
  vm_compute. reflexivity.
Defined.

(* ===================================================================== *)
(** * Completion without work, and the reaper                             *)
(* ===================================================================== *)

Lemma elem_of_ascending_names (s : gset string) (name : string) :
  name ∈ ascending_names s ↔ name ∈ s.
Proof. unfold ascending_names. by rewrite merge_sort_Permutation, elem_of_elements. Qed.

(** A loop whose turns all return without a change returns without one. *)
Lemma for_each_idle {S B} (body : B → Exec S unit) (l : list B) (s : S) :
  (∀ x, x ∈ l → body x s = Returned tt s) → for_each body l s = Returned tt s.
Proof.
  induction l as [|x l IH]; intros Hl; simpl; [done|].
  unfold bind. rewrite Hl by left. apply IH. intros y Hy. apply Hl. by right.
Qed.

Lemma executor_put_back (s : ActionExecutor) (graph_name : string)
    (g : UmrfGraph.UmrfGraph) :
  named_umrf_graphs_ s !! graph_name = Some g →
  mkExecutor (named_action_handles_ s) (<[graph_name := g]> (named_umrf_graphs_ s))
             (action_handle_id_count_ s) (handle_calls_ s) = s.
Proof. intros Hg. rewrite insert_id by done. by destruct s. Qed.

(** X17.  [notifyFinished] for a node that has no children in any stored
    graph that is [ACTIVE] returns normally and changes nothing: no
    parameter is copied, no relation marked, no handle created. *)
Theorem notifyFinished_without_active_children_is_idle
    (load_action start_worker : Umrf → option Exception)
    (parent_action_id : N) (parent_action_parameters : ActionParameters)
    (s : ActionExecutor) :
  (∀ graph_name g, named_umrf_graphs_ s !! graph_name = Some g →
     UmrfGraph.checkState g ≠ UmrfGraph.ACTIVE
     ∨ UmrfGraph.getChildrenOf parent_action_id g = []) →
  notifyFinished load_action start_worker parent_action_id parent_action_parameters s
  = Returned tt s.
Proof.
  intros Hidle. unfold notifyFinished, try_catch, bind, get.
  rewrite for_each_idle; [done|].
  intros graph_name Hname. apply elem_of_ascending_names, elem_of_dom in Hname as [g Hg].
  unfold with_graph. rewrite Hg. unfold notify_graph, bind, get. simpl.
  assert (negb (bool_decide (UmrfGraph.checkState g = UmrfGraph.ACTIVE))
          || bool_decide (UmrfGraph.getChildrenOf parent_action_id g = []) = true) as ->.
  { destruct (Hidle graph_name g Hg) as [H|H].
    - by rewrite bool_decide_eq_false_2.
    - rewrite (bool_decide_eq_true_2 _ H). apply orb_true_r. }
  unfold ret. simpl. by rewrite executor_put_back.
Qed.

Lemma notifyFinished_without_active_children_is_idle_witness :
  notifyFinished loads starts 5 ∅ stored_executor = Returned tt stored_executor.
Proof.
  apply notifyFinished_without_active_children_is_idle.
  intros graph_name g Hg. left.
  destruct (decide (graph_name = "g")) as [->|Hne].
  - injection Hg as <-. by vm_compute.
  - unfold stored_executor in Hg. simpl in Hg. by rewrite lookup_singleton_ne in Hg.
Defined.

Section ReaperNeverThrows.

Lemma on_graph_modify_returns (graph_name : string)
    (f : UmrfGraph.UmrfGraph → UmrfGraph.UmrfGraph) (s : ActionExecutor) :
  graph_name ∈ dom (named_umrf_graphs_ s) →
  ∃ s', on_graph graph_name (modify f) s = Returned tt s'
        ∧ dom (named_umrf_graphs_ s') = dom (named_umrf_graphs_ s)
        ∧ named_action_handles_ s' = named_action_handles_ s.
Proof.
  intros [g Hg]%elem_of_dom. unfold on_graph, modify. rewrite Hg.
  eexists. split; [done|]. simpl. split; [|done].
  rewrite dom_insert_L. apply (elem_of_dom_2 (D := gset string)) in Hg. set_solver.
Qed.

Lemma mark_graphs_returns (f : UmrfGraph.UmrfGraph → UmrfGraph.UmrfGraph)
    (l : list string) (s : ActionExecutor) :
  (∀ x, x ∈ l → x ∈ dom (named_umrf_graphs_ s)) →
  ∃ s', for_each (λ graph_name, on_graph graph_name (modify f)) l s = Returned tt s'
        ∧ named_action_handles_ s' = named_action_handles_ s.
Proof.
  revert s. induction l as [|x l IH]; intros s Hl; simpl; [by exists s|].
  unfold bind.
  destruct (on_graph_modify_returns x f s (Hl x (list_elem_of_here _ _)))
    as (s1 & -> & Hd & Hh).
  destruct (IH s1) as (s' & Hrun & Hh').
  { intros y Hy. rewrite Hd. apply Hl. by right. }
  exists s'. by rewrite Hrun, Hh', Hh.
Qed.

Lemma reap_handle_returns (id : N) (s : ActionExecutor) :
  ∃ s', reap_handle id s = Returned tt s'.
Proof.
  unfold reap_handle.
  destruct (named_action_handles_ s !! id) as [h|] eqn:Hh; [|by eexists].
  destruct (bool_decide (ActionHandle.getState h = ActionHandle.FINISHED)
            && ActionHandle.futureIsReady h
            && bool_decide (ActionHandle.getEffect h = "synchronous")) eqn:Hguard;
    [|by eexists].
  apply andb_true_iff in Hguard as [[_ Hready]%andb_true_iff _].
  unfold ActionHandle.futureIsReady in Hready.
  apply bool_decide_eq_true in Hready as [message Hmsg].
  unfold try_catch, bind, get. unfold at_registry at 1. rewrite Hh.
  unfold ActionHandle.getFutureValue. rewrite Hmsg.
  match goal with
  | |- context [for_each ?body ?l ?t] =>
      destruct (mark_graphs_returns
                  (λ g, if negb (UmrfGraph.partOfGraph id g) then g
                        else UmrfGraph.setNodeFinished id g) l t) as (s2 & Hrun & Hh2)
  end.
  { intros x. by rewrite elem_of_ascending_names. }
  rewrite Hrun. unfold at_registry. rewrite Hh2. simpl. rewrite lookup_insert_eq.
  by eexists.
Qed.

End ReaperNeverThrows.

(** X19.  One turn of the cleanup loop never throws.  With an empty
    registry it changes nothing, so finished graphs stay stored; with a
    handle in the registry, no graph that is stored after the turn is
    [FINISHED]. *)
Theorem cleanupLoop_turn_returns_and_sweeps (s : ActionExecutor) :
  ∃ s',
    cleanupLoop_turn s = Returned tt s'
    ∧ (named_action_handles_ s = ∅ → s' = s)
    ∧ (named_action_handles_ s ≠ ∅ →
       ∀ graph_name g, named_umrf_graphs_ s' !! graph_name = Some g →
         UmrfGraph.checkState g ≠ UmrfGraph.FINISHED).
Proof.
  unfold cleanupLoop_turn. case_bool_decide as Hempty; simpl.
  - exists s. by split_and!.
  - assert (∀ l t, ∃ t', for_each reap_handle l t = Returned tt t') as Hloop.
    { induction l as [|id l IH]; intros t; simpl; [by eexists|].
      unfold bind. destruct (reap_handle_returns id t) as [t1 ->]. apply IH. }
    unfold bind.
    destruct (Hloop (ascending (dom (named_action_handles_ s))) s) as [s2 ->].
    eexists. split; [done|]. split; [done|]. intros _ graph_name g. simpl.
    intros [_ Hg]%map_lookup_filter_Some. done.
Qed.

(* ===================================================================== *)
(** * Admission followed by a stop, and updates                           *)
(* ===================================================================== *)

Lemma assign_ids_frame (l : list Umrf) (t : ActionExecutor) :
  ∃ assigned t1,
    assign_ids l t = Returned assigned t1
    ∧ named_action_handles_ t1 = named_action_handles_ t
    ∧ named_umrf_graphs_ t1 = named_umrf_graphs_ t.
Proof.
  revert t. induction l as [|u l IH]; intros t; simpl; [by exists [], t|].
  unfold bind, createId.
  destruct (IH (mkExecutor (named_action_handles_ t) (named_umrf_graphs_ t)
                  ((action_handle_id_count_ t + 1) mod 2 ^ 32) (handle_calls_ t)))
    as (assigned & t1 & -> & ? & ?).
  by eexists _, t1.
Qed.

(** X20.  Admission undone by a stop.  After [addUmrfGraph] has stored a
    graph under a name that was free, [stopUmrfGraph] of that name
    returns, the stored graphs are the ones stored before the admission,
    and the registry has lost exactly the handles of the ids of the new
    graph's nodes; it is the registry from before when none of these ids
    had a handle. *)
Theorem addUmrfGraph_then_stopUmrfGraph
    (graph_name : string) (umrfs_vec : list Umrf) (s s1 : ActionExecutor) :
  named_umrf_graphs_ s !! graph_name = None →
  addUmrfGraph graph_name umrfs_vec s = Returned tt s1 →
  ∃ g s2,
    named_umrf_graphs_ s1 !! graph_name = Some g
    ∧ stopUmrfGraph graph_name s1 = Returned tt s2
    ∧ named_umrf_graphs_ s2 = named_umrf_graphs_ s
    ∧ (∀ id, named_action_handles_ s2 !! id
             = if bool_decide (id ∈ getId <$> UmrfGraph.getUmrfs g) then None
               else named_action_handles_ s !! id)
    ∧ ((∀ id, id ∈ getId <$> UmrfGraph.getUmrfs g → named_action_handles_ s !! id = None) →
       named_action_handles_ s2 = named_action_handles_ s).
Proof.
  intros Hfree. unfold addUmrfGraph, try_catch, bind, get.
  assert ((if graphExists graph_name s
           then discard (CREATE_TEMOTO_ERROR_STACK "ActionExecutor::addUmrfGraph"
                           ("UMRF graph '" +:+ graph_name +:+ "' is already added"))
           else ret ()) s = Returned tt s) as -> by by destruct (graphExists graph_name s).
  destruct (assign_ids_frame umrfs_vec s) as (assigned & t1 & -> & Hh & Hg).
  destruct (bool_decide (UmrfGraph.checkState (UmrfGraph.new graph_name assigned)
                         = UmrfGraph.UNINITIALIZED)); [done|].
  unfold modify, map_insert. rewrite Hg, Hfree. intros [= <-]. simpl.
  exists (UmrfGraph.new graph_name assigned).
  unfold stopUmrfGraph. simpl. rewrite lookup_insert_eq. unfold bind.
  destruct (stop_nodes_spec (UmrfGraph.getUmrfs (UmrfGraph.new graph_name assigned))
              (set_graphs (<[graph_name := UmrfGraph.new graph_name assigned]>
                             (named_umrf_graphs_ s)) t1)) as (s2 & -> & Hh2 & Hg2 & _).
  eexists. split; [done|]. split; [done|]. simpl. simpl in Hh2, Hg2.
  rewrite Hg2, Hh2, Hh, delete_insert_eq, delete_id by done. split; [done|].
  assert (∀ id,
            foldl (λ h id', delete id' h) (named_action_handles_ s)
              (getId <$> UmrfGraph.getUmrfs (UmrfGraph.new graph_name assigned)) !! id
            = if bool_decide
                   (id ∈ getId <$> UmrfGraph.getUmrfs (UmrfGraph.new graph_name assigned))
              then None else named_action_handles_ s !! id) as Hlookup.
  { intros id. case_bool_decide.
    - by apply lookup_erased.
    - by apply lookup_erased_other. }
  split; [done|]. intros Hnone. apply map_eq. intros id. rewrite Hlookup.
  case_bool_decide; [|done]. symmetry. by apply Hnone.
Qed.

Lemma addUmrfGraph_then_stopUmrfGraph_witness :
  ∃ g s2,
    named_umrf_graphs_ (state_of (addUmrfGraph "h" [b_node] stored_executor)) !! "h" = Some g
    ∧ stopUmrfGraph "h" (state_of (addUmrfGraph "h" [b_node] stored_executor))
      = Returned tt s2
    ∧ named_umrf_graphs_ s2 = named_umrf_graphs_ stored_executor
    ∧ (∀ id, named_action_handles_ s2 !! id
             = if bool_decide (id ∈ getId <$> UmrfGraph.getUmrfs g) then None
               else named_action_handles_ stored_executor !! id)
    ∧ ((∀ id, id ∈ getId <$> UmrfGraph.getUmrfs g →
          named_action_handles_ stored_executor !! id = None) →
       named_action_handles_ s2 = named_action_handles_ stored_executor).
Proof.
  apply (addUmrfGraph_then_stopUmrfGraph "h" [b_node] stored_executor).
  - reflexivity.
  - vm_compute. reflexivity.
Defined.

Section UpdateGraphFacts.

(** The comparison loop reads only: it returns on the executor as it is
    when every stored node has a structurally equal incoming node, and
    throws an error stack on it otherwise. *)
Lemma find_equal_loop (graph_name : string) (umrfs_vec l : list Umrf) (s : ActionExecutor) :
  if forallb (λ umrf_existing,
                existsb (λ umrf_in, isEqual umrf_existing umrf_in false) umrfs_vec) l
  then for_each (find_equal graph_name umrfs_vec) l s = Returned tt s
  else ∃ stack, for_each (find_equal graph_name umrfs_vec) l s
                = Thrown (TemotoErrorStack stack) s.
Proof.
  induction l as [|u l IH]; simpl; [done|].
  unfold bind. unfold find_equal at 1 3.
  destruct (existsb (λ umrf_in, isEqual u umrf_in false) umrfs_vec); simpl; [done|].
  eauto.
Qed.

(** The update loop keeps the graphs, the counter, the record of calls
    and the ids of the registry. *)
Lemma update_handles_frame (ugh : UmrfGraph.UmrfGraph) (l : list Umrf) (s : ActionExecutor) :
  let s' := state_of (for_each (update_handle ugh) l s) in
  named_umrf_graphs_ s' = named_umrf_graphs_ s
  ∧ action_handle_id_count_ s' = action_handle_id_count_ s
  ∧ handle_calls_ s' = handle_calls_ s
  ∧ dom (named_action_handles_ s') = dom (named_action_handles_ s).
Proof.
  cbv zeta.
  set (I := λ s' : ActionExecutor,
         named_umrf_graphs_ s' = named_umrf_graphs_ s
         ∧ action_handle_id_count_ s' = action_handle_id_count_ s
         ∧ handle_calls_ s' = handle_calls_ s
         ∧ dom (named_action_handles_ s') = dom (named_action_handles_ s)).
  assert (∀ u t, u ∈ l → I t →
            match update_handle ugh u t with
            | Returned _ t' => I t'
            | Thrown _ t' => I t' ∧ True
            end) as Hbody.
  { intros u t _ (Hg & Hc & Hl & Hd). unfold update_handle.
    destruct (UmrfGraph.getNodeId (getFullName u) ugh) as [handle_id|]; [|done].
    destruct (named_action_handles_ t !! handle_id) as [ah|] eqn:Hah; [|done].
    unfold I. simpl. rewrite Hg, Hc, Hl, <- Hd. split_and!; try done.
    apply dom_insert_present, elem_of_dom. eauto. }
  pose proof (for_each_invariant (update_handle ugh) l I (λ _, True) Hbody s) as Hloop.
  destruct (for_each (update_handle ugh) l s); simpl.
  - by apply Hloop.
  - by destruct Hloop.
Qed.

End UpdateGraphFacts.

(** X21.  [updateUmrfGraph] never changes the stored graphs, the id
    counter or the set of ids that have a handle.  It throws an error
    stack, with nothing at all changed, when no graph is stored under the
    name, when the number of incoming nodes differs from the number of
    stored nodes, or when some stored node has no incoming node that
    passes [isEqual(..., false)]. *)
Theorem updateUmrfGraph_checks_then_updates_handles
    (graph_name : string) (umrfs_vec : list Umrf) (s : ActionExecutor) :
  let run := updateUmrfGraph graph_name umrfs_vec s in
  (named_umrf_graphs_ (state_of run) = named_umrf_graphs_ s
   ∧ action_handle_id_count_ (state_of run) = action_handle_id_count_ s
   ∧ dom (named_action_handles_ (state_of run)) = dom (named_action_handles_ s))
  ∧ match named_umrf_graphs_ s !! graph_name with
    | None => ∃ stack, run = Thrown (TemotoErrorStack stack) s
    | Some ugh =>
        (length umrfs_vec ≠ length (UmrfGraph.getUmrfs ugh)
         ∨ (∃ umrf_existing,
              umrf_existing ∈ UmrfGraph.getUmrfs ugh
              ∧ ∀ umrf_in, umrf_in ∈ umrfs_vec → isEqual umrf_existing umrf_in false = false)) →
        ∃ stack, run = Thrown (TemotoErrorStack stack) s
    end.
Proof.
  cbv zeta. unfold updateUmrfGraph, try_catch.
  destruct (named_umrf_graphs_ s !! graph_name) as [ugh|] eqn:Hg.
  2:{ simpl. split; [done|eauto]. }
  destruct (Nat.eqb (length umrfs_vec) (length (UmrfGraph.getUmrfs ugh))) eqn:Hlen; simpl.
  2:{ split; [done|]. intros _. eauto. }
  apply Nat.eqb_eq in Hlen. unfold bind.
  pose proof (find_equal_loop graph_name umrfs_vec (UmrfGraph.getUmrfs ugh) s) as Hfind.
  destruct (forallb _ (UmrfGraph.getUmrfs ugh)) eqn:Hall.
  - rewrite Hfind. unfold updateActionHandles, try_catch.
    pose proof (update_handles_frame ugh umrfs_vec s) as Hframe. cbv zeta in Hframe.
    split.
    + destruct (for_each (update_handle ugh) umrfs_vec s) as [[] s'|[stack|what] s'];
        simpl in *; tauto.
    + intros [Hne|(umrf_existing & Hin & Hnone)]; [done|]. exfalso.
      rewrite forallb_forall in Hall. specialize (Hall umrf_existing).
      rewrite <- list_elem_of_In in Hall. specialize (Hall Hin).
      apply existsb_exists in Hall as (umrf_in & Hin' & Heq).
      apply list_elem_of_In in Hin'. rewrite (Hnone umrf_in Hin') in Heq. done.
  - destruct Hfind as [stack ->]. simpl. split; [done|eauto].
Qed.

Lemma updateUmrfGraph_checks_then_updates_handles_witness :
  ∃ stack, updateUmrfGraph "g" [b_node] stored_executor
           = Thrown (TemotoErrorStack stack) stored_executor.
Proof.
  pose proof (updateUmrfGraph_checks_then_updates_handles "g" [b_node] stored_executor)
    as [_ H].
  assert (named_umrf_graphs_ stored_executor !! "g" = Some (UmrfGraph.new "g" [a_node]))
    as Hg by reflexivity.
  rewrite Hg in H. apply H. right. exists a_node. split.
  - assert (UmrfGraph.getUmrfs (UmrfGraph.new "g" [a_node]) = [a_node]) as ->
      by reflexivity.
    left.
  - intros umrf_in ->%list_elem_of_singleton. reflexivity.
Defined.

(* ===================================================================== *)
(** * What an activation can touch                                        *)
(* ===================================================================== *)

Section KeepsFacts.

Context {S : Type} (I : S → Prop).

Lemma keeps_ret {A} (x : A) : keeps I (ret x).
Proof. by intros s. Qed.

Lemma keeps_throw {A} (e : Exception) : keeps I (throw (A := A) e).
Proof. by intros s. Qed.

Lemma keeps_modify (f : S → S) : (∀ s, I s → I (f s)) → keeps I (modify f).
Proof. intros Hf s Hs. by apply Hf. Qed.

Lemma keeps_bind {A B} (m : Exec S A) (k : A → Exec S B) :
  keeps I m → (∀ x, keeps I (k x)) → keeps I (bind m k).
Proof.
  intros Hm Hk s Hs. unfold bind. specialize (Hm s Hs).
  destruct (m s) as [x s'|e s']; [by apply Hk|done].
Qed.

(** The continuation of a [get] is only run on a state of [I]. *)
Lemma keeps_get_bind {B} (k : S → Exec S B) :
  (∀ s, I s → keeps I (k s)) → keeps I (bind get k).
Proof. intros Hk s Hs. unfold bind, get. by apply Hk. Qed.

Lemma keeps_try_catch {A} (m : Exec S A) (handler : Exception → Exec S A) :
  keeps I m → (∀ e, keeps I (handler e)) → keeps I (try_catch m handler).
Proof.
  intros Hm Hh s Hs. unfold try_catch. specialize (Hm s Hs).
  destruct (m s) as [x s'|e s']; [done|by apply Hh].
Qed.

Lemma keeps_for_each {B} (body : B → Exec S unit) (l : list B) :
  (∀ x, x ∈ l → keeps I (body x)) → keeps I (for_each body l).
Proof.
  induction l as [|x l IH]; intros Hbody; simpl; [apply keeps_ret|].
  apply keeps_bind; [apply Hbody; left|].
  intros _. apply IH. intros y Hy. apply Hbody. by right.
Qed.

End KeepsFacts.

Section ConfinementFacts.

Variable load_action : Umrf → option Exception.
Variable start_worker : Umrf → option Exception.
Variable R : N → Prop.
Variable a : Activation.

Local Abbreviation confined := (ActionExecutor.confined R a).

Lemma confined_enter : confined (enter a).
Proof.
  unfold ActionExecutor.confined. simpl. split_and!; try done.
  exists []. split; [by rewrite app_nil_r|]. intros c Hc. by apply elem_of_nil in Hc.
Qed.

Lemma confined_on_ugh (s : UmrfGraph.Node.State) (id : N) :
  R id → keeps confined (on_ugh (UmrfGraph.set_state s id)).
Proof.
  intros Hid. apply keeps_modify. intros fr (Hi & Hr & Ht & Hc & Hh & Hg & Hu).
  unfold ActionExecutor.confined. simpl. split_and!; try done.
  - intros k Hk. rewrite lookup_alter_ne; [by apply Hg|]. by intros ->.
  - intros k. rewrite <- Hu. unfold UmrfGraph.getUmrfOf. simpl.
    destruct (decide (id = k)) as [->|Hne].
    + rewrite lookup_alter_eq. by destruct (UmrfGraph.graph_nodes_ (ugh fr) !! k).
    + by rewrite lookup_alter_ne.
Qed.

Lemma confined_rollback_insert (id : N) : R id → keeps confined (rollback_insert id).
Proof.
  intros Hid. apply keeps_modify. intros fr (Hi & Hr & Ht & Hc & Hh & Hg & Hu).
  unfold ActionExecutor.confined. simpl. split_and!; try done.
  intros k [->%elem_of_singleton|Hk]%elem_of_union; auto.
Qed.

Lemma confined_erase_handle (id : N) : R id → keeps confined (erase_handle id).
Proof.
  intros Hid. apply keeps_modify. intros fr (Hi & Hr & Ht & Hc & Hh & Hg & Hu).
  unfold ActionExecutor.confined. simpl. split_and!; try done.
  intros k Hk. rewrite lookup_delete_ne; [by apply Hh|]. by intros ->.
Qed.

Lemma confined_at_handle {A} (id : N) (c : HandleCall)
    (method : Exec ActionHandle.ActionHandle A) :
  R id → call_id c = id → keeps confined (at_handle id c method).
Proof.
  intros Hid Hcall fr (Hi & Hr & Ht & (new_calls & Hc & Hnew) & Hh & Hg & Hu).
  unfold at_handle. destruct (handles fr !! id) as [h|] eqn:Hlook.
  2:{ simpl. unfold ActionExecutor.confined. split_and!; eauto. }
  assert (∀ h', confined (mkExecFrame (<[id := h']> (handles fr)) (ugh fr) (calls fr ++ [c])
                            (action_rollback_list fr) (init_action_ids fr)
                            (named_action_handles_tmp fr))) as Hput.
  { intros h'. unfold ActionExecutor.confined. simpl. split_and!; try done.
    - exists (new_calls ++ [c]). rewrite Hc, app_assoc. split; [done|].
      intros c' [Hc'| ->%list_elem_of_singleton]%elem_of_app; [by apply Hnew|].
      by rewrite Hcall.
    - intros k Hk. rewrite lookup_insert_ne; [by apply Hh|]. by intros ->. }
  destruct (method h) as [x h'|e h']; simpl; apply Hput.
Qed.

Lemma confined_load_body (ids : list N) (initialized_requrired : bool) (action_id : N) :
  (∀ id, launchable ids (act_ugh a) id → R id) → action_id ∈ ids →
  keeps confined (load_body initialized_requrired action_id).
Proof.
  intros HR Hin fr Hfr. pose proof Hfr as (Hi & Hr & Ht & Hc & Hh & Hg & Hu).
  unfold load_body. rewrite Hu.
  destruct (UmrfGraph.getUmrfOf action_id (act_ugh a)) as [u|] eqn:Hnode; [|done].
  destruct (bool_decide (ActionHandle.getState (ActionHandle.new u)
                         = ActionHandle.INITIALIZED)) eqn:Hst; simpl.
  2:{ by destruct initialized_requrired. }
  apply bool_decide_eq_true in Hst.
  assert (R (getId u)) as Hid by (apply HR; by exists action_id, u).
  unfold ActionExecutor.confined. simpl. split_and!; try done.
  - intros k [->%elem_of_singleton|Hk]%elem_of_union; auto.
  - intros k [->%elem_of_singleton|Hk]%elem_of_union; auto.
  - intros k. rewrite dom_map_insert.
    intros [->%elem_of_singleton|Hk]%elem_of_union; auto.
Qed.

Lemma confined_publish_handles : keeps confined publish_handles.
Proof.
  apply keeps_modify. intros fr (Hi & Hr & Ht & Hc & Hh & Hg & Hu).
  unfold ActionExecutor.confined. simpl. split_and!; try done.
  intros k Hk. rewrite lookup_union_l; [by apply Hh|].
  apply not_elem_of_dom. intros Hdom. by apply Hk, Ht.
Qed.

Lemma confined_instantiate_body (id : N) :
  R id → keeps confined (instantiate_body load_action id).
Proof.
  intros Hid. unfold instantiate_body. apply keeps_try_catch.
  - apply keeps_bind; [by apply confined_at_handle|].
    intros _. by apply confined_rollback_insert.
  - intros e. apply keeps_bind; [by apply confined_on_ugh|].
    intros _. apply keeps_throw.
Qed.

Lemma confined_execute_body (id : N) :
  R id → keeps confined (execute_body start_worker id).
Proof.
  intros Hid. unfold execute_body. apply keeps_try_catch.
  - apply keeps_bind; [by apply confined_at_handle|].
    intros _. apply keeps_bind; [by apply confined_rollback_insert|].
    intros _. by apply confined_on_ugh.
  - intros e. apply keeps_bind; [by apply confined_on_ugh|].
    intros _. apply keeps_throw.
Qed.

Lemma confined_rollback_body (id : N) : R id → keeps confined (rollback_body id).
Proof.
  intros Hid. unfold rollback_body.
  apply keeps_bind; [by apply confined_at_handle|].
  intros _. apply keeps_bind; [by apply confined_erase_handle|].
  intros _. by apply confined_on_ugh.
Qed.

(** The whole of [executeById] stays within the ids it can buffer. *)
Lemma executeById_frame_confined (ids : list N) (initialized_requrired : bool) :
  (∀ id, launchable ids (act_ugh a) id → R id) →
  keeps confined (executeById_frame load_action start_worker ids initialized_requrired).
Proof.
  intros HR. unfold executeById_frame. apply keeps_try_catch.
  - apply keeps_bind.
    { unfold load_phase. apply keeps_bind; [|intros _; apply confined_publish_handles].
      apply keeps_for_each. intros id Hid. by apply confined_load_body with ids. }
    intros _. apply keeps_bind.
    { unfold instantiate_phase. apply keeps_get_bind. intros fr (Hi & _).
      apply keeps_for_each. intros id Hid%elem_of_ascending.
      apply confined_instantiate_body. by apply Hi. }
    intros _. unfold execute_phase. apply keeps_get_bind. intros fr (Hi & _).
    apply keeps_for_each. intros id Hid%elem_of_ascending.
    apply confined_execute_body. by apply Hi.
  - intros [stack|what]; simpl; [|apply keeps_throw].
    apply keeps_get_bind. intros fr (_ & Hr & _).
    apply keeps_bind; [|intros _; apply keeps_throw].
    apply keeps_for_each. intros id Hid%elem_of_ascending.
    apply confined_rollback_body. by apply Hr.
Qed.

End ConfinementFacts.

(** [executeById], seen from its caller: the calls it records are calls
    on ids it can buffer, and outside these ids the registry and the node
    entries of the graph stay; the node descriptions stay everywhere. *)
Lemma executeById_confined (load_action start_worker : Umrf → option Exception)
    (ids : list N) (initialized_requrired : bool) (a : Activation) :
  let a' := state_of (executeById load_action start_worker ids initialized_requrired a) in
  let R := launchable ids (act_ugh a) in
  (∃ new_calls,
     act_calls a' = act_calls a ++ new_calls ∧ ∀ c, c ∈ new_calls → R (call_id c))
  ∧ (∀ id, ¬ R id → act_handles a' !! id = act_handles a !! id)
  ∧ (∀ id, ¬ R id →
       UmrfGraph.graph_nodes_ (act_ugh a') !! id = UmrfGraph.graph_nodes_ (act_ugh a) !! id)
  ∧ (∀ id, UmrfGraph.getUmrfOf id (act_ugh a') = UmrfGraph.getUmrfOf id (act_ugh a)).
Proof.
  cbv zeta.
  pose proof (executeById_frame_confined load_action start_worker
                (launchable ids (act_ugh a)) a ids initialized_requrired
                (λ _ H, H) (enter a) (confined_enter _ a)) as H.
  unfold executeById.
  destruct (executeById_frame _ _ ids initialized_requrired (enter a)) as [[] fr|e fr];
    simpl in *; destruct H as (_ & _ & _ & Hc & Hh & Hg & Hu); done.
Qed.

(* ===================================================================== *)
(** * Completion: which children a finished parent activates              *)
(* ===================================================================== *)

Section ReadinessFacts.

Implicit Types (g : UmrfGraph.UmrfGraph) (u : Umrf).

(** A handle reaches [INITIALIZED] only for a node whose required
    parents have all been received. *)
Lemma new_INITIALIZED u :
  ActionHandle.getState (ActionHandle.new u) = ActionHandle.INITIALIZED →
  isUmrfCorrect u = true ∧ requiredParentsFinished u = true
  ∧ inputParametersReceived u = true.
Proof.
  unfold ActionHandle.getState, ActionHandle.new. simpl.
  destruct (isUmrfCorrect u), (requiredParentsFinished u), (inputParametersReceived u);
    by simpl.
Qed.

(** Graphs with the same node descriptions have the same node ids, the
    same children and the same ready children. *)
Lemma same_umrfs_same_ids g g' :
  (∀ id, UmrfGraph.getUmrfOf id g' = UmrfGraph.getUmrfOf id g) →
  UmrfGraph.getNodeIds g' = UmrfGraph.getNodeIds g.
Proof.
  intros Hu. unfold UmrfGraph.getNodeIds. f_equal. apply set_eq. intros id.
  rewrite !elem_of_dom. specialize (Hu id). unfold UmrfGraph.getUmrfOf in Hu.
  destruct (UmrfGraph.graph_nodes_ g' !! id), (UmrfGraph.graph_nodes_ g !! id);
    simpl in Hu; try done; split; intros []; done.
Qed.

Lemma same_umrfs_same_children g g' (parent_action_id : N) :
  (∀ id, UmrfGraph.getUmrfOf id g' = UmrfGraph.getUmrfOf id g) →
  UmrfGraph.getChildrenOf parent_action_id g' = UmrfGraph.getChildrenOf parent_action_id g.
Proof.
  intros Hu. unfold UmrfGraph.getChildrenOf. rewrite Hu, (same_umrfs_same_ids g g' Hu).
  destruct (UmrfGraph.getUmrfOf parent_action_id g) as [u|]; [|done].
  apply List.filter_ext. intros id. by rewrite Hu.
Qed.

Lemma existsb_pointwise {A} (f f' : A → bool) (l : list A) :
  (∀ x, f x = f' x) → existsb f l = existsb f' l.
Proof. intros Hf. induction l as [|x l IH]; simpl; [done|]. by rewrite Hf, IH. Qed.

Lemma same_umrfs_same_ready g g' (parent_action_id id : N) :
  (∀ id, UmrfGraph.getUmrfOf id g' = UmrfGraph.getUmrfOf id g) →
  ready_child parent_action_id g' id = ready_child parent_action_id g id.
Proof.
  intros Hu. unfold ready_child. rewrite (same_umrfs_same_children g g' _ Hu).
  apply existsb_pointwise. intros child_id. by rewrite Hu.
Qed.

(** What [executeById] can buffer among the children is a ready child. *)
Lemma launchable_ready g (parent_action_id id : N) :
  launchable (UmrfGraph.getChildrenOf parent_action_id g) g id →
  ready_child parent_action_id g id = true.
Proof.
  intros (child_id & child & Hin & Hnode & Hst & Hid).
  apply new_INITIALIZED in Hst as (_ & Hp & _).
  unfold ready_child. apply existsb_exists. exists child_id.
  split; [by apply list_elem_of_In|].
  rewrite Hnode, Hp, andb_true_r. by apply bool_decide_eq_true.
Qed.

(** In a graph that stores its nodes under their ids, a child whose
    required parents have not all been received is not a ready child. *)
Lemma pending_not_ready g (parent_action_id child_id : N) (child : Umrf) :
  UmrfGraph.keyed g →
  UmrfGraph.getUmrfOf child_id g = Some child →
  requiredParentsFinished child = false →
  ready_child parent_action_id g child_id = false.
Proof.
  intros Hkeyed Hnode Hpending. apply not_true_is_false. intros Hready.
  unfold ready_child in Hready. apply existsb_exists in Hready as (k & _ & Hk).
  destruct (UmrfGraph.getUmrfOf k g) as [c|] eqn:Hc; [|done].
  apply andb_true_iff in Hk as [Hid%bool_decide_eq_true Hp].
  unfold UmrfGraph.getUmrfOf in Hc, Hnode.
  destruct (UmrfGraph.graph_nodes_ g !! k) as [n|] eqn:Hn; [|done].
  simpl in Hc. injection Hc as <-. pose proof (Hkeyed _ _ Hn) as Hkey. simpl in Hkey.
  rewrite Hkey in Hid. subst k. rewrite Hn in Hnode. simpl in Hnode.
  injection Hnode as <-. congruence.
Qed.

End ReadinessFacts.

Section PropagationFacts.

Variable a : Activation.

Local Abbreviation untouched := (ActionExecutor.untouched a).

Lemma untouched_on_umrf {A} (child_id : N) (m : Exec Umrf A) :
  (∀ u, getId (state_of (m u)) = getId u) →
  keeps untouched (on_act_ugh (UmrfGraph.on_umrf child_id m)).
Proof.
  intros Hm a1 (Hh & Hc & Hs & Hi). unfold on_act_ugh, UmrfGraph.on_umrf.
  destruct (UmrfGraph.graph_nodes_ (act_ugh a1) !! child_id) as [n|] eqn:Hn; [|done].
  assert (∀ u, getId u = getId (UmrfGraph.umrf_ n) →
            untouched
              (mkActivation (act_handles a1)
                 (UmrfGraph.set_graph_nodes_
                    (<[child_id := UmrfGraph.mkNode u (UmrfGraph.state_ n)]>
                       (UmrfGraph.graph_nodes_ (act_ugh a1))) (act_ugh a1))
                 (act_calls a1))) as Hput.
  { intros u Hu. unfold ActionExecutor.untouched. simpl. split_and!; try done.
    - intros id. rewrite <- Hs. destruct (decide (id = child_id)) as [->|Hne].
      + by rewrite lookup_insert_eq, Hn.
      + by rewrite lookup_insert_ne.
    - intros id. rewrite <- Hi. unfold UmrfGraph.getUmrfOf. simpl.
      destruct (decide (id = child_id)) as [->|Hne].
      + rewrite lookup_insert_eq, Hn. simpl. by rewrite Hu.
      + by rewrite lookup_insert_ne. }
  specialize (Hm (UmrfGraph.umrf_ n)).
  destruct (m (UmrfGraph.umrf_ n)) as [x u|e u]; simpl in *; by apply Hput.
Qed.

Lemma untouched_propagate (parent_action_id : N)
    (parent_action_parameters : ActionParameters) (children : list N) :
  keeps untouched
    (for_each
       (λ child_id,
          on_act_ugh
            (UmrfGraph.on_umrf child_id
               (modify (λ child_umrf,
                          (copyInputParameters parent_action_parameters child_umrf).2))) ;;;
          on_act_ugh
            (g <- get ;;
             match UmrfGraph.getUmrfOf parent_action_id g with
             | None => throw (StdException "map::at")
             | Some parent =>
                 UmrfGraph.on_umrf child_id (setParentReceived (asRelation parent))
             end))%exec
       children).
Proof.
  apply keeps_for_each. intros child_id _. apply keeps_bind.
  { apply untouched_on_umrf. by intros u. }
  intros _ a1 Ha1. unfold on_act_ugh at 1. unfold bind at 1. unfold get at 1.
  destruct (UmrfGraph.getUmrfOf parent_action_id (act_ugh a1)) as [parent|] eqn:Hp.
  - pose proof (untouched_on_umrf child_id (setParentReceived (asRelation parent))) as H.
    unfold keeps, on_act_ugh in H. apply H; [|done].
    intros u. unfold setParentReceived. by destruct (mark_received _ _).
  - simpl. by destruct a1.
Qed.

End PropagationFacts.

Section NotifyGraphFacts.

Variable load_action : Umrf → option Exception.
Variable start_worker : Umrf → option Exception.
Variable parent_action_id : N.
Variable parent_action_parameters : ActionParameters.

Local Abbreviation notify_graph :=
  (ActionExecutor.notify_graph load_action start_worker parent_action_id
     parent_action_parameters).

(** The body of the loop of [notifyFinished], for one graph: every handle
    call it records, and every change it makes to the registry, is on the
    id of a ready child of the parent in a graph that was [ACTIVE]; the
    runtime state of a node changes only under such an id; and no node
    changes its id. *)
Lemma notify_graph_spec (a : Activation) :
  let a' := state_of (notify_graph a) in
  let activated id :=
    UmrfGraph.checkState (act_ugh a) = UmrfGraph.ACTIVE
    ∧ ready_child parent_action_id (act_ugh a') id = true in
  (∃ new_calls,
     act_calls a' = act_calls a ++ new_calls ∧ ∀ c, c ∈ new_calls → activated (call_id c))
  ∧ (∀ id, ¬ activated id → act_handles a' !! id = act_handles a !! id)
  ∧ (∀ id, ready_child parent_action_id (act_ugh a') id = false →
       UmrfGraph.state_ <$> UmrfGraph.graph_nodes_ (act_ugh a') !! id
       = UmrfGraph.state_ <$> UmrfGraph.graph_nodes_ (act_ugh a) !! id)
  ∧ (∀ id, getId <$> UmrfGraph.getUmrfOf id (act_ugh a')
           = getId <$> UmrfGraph.getUmrfOf id (act_ugh a)).
Proof.
  cbv zeta.
  assert (∀ x : Activation,
            (∃ new_calls : list HandleCall,
               act_calls x = act_calls x ++ new_calls
               ∧ ∀ c, c ∈ new_calls →
                   UmrfGraph.checkState (act_ugh a) = UmrfGraph.ACTIVE
                   ∧ ready_child parent_action_id (act_ugh x) (call_id c) = true))
    as Hnone.
  { intros x. exists []. split; [by rewrite app_nil_r|].
    intros c Hc. by apply elem_of_nil in Hc. }
  pose proof (untouched_propagate a parent_action_id parent_action_parameters
                (UmrfGraph.getChildrenOf parent_action_id (act_ugh a)) a) as Hloop.
  assert (ActionExecutor.untouched a a) as Hrefl by by repeat split.
  specialize (Hloop Hrefl). clear Hrefl.
  unfold ActionExecutor.notify_graph, bind, get in *.
  destruct (negb (bool_decide (UmrfGraph.checkState (act_ugh a) = UmrfGraph.ACTIVE))
            || bool_decide (UmrfGraph.getChildrenOf parent_action_id (act_ugh a) = []))
    eqn:Hguard.
  { simpl. split_and!; auto. }
  apply orb_false_iff in Hguard as [Hactive%negb_false_iff%bool_decide_eq_true _].
  match type of Hloop with
  | context [for_each ?body ?l a] =>
      destruct (for_each body l a) as [[] a1|e a1] eqn:Hrun
  end; simpl in Hloop; destruct Hloop as (Hh & Hc & Hs & Hi).
  2:{ simpl. rewrite Hh, Hc. split_and!; auto. destruct (Hnone a1) as (new_calls & Heq & Hin).
      exists new_calls. by rewrite <- Hc. }
  pose proof (executeById_confined load_action start_worker
                (UmrfGraph.getChildrenOf parent_action_id (act_ugh a1)) false a1) as Hrun2.
  cbv zeta in Hrun2. destruct Hrun2 as ((new_calls & Hc2 & Hnew) & Hh2 & Hg2 & Hu2).
  set (a2 := state_of (executeById load_action start_worker
                         (UmrfGraph.getChildrenOf parent_action_id (act_ugh a1)) false a1))
    in *.
  assert (∀ id,
            launchable (UmrfGraph.getChildrenOf parent_action_id (act_ugh a1))
                       (act_ugh a1) id →
            ready_child parent_action_id (act_ugh a2) id = true) as Hready.
  { intros id Hid. rewrite (same_umrfs_same_ready (act_ugh a1) (act_ugh a2) _ _ Hu2).
    by apply launchable_ready. }
  split_and!.
  - exists new_calls. rewrite Hc2, Hc. split; [done|]. intros c Hin. split; [done|].
    by apply Hready, Hnew.
  - intros id Hid. rewrite Hh2, Hh; [done|]. intros Hl. apply Hid. split; [done|].
    by apply Hready.
  - intros id Hid. rewrite Hg2, Hs; [done|]. intros Hl. apply Hready in Hl. congruence.
  - intros id. by rewrite Hu2, Hi.
Qed.

End NotifyGraphFacts.

Section NotifyLoopFacts.

Variable load_action : Umrf → option Exception.
Variable start_worker : Umrf → option Exception.
Variable parent_action_id : N.
Variable parent_action_parameters : ActionParameters.

Local Abbreviation notify_graph :=
  (ActionExecutor.notify_graph load_action start_worker parent_action_id
     parent_action_parameters).
Local Abbreviation notified := (ActionExecutor.notified).

Lemma notified_refl (names : list string) (s : ActionExecutor) :
  notified names parent_action_id s s.
Proof.
  unfold ActionExecutor.notified. split_and!; try done.
  - exists []. split; [by rewrite app_nil_r|]. intros c Hc. by apply elem_of_nil in Hc.
  - intros graph_name g g' id Hg Hg'. rewrite Hg in Hg'. by injection Hg' as <-.
Qed.

(** One graph handled, then the others. *)
Lemma notified_step (graph_name : string) (names : list string)
    (s s' : ActionExecutor) (g : UmrfGraph.UmrfGraph) (a' : Activation) :
  graph_name ∉ names →
  named_umrf_graphs_ s !! graph_name = Some g →
  a' = state_of (notify_graph (mkActivation (named_action_handles_ s) g (handle_calls_ s))) →
  notified names parent_action_id
    (mkExecutor (act_handles a') (<[graph_name := act_ugh a']> (named_umrf_graphs_ s))
                (action_handle_id_count_ s) (act_calls a')) s' →
  notified (graph_name :: names) parent_action_id s s'.
Proof.
  intros Hfresh Hg Ha' (Hf2 & (new2 & Hc2 & Hnew2) & Hh2 & Hn2).
  pose proof (notify_graph_spec load_action start_worker parent_action_id
                parent_action_parameters
                (mkActivation (named_action_handles_ s) g (handle_calls_ s))) as Hone.
  cbv zeta in Hone. rewrite <- Ha' in Hone. simpl in Hone, Hf2, Hc2, Hh2, Hn2.
  destruct Hone as ((new1 & Hc1 & Hnew1) & Hh1 & Hs1 & Hi1).
  set (s1 := mkExecutor (act_handles a') (<[graph_name := act_ugh a']> (named_umrf_graphs_ s))
                        (action_handle_id_count_ s) (act_calls a')) in *.
  assert (named_umrf_graphs_ s' !! graph_name = Some (act_ugh a')) as Hg'.
  { rewrite Hf2 by done. by rewrite lookup_insert_eq. }
  assert (∀ name, name ≠ graph_name →
            <[graph_name := act_ugh a']> (named_umrf_graphs_ s) !! name
            = named_umrf_graphs_ s !! name) as Hother.
  { intros name Hne. by rewrite lookup_insert_ne. }
  assert (∀ id, ready_child_in names parent_action_id s1 s' id →
                ready_child_in (graph_name :: names) parent_action_id s s' id) as Hlift.
  { intros id (name & g0 & g' & Hin & Hg0 & Hact & Hg2 & Hr).
    exists name, g0, g'. split; [by right|]. split; [|done].
    simpl in Hg0. rewrite <- Hother; [done|]. by intros ->. }
  assert (∀ id, UmrfGraph.checkState g = UmrfGraph.ACTIVE
                ∧ ready_child parent_action_id (act_ugh a') id = true →
                ready_child_in (graph_name :: names) parent_action_id s s' id) as Hhere.
  { intros id [Hact Hr]. exists graph_name, g, (act_ugh a'). split; [left|]. done. }
  unfold ActionExecutor.notified. split_and!.
  - intros name [Hne Hnot]%not_elem_of_cons. by rewrite Hf2, Hother.
  - exists (new1 ++ new2). rewrite Hc2, Hc1, app_assoc.
    split; [done|]. intros c [Hin|Hin]%elem_of_app; auto.
  - intros id Hid. rewrite Hh2 by (intros H; by apply Hid, Hlift).
    apply Hh1. intros H. by apply Hid, Hhere.
  - intros name g0 g' id Hg0 Hg2. destruct (decide (name = graph_name)) as [->|Hne].
    + rewrite Hg in Hg0. injection Hg0 as <-. rewrite Hg' in Hg2. injection Hg2 as <-.
      split; [apply Hs1|apply Hi1].
    + apply (Hn2 name); [|done]. by rewrite Hother.
Qed.

(** The loop of [notifyFinished] over distinct graph names. *)
Lemma notify_loop_spec (names : list string) (s : ActionExecutor) :
  NoDup names →
  notified names parent_action_id s
    (state_of (for_each (λ graph_name, with_graph graph_name notify_graph) names s)).
Proof.
  revert s. induction names as [|graph_name names IH]; intros s Hnd.
  { apply notified_refl. }
  apply NoDup_cons in Hnd as [Hfresh Hnd]. simpl. unfold bind.
  assert (with_graph graph_name notify_graph s
          = match named_umrf_graphs_ s !! graph_name with
            | None => Thrown (StdException "map::at") s
            | Some g =>
                let put a := mkExecutor (act_handles a)
                               (<[graph_name := act_ugh a]> (named_umrf_graphs_ s))
                               (action_handle_id_count_ s) (act_calls a) in
                match notify_graph (mkActivation (named_action_handles_ s) g
                                      (handle_calls_ s)) with
                | Returned x a => Returned x (put a)
                | Thrown e a => Thrown e (put a)
                end
            end) as -> by reflexivity.
  destruct (named_umrf_graphs_ s !! graph_name) as [g|] eqn:Hg; [|apply notified_refl].
  cbv zeta.
  destruct (notify_graph (mkActivation (named_action_handles_ s) g (handle_calls_ s)))
    as [[] a1|e a1] eqn:Hrun.
  - apply (notified_step graph_name names s _ g a1); [done|done|by rewrite Hrun|].
    by apply IH.
  - apply (notified_step graph_name names s _ g a1); [done|done|by rewrite Hrun|].
    apply notified_refl.
Qed.

End NotifyLoopFacts.

Lemma NoDup_ascending_names (s : gset string) : NoDup (ascending_names s).
Proof. unfold ascending_names. rewrite merge_sort_Permutation. apply NoDup_elements. Qed.

(** The ids are kept, so a graph that stores its nodes under their ids
    still does. *)
Lemma keyed_same_ids (g g' : UmrfGraph.UmrfGraph) :
  (∀ id, getId <$> UmrfGraph.getUmrfOf id g' = getId <$> UmrfGraph.getUmrfOf id g) →
  UmrfGraph.keyed g → UmrfGraph.keyed g'.
Proof.
  intros Hids Hkeyed id n' Hn'. specialize (Hids id). unfold UmrfGraph.getUmrfOf in Hids.
  rewrite Hn' in Hids. simpl in Hids.
  destruct (UmrfGraph.graph_nodes_ g !! id) as [n|] eqn:Hn; [|done].
  simpl in Hids. injection Hids as ->. by apply (Hkeyed id n).
Qed.



(** The join graph, step by step: when [p] alone has fired nothing is
    launched; once [q] has fired as well, [d] is instantiated, started and
    set active. *)
Lemma notifyFinished_launches_child_of_finished_parents :
  let s1 := state_of (notifyFinished loads starts 0 ∅ join_executor) in
  let s2 := state_of (notifyFinished loads starts 1 ∅ s1) in
  handle_calls_ s1 = []
  ∧ handle_calls_ s2 = [Called_instantiateAction 2; Called_executeActionThread 2]
  ∧ ActionHandle.getState <$> named_action_handles_ s2 !! 2 = Some ActionHandle.RUNNING
  ∧ (named_umrf_graphs_ s2 !! "join")
      ≫= (λ g', UmrfGraph.state_ <$> UmrfGraph.graph_nodes_ g' !! 2)
    = Some UmrfGraph.Node.ACTIVE.
Proof. vm_compute. by repeat split. Qed.

(* ===================================================================== *)
(** * A launch that returns                                               *)
(* ===================================================================== *)

(** A filtered list of ascending ids is the ascending list of its ids,
    which is the order a [std::set] built from it is iterated in. *)
Lemma ascending_filter (f : N → bool) (s : gset N) :
  ascending (list_to_set (List.filter f (ascending s))) = List.filter f (ascending s).
Proof.
  assert (∀ l : list N, StronglySorted N.le l → StronglySorted N.le (List.filter f l))
    as Hfilter.
  { induction 1 as [|x l Hl IH Hx]; simpl; [constructor|].
    destruct (f x); [|done]. constructor; [done|].
    apply Forall_forall. intros y Hy%list_elem_of_In%List.filter_In.
    rewrite Forall_forall in Hx. apply Hx. by apply list_elem_of_In, Hy. }
  assert (NoDup (List.filter f (ascending s))) as Hnd.
  { pose proof (NoDup_ascending s) as Hs.
    induction Hs as [|x l Hx Hl IH]; simpl; [constructor|].
    destruct (f x); [|done]. constructor; [|done].
    intros Hin%list_elem_of_In%List.filter_In. apply Hx, list_elem_of_In. tauto. }
  unfold ascending at 1. apply (Sorted_unique N.le).
  - apply Sorted_merge_sort. apply _.
  - apply StronglySorted_Sorted, Hfilter. unfold ascending.
    apply StronglySorted_merge_sort; apply _.
  - rewrite merge_sort_Permutation. by apply elements_list_to_set.
Qed.

Lemma lookup_set_active (l : list N) (g : UmrfGraph.UmrfGraph) (id : N) :
  UmrfGraph.graph_nodes_ (foldl (λ g id, UmrfGraph.setNodeActive id g) g l) !! id
  = if bool_decide (id ∈ l)
    then (λ n, UmrfGraph.mkNode (UmrfGraph.umrf_ n) UmrfGraph.Node.ACTIVE)
           <$> UmrfGraph.graph_nodes_ g !! id
    else UmrfGraph.graph_nodes_ g !! id.
Proof.
  revert g. induction l as [|x l IH] using rev_ind; intros g; [done|].
  rewrite foldl_app. simpl. destruct (decide (id = x)) as [->|Hne].
  - rewrite lookup_alter_eq, IH.
    rewrite (bool_decide_eq_true_2 (x ∈ l ++ [x])) by (apply elem_of_app; right; left).
    case_bool_decide; [|done]. by destruct (UmrfGraph.graph_nodes_ g !! x).
  - rewrite lookup_alter_ne, IH by done. apply (f_equal (λ b : bool, if b then _ else _)).
    apply bool_decide_ext. rewrite elem_of_app, list_elem_of_singleton. tauto.
Qed.

(** With [initialized_requrired] set, a first loop that ends has found
    every node ready and has buffered every id. *)
Lemma load_loop_buffers_all (ids : list N) (fr fr' : Frame) :
  UmrfGraph.keyed (ugh fr) →
  for_each (load_body true) ids fr = Returned tt fr' →
  (∀ id, id ∈ ids → ¬ not_ready id (ugh fr))
  ∧ init_action_ids fr' = list_to_set ids ∪ init_action_ids fr.
Proof.
  intros Hkeyed. revert fr Hkeyed. induction ids as [|x ids IH]; intros fr Hkeyed; simpl.
  { intros [= <-]. split; [by intros id ?%elem_of_nil|set_solver]. }
  unfold bind. destruct (load_body true x fr) as [[] fr1|e fr1] eqn:Hx; [|done].
  unfold load_body in Hx.
  destruct (UmrfGraph.getUmrfOf x (ugh fr)) as [u|] eqn:Hu; [|done].
  destruct (bool_decide (ActionHandle.getState (ActionHandle.new u)
                         = ActionHandle.INITIALIZED)) eqn:Hst; simpl in Hx; [|done].
  apply bool_decide_eq_true in Hst. injection Hx as <-.
  assert (getId u = x) as Hid.
  { unfold UmrfGraph.getUmrfOf in Hu.
    destruct (UmrfGraph.graph_nodes_ (ugh fr) !! x) as [n|] eqn:Hn; [|done].
    simpl in Hu. injection Hu as <-. by apply (Hkeyed x n). }
  intros Hrun. apply IH in Hrun as [Hready Hinit]; [|done]. simpl in Hready, Hinit.
  split.
  - intros id [->|Hin]%elem_of_cons; [|by apply Hready].
    intros Hnr. apply Hnr. unfold ActionHandle.getHandleId. rewrite Hu. simpl. by f_equal.
  - rewrite Hinit. unfold ActionHandle.getHandleId. simpl. rewrite Hid. set_solver.
Qed.

Section LaunchReturnsFacts.

Variable load_action : Umrf → option Exception.
Variable start_worker : Umrf → option Exception.

Local Abbreviation instantiate_body := (ActionExecutor.instantiate_body load_action).
Local Abbreviation execute_body := (ActionExecutor.execute_body start_worker).
Local Abbreviation instantiate_phase := (ActionExecutor.instantiate_phase load_action).
Local Abbreviation execute_phase := (ActionExecutor.execute_phase start_worker).
Local Abbreviation executeById := (ActionExecutor.executeById load_action start_worker).
Local Abbreviation executeUmrfGraph :=
  (ActionExecutor.executeUmrfGraph load_action start_worker).

(** A turn of the third loop on another id leaves a handle alone. *)
Lemma execute_body_other (id x : N) (h : option ActionHandle.ActionHandle) :
  id ≠ x →
  keeps (λ fr', handles fr' !! x = h) (execute_body id).
Proof.
  intros Hne. unfold ActionExecutor.execute_body. apply keeps_try_catch.
  - apply keeps_bind.
    { intros fr0 Hfr0. unfold at_handle.
      destruct (handles fr0 !! id) as [h0|]; [|done].
      destruct (ActionHandle.executeActionThread start_worker h0); simpl;
        by rewrite lookup_insert_ne. }
    intros _. apply keeps_bind; [by apply keeps_modify|].
    intros _. by apply keeps_modify.
  - intros e. apply keeps_bind; [by apply keeps_modify|]. intros _. apply keeps_throw.
Qed.

(** The third loop, when it ends normally over distinct ids, leaves the
    handle of each in state [RUNNING]. *)
Lemma execute_loop_running (l : list N) (fr fr' : Frame) :
  NoDup l →
  for_each execute_body l fr = Returned tt fr' →
  ∀ id, id ∈ l →
    ActionHandle.getState <$> handles fr' !! id = Some ActionHandle.RUNNING.
Proof.
  revert fr. induction l as [|x l IH]; intros fr Hnd Hrun id Hid.
  { by apply elem_of_nil in Hid. }
  apply NoDup_cons in Hnd as [Hx Hnd]. simpl in Hrun. unfold bind in Hrun.
  destruct (execute_body x fr) as [[] fr1|e fr1] eqn:Hbody; [|done].
  apply elem_of_cons in Hid as [->|Hid]; [|by apply (IH fr1)].
  assert (ActionHandle.getState <$> handles fr1 !! x = Some ActionHandle.RUNNING) as Hfr1.
  { unfold ActionExecutor.execute_body, try_catch, bind, at_handle in Hbody.
    destruct (handles fr !! x) as [h|]; [|done].
    unfold ActionHandle.executeActionThread in Hbody.
    destruct (start_worker (ActionHandle.umrf_ h)); [done|].
    simpl in Hbody. injection Hbody as <-. simpl. by rewrite lookup_insert_eq. }
  pose proof (keeps_for_each (λ fr', handles fr' !! x = handles fr1 !! x) execute_body l)
    as Hkeep.
  unfold keeps in Hkeep. rewrite <- Hfr1. f_equal.
  specialize (Hkeep (λ y Hy, execute_body_other y x _ ltac:(intros ->; done)) fr1 eq_refl).
  by rewrite Hrun in Hkeep.
Qed.

(** [executeById] when it returns: the three loops have ended, one after
    the other, over the ids the first one buffered. *)
Lemma executeById_returns (ids : list N) (initialized_requrired : bool)
    (a a' : Activation) :
  executeById ids initialized_requrired a = Returned tt a' →
  ∃ fr0,
    for_each (load_body initialized_requrired) ids (enter a) = Returned tt fr0
    ∧ let launched := ascending (init_action_ids fr0) in
      act_calls a'
      = act_calls a ++ (Called_instantiateAction <$> launched)
                    ++ (Called_executeActionThread <$> launched)
      ∧ act_ugh a' = foldl (λ g id, UmrfGraph.setNodeActive id g) (act_ugh a) launched
      ∧ dom (act_handles a') = dom (act_handles a) ∪ init_action_ids fr0
      ∧ ∀ id, id ∈ init_action_ids fr0 →
          ActionHandle.getState <$> act_handles a' !! id = Some ActionHandle.RUNNING.
Proof.
  unfold ActionExecutor.executeById, executeById_frame, try_catch. unfold bind at 1.
  destruct (load_phase ids initialized_requrired (enter a)) as [[] fr1|e fr1] eqn:Hload.
  2:{ destruct (rollback_throws e fr1) as [Ht _]. by destruct (rollback e fr1). }
  destruct (load_phase_spec _ _ _ _ Hload) as (Hrb & Hsub & Hg1 & Hc1 & Hh1).
  assert (settled (dom (handles fr1)) (init_action_ids fr1) fr1) as Hs1 by done.
  assert (∃ fr0, for_each (load_body initialized_requrired) ids (enter a) = Returned tt fr0
                 ∧ init_action_ids fr1 = init_action_ids fr0
                 ∧ dom (handles fr1) = dom (act_handles a) ∪ init_action_ids fr0)
    as (fr0 & Hloop & Hinit & Hdom).
  { unfold load_phase, bind in Hload.
    destruct (load_loop_spec initialized_requrired ids (enter a) eq_refl)
      as (Hh0 & _ & _ & _ & Ht).
    { simpl. by rewrite dom_empty_L. }
    destruct (for_each (load_body initialized_requrired) ids (enter a)) as [[] fr0|];
      [|done].
    unfold publish_handles, modify in Hload. injection Hload as <-.
    exists fr0. split; [done|]. split; [done|]. simpl in *.
    by rewrite dom_union_L, Hh0, Ht. }
  unfold bind.
  destruct (instantiate_phase fr1) as [[] fr2|e fr2] eqn:Hinst.
  2:{ destruct (rollback_throws e fr2) as [Ht _]. by destruct (rollback e fr2). }
  destruct (execute_phase fr2) as [[] fr3|e fr3] eqn:Hexec.
  2:{ destruct (rollback_throws e fr3) as [Ht _]. by destruct (rollback e fr3). }
  intros [= <-]. exists fr0. split; [done|]. cbv zeta. rewrite <- Hdom, <- Hinit.
  unfold ActionExecutor.instantiate_phase, bind, get in Hinst.
  apply (instantiate_loop_returns load_action (dom (handles fr1)) (init_action_ids fr1))
    in Hinst as (Hs2 & Hc2 & Hg2); [|done|by intros id ?%elem_of_ascending|done].
  unfold ActionExecutor.execute_phase, bind, get in Hexec.
  destruct Hs2 as (Hd2 & Hi2 & Hr2). rewrite Hi2 in Hexec.
  pose proof Hexec as Hrunning.
  apply (execute_loop_returns start_worker (dom (handles fr1)) (init_action_ids fr1))
    in Hexec as ((Hd3 & _) & Hc3 & Hg3); [|done|by intros id ?%elem_of_ascending|done].
  simpl. rewrite Hc3, Hc2, Hc1, Hg3, Hg2, Hg1, Hd3. split_and!; try done.
  - by rewrite app_assoc.
  - intros id Hid. apply (execute_loop_running _ _ _ (NoDup_ascending _) Hrunning).
    by apply elem_of_ascending.
Qed.

End LaunchReturnsFacts.

(** A graph as its constructor builds it stores every node under its id. *)
Lemma keyed_new (graph_name : string) (umrfs : list Umrf) :
  UmrfGraph.keyed (UmrfGraph.new graph_name umrfs).
Proof.
  intros id n Hn. unfold UmrfGraph.new in Hn. simpl in Hn.
  apply elem_of_list_to_map_2, list_elem_of_fmap in Hn as (u & [= -> ->] & _). done.
Qed.

Section RootLaunchFacts.

Variable load_action : Umrf → option Exception.
Variable start_worker : Umrf → option Exception.

Local Abbreviation executeById := (ActionExecutor.executeById load_action start_worker).
Local Abbreviation executeUmrfGraph :=
  (ActionExecutor.executeUmrfGraph load_action start_worker).


End RootLaunchFacts.

